(** * ost_writing: the feature extraction pipeline

    A shallow embedding of [ost_writing] (extractor.py, features/*.py,
    utils/*.py) and of the feature selection of
    analysis/feature_selection.py, and the properties of their
    specification.

    Conventions of the embedding.
    - A Python [str] is a [string]; every [ascii] is one character, so
      [len] is [String.length].
    - A Python [int] is a [Z].  A Python [float] is read as the exact
      rational it denotes ([Q]); rounding is outside the model, and the
      guards the code puts before every division are kept.
    - An object handed to [extract] has a truth test that returns or
      raises; what it raises comes out of the guard of [extract].
    - Module level globals ([_nlp], [_stopwords], [_language_tool]) live
      in an explicit store that every function threads; an exception
      leaves the store as it was when it was raised.
    - A [pandas.DataFrame] is a number of rows and a list of labelled
      columns of dtype [int64] or [float64]; what the code asks of
      pandas (the frame of a list of records, the selection of
      columns, [dropna]) is written out.
    - Everything else the repository imports (NLTK, spaCy, WordNet,
      LanguageTool, the Unicode tables behind [str.lower], [str.strip]
      and [str.isalpha]) is a variable of the section [Pipeline]; the
      arithmetic of scikit-learn and statsmodels and the sort of
      pandas are variables of the section [Analysis]. *)

From Stdlib Require Import String Ascii List Bool ZArith QArith Lia Lqa FinFun Permutation Sorted.
Import ListNotations.

Local Open Scope string_scope.
Local Open Scope list_scope.
Local Open Scope Z_scope.

(* ================================================================= *)
(** ** Python values *)

Inductive exn : Type :=
| LanguageToolError (msg : string)
| TypeError (msg : string)
| ValueError (msg : string)
| KeyError (msg : string)
| IndexError (msg : string).

(** What evaluating an expression gives: a value or an exception. *)
Inductive outcome (A : Type) : Type :=
| Ok (a : A)
| Raise (e : exn).
Arguments Ok {A} a.
Arguments Raise {A} e.

(** What a caller can hand to [extract]: the annotation says [str], the
    guard of [extract] also answers for everything else. [PyObject t]
    is an object of any other type, with [t] for what its [__bool__]
    does: it returns a truth value, or it raises, as that of
    [pandas.NA] and of a numpy array of several elements does. *)
Inductive pyobj : Type :=
| PyNone
| PyBool (b : bool)
| PyInt (z : Z)
| PyFloat (q : Q)
| PyStr (s : string)
| PyObject (truth : outcome bool).

(** Feature values: [Dict[str, Union[int, float]]]. *)
Inductive number : Type :=
| Int (z : Z)
| Float (q : Q).

Definition len (s : string) : Z := Z.of_nat (String.length s).
Definition llen {A} (l : list A) : Z := Z.of_nat (List.length l).

(** [bool(x)], which runs the [__bool__] of [x]. *)
Definition truthy (x : pyobj) : outcome bool :=
  match x with
  | PyNone => Ok false
  | PyBool b => Ok b
  | PyInt z => Ok (negb (z =? 0))
  | PyFloat q => Ok (negb (Qeq_bool q 0))
  | PyStr s => Ok (negb (String.eqb s ""))
  | PyObject t => t
  end.

(** [isinstance(x, str)] *)
Definition isinstance_str (x : pyobj) : bool :=
  match x with PyStr _ => true | _ => false end.

(* ----------------------------------------------------------------- *)
(** *** Numbers *)

Definition Qltb (a b : Q) : bool := negb (Qle_bool b a).

(** [max(a, b)] and [min(a, b)] on floats: the first argument is kept
    unless the second is strictly better. *)
Definition py_max (a b : Q) : Q := if Qltb a b then b else a.
Definition py_min (a b : Q) : Q := if Qltb b a then b else a.

(** [a / b] on two ints. *)
Definition true_div (a b : Z) : Q := (inject_Z a / inject_Z b)%Q.

Definition zsum (l : list Z) : Z := fold_left Z.add l 0.
Definition qsum (l : list Q) : Q := fold_left Qplus l 0%Q.

(* ----------------------------------------------------------------- *)
(** *** Strings *)

(** [c in s] for a one character [c]. *)
Fixpoint char_in (c : ascii) (s : string) : bool :=
  match s with
  | EmptyString => false
  | String d r => Ascii.eqb c d || char_in c r
  end.

(** [s.startswith(p)] *)
Definition startswith (s p : string) : bool := String.prefix p s.

(** [s.endswith(p)] *)
Definition endswith (s p : string) : bool :=
  let n := String.length s in
  let k := String.length p in
  (k <=? n)%nat && String.eqb (String.substring (n - k) k s) p.

(** [s.count(sub)]: occurrences that do not overlap, found from the
    left. [skip] is the number of characters still covered by the
    occurrence found last. *)
Fixpoint count_from (sub s : string) (skip : nat) : Z :=
  match s with
  | EmptyString => 0
  | String _ r =>
      match skip with
      | S k => count_from sub r k
      | O => if String.prefix sub s
             then 1 + count_from sub r (String.length sub - 1)
             else count_from sub r 0
      end
  end.

Definition str_count (s sub : string) : Z :=
  match sub with
  | EmptyString => len s + 1
  | _ => count_from sub s 0
  end.

(** [sub in s] *)
Fixpoint str_contains (s sub : string) : bool :=
  String.prefix sub s ||
  match s with
  | EmptyString => false
  | String _ r => str_contains r sub
  end.

(** [x in l] for a list or a set of strings. *)
Definition str_in (x : string) (l : list string) : bool :=
  existsb (String.eqb x) l.

(* ----------------------------------------------------------------- *)
(** *** Sets of strings *)

(** A [set] of strings is a list without repetition. *)
Definition set_add (x : string) (s : list string) : list string :=
  if str_in x s then s else s ++ [x].

Definition set_of (l : list string) : list string :=
  fold_left (fun s x => set_add x s) l [].

Definition set_inter (a b : list string) : list string :=
  filter (fun x => str_in x b) a.

Definition set_union (a b : list string) : list string :=
  fold_left (fun s x => set_add x s) b a.

(* ----------------------------------------------------------------- *)
(** *** Dictionaries *)

(** A [dict] keeps its keys in insertion order; storing under a key
    that is present replaces the value where the key stands. *)
Definition dict : Type := list (string * number).

Fixpoint dict_set (d : dict) (k : string) (v : number) : dict :=
  match d with
  | [] => [(k, v)]
  | (k', v') :: r =>
      if String.eqb k' k then (k', v) :: r else (k', v') :: dict_set r k v
  end.

Definition dict_of_items (items : list (string * number)) : dict :=
  fold_left (fun d kv => dict_set d (fst kv) (snd kv)) items [].

Definition dict_keys (d : dict) : list string := map fst d.

Fixpoint dict_get (d : dict) (k : string) : option number :=
  match d with
  | [] => None
  | (k', v) :: r => if String.eqb k' k then Some v else dict_get r k
  end.

(* ----------------------------------------------------------------- *)
(** *** Data frames *)

(** A column of a [pandas.DataFrame], by its dtype: [int64], or
    [float64] where [None] is NaN. The frames of the repository hold
    feature values and the numbers of the data set; other dtypes and
    infinite floats are outside the model, and so is the range of
    [int64]. *)
Inductive Series : Type :=
| IntSeries (values : list Z)
| FloatSeries (values : list (option Q)).

(** [index] is the number of rows, [series] the labelled columns from
    left to right. *)
Record DataFrame : Type := mkFrame {
  index : nat;
  series : list (string * Series)
}.

(** [df.columns] and [df.shape[1]] *)
Definition columns (df : DataFrame) : list string := map fst (series df).
Definition shape1 (df : DataFrame) : nat := List.length (series df).

(** [col.iloc[i]] as a number: nothing for NaN or outside the rows. *)
Definition iloc (col : Series) (i : nat) : option number :=
  match col with
  | IntSeries values => option_map Int (nth_error values i)
  | FloatSeries values =>
      match nth_error values i with
      | Some (Some q) => Some (Float q)
      | _ => None
      end
  end.

(** [pd.DataFrame(results)] for a list of dicts: a row for each dict, a
    column for each key in the order the keys are first met. A column
    is [int64] when every dict holds an int under the key; otherwise it
    is [float64], the ints are converted and a dict without the key
    gives NaN. *)
Definition is_int (c : option number) : bool :=
  match c with Some (Int _) => true | _ => false end.

Definition as_int (c : option number) : Z :=
  match c with Some (Int z) => z | _ => 0 end.

Definition as_float (c : option number) : option Q :=
  match c with
  | Some (Int z) => Some (inject_Z z)
  | Some (Float q) => Some q
  | None => None
  end.

(** [float(v)] *)
Definition to_float (v : number) : number :=
  match v with
  | Int z => Float (inject_Z z)
  | Float q => Float q
  end.

Definition series_of (cells : list (option number)) : Series :=
  if forallb is_int cells then IntSeries (map as_int cells)
  else FloatSeries (map as_float cells).

Definition DataFrame_of_records (results : list dict) : DataFrame :=
  let labels :=
    fold_left (fun acc d => fold_left (fun acc k => set_add k acc)
                                      (dict_keys d) acc)
              results [] in
  mkFrame (List.length results)
          (map (fun k => (k, series_of (map (fun d => dict_get d k) results)))
               labels).

(** [df[key]] for a list of labels: the columns under each label of
    [key], in the order of [key]; a label that the frame does not have
    raises [KeyError]. *)
Definition select (df : DataFrame) (key : list string) : DataFrame :=
  mkFrame (index df)
          (flat_map (fun name =>
                       filter (fun col => String.eqb (fst col) name) (series df))
                    key).

Definition getitem (df : DataFrame) (key : list string) : outcome DataFrame :=
  match filter (fun name => negb (str_in name (columns df))) key with
  | missing :: _ => Raise (KeyError missing)
  | [] => Ok (select df key)
  end.

(** [X.dropna()]: the rows without NaN. *)
Definition notna (col : Series) (i : nat) : bool :=
  match col with
  | IntSeries _ => true
  | FloatSeries values =>
      match nth i values None with Some _ => true | None => false end
  end.

Definition complete (cols : list (string * Series)) (i : nat) : bool :=
  forallb (fun col => notna (snd col) i) cols.

Definition take (keep : list nat) (col : Series) : Series :=
  match col with
  | IntSeries values => IntSeries (map (fun i => nth i values 0) keep)
  | FloatSeries values => FloatSeries (map (fun i => nth i values None) keep)
  end.

Definition dropna (X : DataFrame) : DataFrame :=
  let keep := filter (complete (series X)) (seq 0 (index X)) in
  mkFrame (List.length keep)
          (map (fun col => (fst col, take keep (snd col))) (series X)).

(* ================================================================= *)
(** ** The parsed document (spaCy) *)

(** A token with the attributes the code reads. [tok_i] is the index
    of the token in its document and [head_i] the index of its head
    (the root of a sentence is its own head). *)
Record Token : Type := mkToken {
  tok_text : string;
  is_alpha : bool;
  pos_ : string;
  dep_ : string;
  tok_i : nat;
  head_i : nat
}.

Definition Span : Type := list Token.

Record Doc : Type := mkDoc { sents : list Span }.

(** [for token in doc] *)
Definition doc_tokens (doc : Doc) : list Token := concat (sents doc).

(** [token.head] *)
Definition head (doc : Doc) (token : Token) : Token :=
  match find (fun t => Nat.eqb (tok_i t) (head_i token)) (doc_tokens doc) with
  | Some h => h
  | None => token
  end.

(** [token.children]: the tokens attached to [token], itself apart. *)
Definition children (doc : Doc) (token : Token) : list Token :=
  filter (fun c => Nat.eqb (head_i c) (tok_i token)
                   && negb (Nat.eqb (tok_i c) (tok_i token)))
         (doc_tokens doc).

(** A WordNet synset, as far as the code looks into it:
    [s.lemmas()[0].name()] and [s.min_depth()]. *)
Record Synset : Type := mkSynset {
  first_lemma_name : string;
  min_depth : Z
}.

(* ================================================================= *)
(** ** The store and the monad of the pipeline *)

Section Store.

(** The result type of [tool.check] is opaque to the repository. *)
Variable Match : Type.

Definition Language : Type := string -> Doc.
Definition LanguageTool : Type := string -> outcome (list Match).

(** utils/nlp_setup.py [_nlp], [_stopwords]; features/accuracy.py
    [_language_tool]. *)
Record globals : Type := mkGlobals {
  _nlp : option Language;
  _stopwords : option (list string);
  _language_tool : option LanguageTool
}.

(** [service_calls] records, latest first, every text sent to the
    grammar checking service. *)
Record world : Type := mkWorld {
  mods : globals;
  service_calls : list string
}.

Definition M (A : Type) : Type := world -> outcome A * world.

Definition ret {A} (a : A) : M A := fun w => (Ok a, w).

Definition bind {A B} (m : M A) (f : A -> M B) : M B :=
  fun w =>
    match m w with
    | (Ok a, w') => f a w'
    | (Raise e, w') => (Raise e, w')
    end.

Definition raise {A} (e : exn) : M A := fun w => (Raise e, w).

End Store.

Arguments ret {Match A} a.
Arguments bind {Match A B} m f.
Arguments raise {Match A} e.
Arguments mkGlobals {Match}.
Arguments mkWorld {Match}.
Arguments _nlp {Match}.
Arguments _stopwords {Match}.
Arguments _language_tool {Match}.
Arguments mods {Match}.
Arguments service_calls {Match}.

Declare Scope py_scope.
Delimit Scope py_scope with py.
Notation "x <- m ;; k" := (bind m (fun x => k))
  (at level 100, m at next level, right associativity) : py_scope.
Local Open Scope py_scope.

(* ================================================================= *)
(** ** Test doubles

    Adapters with fixed outputs, small enough to evaluate by hand.
    They stand for the imported libraries wherever a statement is tried
    on a concrete input. *)

Module Fake.

Definition lower_char (c : ascii) : ascii :=
  let n := nat_of_ascii c in
  if ((65 <=? n) && (n <=? 90))%nat then ascii_of_nat (n + 32) else c.

Fixpoint str_lower (s : string) : string :=
  match s with
  | EmptyString => EmptyString
  | String c r => String (lower_char c) (str_lower r)
  end.

Fixpoint lstrip (s : string) : string :=
  match s with
  | String " " r => lstrip r
  | _ => s
  end.

Definition reverse (s : string) : string :=
  string_of_list_ascii (rev (list_ascii_of_string s)).

Definition str_strip (s : string) : string :=
  reverse (lstrip (reverse (lstrip s))).

Definition is_letter (c : ascii) : bool :=
  let n := nat_of_ascii (lower_char c) in
  ((97 <=? n) && (n <=? 122))%nat.

Fixpoint all_letters (s : string) : bool :=
  match s with
  | EmptyString => true
  | String c r => is_letter c && all_letters r
  end.

Definition str_isalpha (s : string) : bool :=
  negb (String.eqb s "") && all_letters s.

(** Pieces of [s] cut at the characters that satisfy [stop]; with
    [keep] the stop character closes its piece, otherwise it is
    dropped. [cur] is the piece being read. *)
Fixpoint pieces (stop : ascii -> bool) (keep : bool) (s cur : string)
  : list string :=
  match s with
  | EmptyString => if String.eqb cur "" then [] else [cur]
  | String c r =>
      if stop c then
        let piece := if keep then append cur (String c "") else cur in
        if String.eqb piece "" then pieces stop keep r ""
        else piece :: pieces stop keep r ""
      else pieces stop keep r (append cur (String c ""))
  end.

(** Sentences end at [.], [?] or [!]. *)
Definition sent_tokenize (text : string) : list string :=
  filter (fun s => negb (String.eqb s ""))
         (map lstrip (pieces (fun c => char_in c ".?!") true text "")).

(** Words are separated by blanks; a final [.], [,], [?] or [!] is a
    token of its own. *)
Definition split_final (w : string) : list string :=
  match rev (list_ascii_of_string w) with
  | c :: ((_ :: _) as r) =>
      if char_in c ".,?!"
      then [string_of_list_ascii (rev r); String c ""]
      else [w]
  | _ => [w]
  end.

Definition word_tokenize (text : string) : list string :=
  flat_map split_final (pieces (fun c => Ascii.eqb c " ") false text "").

Definition wordnet_synsets (word : string) : list Synset :=
  if String.eqb word "test" then [mkSynset "trial" 7; mkSynset "test" 9]
  else if String.eqb word "lesson" then [mkSynset "lesson" 8]
  else [].

Definition stopwords_words : list string :=
  ["i"; "a"; "the"; "and"; "it"; "she"; "did"; "the"].

(** "I ran and she walked." as the parser tags it: [and] is a [cc]
    under the verb [ran], whose child [walked] is a verbal [conj]. *)
Definition ran_and_walked : Doc :=
  mkDoc [[ mkToken "I" true "PRON" "nsubj" 0 1;
           mkToken "ran" true "VERB" "ROOT" 1 1;
           mkToken "and" true "CCONJ" "cc" 2 1;
           mkToken "she" true "PRON" "nsubj" 3 4;
           mkToken "walked" true "VERB" "conj" 4 1;
           mkToken "." false "PUNCT" "punct" 5 1 ]].

(** Any other text: one sentence, every word its own head. *)
Fixpoint flat_tokens (words : list string) (i : nat) : list Token :=
  match words with
  | [] => []
  | w :: r => mkToken w (str_isalpha w) "X" "dep" i i :: flat_tokens r (S i)
  end.

Definition nlp : Language := fun text =>
  if String.eqb text "I ran and she walked." then ran_and_walked
  else match word_tokenize text with
       | [] => mkDoc []
       | ws => mkDoc [flat_tokens ws 0]
       end.

(** A grammar service that is down, and one that finds nothing. *)
Definition failing_tool : LanguageTool unit :=
  fun _ => Raise (LanguageToolError "connection refused").

Definition quiet_tool : LanguageTool unit := fun _ => Ok [].

(** The store of a fresh process. *)
Definition fresh : world unit := mkWorld (mkGlobals None None None) [].


End Fake.

(* ================================================================= *)
(** ** analysis/feature_selection.py

    The arithmetic of scikit-learn and statsmodels and the way pandas
    orders equal keys are variables of the section; what the code asks
    of pandas to select columns and to drop rows, and the cases in
    which [StandardScaler] refuses its input, are written out. *)

(** What [variance_inflation_factor] gives: a finite float, a float
    that [np.isfinite] rejects, or an exception. *)
Inductive vif_raw : Type :=
| RawFinite (q : Q)
| RawNotFinite
| RawRaises.

(** A factor after the cleaning of [calculate_vif]: a finite number or
    [np.inf]. *)
Inductive vif_value : Type :=
| Finite (q : Q)
| Inf.

(** What a loop has come to when its fuel is counted. *)
Inductive removal (A : Type) : Type :=
| Returned (a : A)
| Failed (e : exn)
| Running.
Arguments Returned {A} a.
Arguments Failed {A} e.
Arguments Running {A}.

(** [v <= threshold] *)
Definition vif_leb (v : vif_value) (threshold : Q) : bool :=
  match v with
  | Finite q => Qle_bool q threshold
  | Inf => false
  end.

(** [a >= b], the order of [sort_values('VIF', ascending=False)]. *)
Definition vif_geb (a b : vif_value) : bool :=
  match a, b with
  | Inf, _ => true
  | Finite _, Inf => false
  | Finite x, Finite y => Qle_bool y x
  end.

(** [current.remove(feat)]: the first occurrence goes. *)
Fixpoint list_remove (feat : string) (current : list string)
  : option (list string) :=
  match current with
  | [] => None
  | c :: rest =>
      if String.eqb c feat then Some rest
      else option_map (cons c) (list_remove feat rest)
  end.

Section Analysis.

(** The arrays of numpy, and the array [StandardScaler] computes from a
    frame that it accepts. *)
Variable ndarray : Type.
Variable standardize : DataFrame -> ndarray.

(** [variance_inflation_factor(X_scaled, i)] *)
Variable variance_inflation_factor : ndarray -> nat -> vif_raw.

(** [DataFrame.sort_values('VIF', ascending=False)] on the rows
    [(feature, VIF)]. *)
Variable sort_values : list (string * vif_value) -> list (string * vif_value).

(** [StandardScaler().fit_transform(X)]: the validation of the input
    raises [ValueError] for a frame without a column and for a frame
    without a row. *)
Definition fit_transform (X : DataFrame) : outcome ndarray :=
  match series X with
  | [] => Raise (ValueError "at least one array or dtype is required")
  | _ =>
      match index X with
      | O => Raise (ValueError "Found array with 0 sample(s)")
      | S _ => Ok (standardize X)
      end
  end.

(** [v = v if np.isfinite(v) and v < 1e10 else np.inf], and [np.inf]
    when the computation raises. *)
Definition clean_vif (raw : vif_raw) : vif_value :=
  match raw with
  | RawFinite q => if Qltb q 10000000000 then Finite q else Inf
  | RawNotFinite => Inf
  | RawRaises => Inf
  end.

(** The scaler is called outside the [try]: what it raises comes out
    of [calculate_vif]. *)
Definition calculate_vif (X : DataFrame)
  : outcome (list (string * vif_value)) :=
  match fit_transform X with
  | Raise e => Raise e
  | Ok X_scaled =>
      let vif :=
        map (fun i => (nth i (columns X) "",
                       clean_vif (variance_inflation_factor X_scaled i)))
            (seq 0 (shape1 X)) in
      Ok (sort_values vif)
  end.

(** The [while True] loop of [iterative_vif_removal], for at most
    [fuel] turns. *)
Fixpoint removal_loop (fuel : nat) (df : DataFrame) (threshold : Q)
         (current : list string) (removed : list (string * vif_value))
  : removal (list string * list (string * vif_value)) :=
  match fuel with
  | O => Running
  | S fuel =>
      match getitem df current with
      | Raise e => Failed e
      | Ok selected =>
          let X := dropna selected in
          if (shape1 X <? 2)%nat then Returned (current, removed)
          else
            match calculate_vif X with
            | Raise e => Failed e
            | Ok [] =>
                Failed (IndexError "single positional indexer is out-of-bounds")
            | Ok ((feat, top) :: _) =>
                if vif_leb top threshold then Returned (current, removed)
                else
                  match list_remove feat current with
                  | None => Failed (ValueError "list.remove(x): x not in list")
                  | Some current' =>
                      removal_loop fuel df threshold current'
                                   (removed ++ [(feat, top)])
                  end
            end
      end
  end.

Definition iterative_vif_removal (fuel : nat) (df : DataFrame)
           (features : list string) (threshold : Q)
  : removal (list string * list (string * vif_value)) :=
  removal_loop fuel df threshold features [].

End Analysis.

Arguments fit_transform {ndarray} standardize X.
Arguments calculate_vif {ndarray} standardize variance_inflation_factor
  sort_values X.
Arguments removal_loop {ndarray} standardize variance_inflation_factor
  sort_values fuel df threshold current removed.
Arguments iterative_vif_removal {ndarray} standardize
  variance_inflation_factor sort_values fuel df features threshold.

Module FakeAnalysis.

(** An insertion sort, largest factor first. *)
Fixpoint insert (row : string * vif_value) (rows : list (string * vif_value))
  : list (string * vif_value) :=
  match rows with
  | [] => [row]
  | r :: rest =>
      if vif_geb (snd row) (snd r) then row :: rows
      else r :: insert row rest
  end.

Definition sort_values (rows : list (string * vif_value))
  : list (string * vif_value) :=
  fold_right insert [] rows.

(** The scaled array is the frame itself; a column has an infinite
    factor when another column of the frame holds the same values, and
    the factor 1.5 otherwise. *)
Definition standardize (X : DataFrame) : DataFrame := X.

Fixpoint same_cells (a b : list (option Q)) : bool :=
  match a, b with
  | [], [] => true
  | Some x :: a, Some y :: b => Qeq_bool x y && same_cells a b
  | None :: a, None :: b => same_cells a b
  | _, _ => false
  end.

Definition collinear (a b : Series) : bool :=
  match a, b with
  | FloatSeries x, FloatSeries y => same_cells x y
  | _, _ => false
  end.

Definition variance_inflation_factor (X : DataFrame) (i : nat) : vif_raw :=
  let column j := snd (nth j (series X) ("", FloatSeries [])) in
  if existsb (fun j => negb (j =? i)%nat && collinear (column i) (column j))
             (seq 0 (shape1 X))
  then RawNotFinite
  else RawFinite 1.5.

(** Five columns and three rows: [c] repeats [b], [d] is empty, and
    [e] misses its second value. *)
Definition scores : DataFrame :=
  mkFrame 3
    [ ("a", FloatSeries [Some 1%Q; Some 2%Q; Some 4%Q]);
      ("b", FloatSeries [Some 2%Q; Some 1%Q; Some 3%Q]);
      ("c", FloatSeries [Some 2%Q; Some 1%Q; Some 3%Q]);
      ("d", FloatSeries [None; None; None]);
      ("e", FloatSeries [Some 1%Q; None; Some 5%Q]) ].

End FakeAnalysis.


(* ================================================================= *)
(** ** The pipeline *)

Section Pipeline.

Variable Match : Type.

(** The Python runtime: [str.lower], [str.strip], [str.isalpha]. *)
Variable str_lower : string -> string.
Variable str_strip : string -> string.
Variable str_isalpha : string -> bool.

(** NLTK: [sent_tokenize], [word_tokenize], [wordnet.synsets] and
    [stopwords.words("english")]. *)
Variable sent_tokenize : string -> list string.
Variable word_tokenize : string -> list string.
Variable wordnet_synsets : string -> list Synset.
Variable stopwords_words : list string.

(** What [spacy.load("en_core_web_sm")] and
    [language_tool_python.LanguageTool('en-US')] return. *)
Variable spacy_load : Language.
Variable new_language_tool : LanguageTool Match.

Local Notation "'M'" := (M Match).

#[local] Set Default Proof Using "Type".

(* --------------------------------------------------------------- *)
(** *** utils/nlp_setup.py *)

Definition get_nlp : M Language := fun w =>
  match _nlp (mods w) with
  | Some nlp => (Ok nlp, w)
  | None =>
      (Ok spacy_load,
       mkWorld (mkGlobals (Some spacy_load)
                          (_stopwords (mods w))
                          (_language_tool (mods w)))
               (service_calls w))
  end.

Definition get_stopwords : M (list string) := fun w =>
  match _stopwords (mods w) with
  | Some sw => (Ok sw, w)
  | None =>
      let sw := set_of stopwords_words in
      (Ok sw,
       mkWorld (mkGlobals (_nlp (mods w))
                          (Some sw)
                          (_language_tool (mods w)))
               (service_calls w))
  end.

(* --------------------------------------------------------------- *)
(** *** utils/text_processing.py *)

Definition vowels : string := "aeiouy".

(** The loop of [count_syllables]: [count] and [prev_vowel] after the
    characters of [word]. *)
Fixpoint vowel_groups (word : string) (prev_vowel : bool) (count : Z) : Z :=
  match word with
  | EmptyString => count
  | String char rest =>
      let is_vowel := char_in char vowels in
      vowel_groups rest is_vowel
        (if is_vowel && negb prev_vowel then count + 1 else count)
  end.

Definition count_syllables (word : string) : Z :=
  let word := str_strip (str_lower word) in
  if len word <=? 3 then 1
  else
    let count := vowel_groups word false 0 in
    let count := if endswith word "e" && (1 <? count)
                 then count - 1 else count in
    Z.max 1 count.

(* --------------------------------------------------------------- *)
(** *** features/surface.py *)

Definition word_count (text : string) : Z :=
  let tokens := word_tokenize text in
  llen (filter str_isalpha tokens).

Definition avg_sentence_length (text : string) : Q :=
  let sentences := sent_tokenize text in
  match sentences with
  | [] => 0%Q
  | _ =>
      let lengths :=
        map (fun s => llen (filter str_isalpha (word_tokenize s))) sentences in
      true_div (zsum lengths) (llen lengths)
  end.

Definition num_complex_sentences (text : string) (threshold : Z) : Z :=
  let sentences := sent_tokenize text in
  fold_left
    (fun count sent =>
       let words := filter str_isalpha (word_tokenize sent) in
       if threshold <? llen words then count + 1 else count)
    sentences 0.

(* --------------------------------------------------------------- *)
(** *** features/lexical.py *)

Definition lexical_diversity (text : string) : Q :=
  let tokens := map str_lower (filter str_isalpha (word_tokenize text)) in
  match tokens with
  | [] => 0%Q
  | _ => true_div (llen (set_of tokens)) (llen tokens)
  end.

(** [[t.lower() for t in word_tokenize(text)
      if t.isalpha() and t.lower() not in stop_words]] *)
Definition content_tokens (stop_words : list string) (text : string)
  : list string :=
  map str_lower
    (filter (fun t => str_isalpha t && negb (str_in (str_lower t) stop_words))
            (word_tokenize text)).

Definition vocabulary_sophistication (text : string) : M Q :=
  stop_words <- get_stopwords ;;
  let tokens := content_tokens stop_words text in
  match tokens with
  | [] => ret 0%Q
  | _ =>
      let depths :=
        fold_left
          (fun depths token =>
             let synsets := wordnet_synsets token in
             match synsets with
             | [] => depths
             | _ =>
                 let token_depths := map min_depth synsets in
                 depths ++ [true_div (zsum token_depths) (llen token_depths)]
             end)
          tokens [] in
      match depths with
      | [] => ret 0%Q
      | _ =>
          let avg_depth := (qsum depths / inject_Z (llen depths))%Q in
          ret (py_min 1 (avg_depth / 10))%Q
      end
  end.

Definition polysemy_word (text : string) : M Z :=
  stop_words <- get_stopwords ;;
  let tokens := content_tokens stop_words text in
  ret (fold_left
         (fun count token =>
            let synsets := wordnet_synsets token in
            if 1 <? llen synsets then count + 1 else count)
         tokens 0).

(* --------------------------------------------------------------- *)
(** *** features/syntactic.py *)

Definition complex_starters : list string :=
  ["if"; "when"; "although"; "because"; "while"; "since"; "after"; "before"].

(** The [if]/[elif] chain in the loop of [sentence_type_diversity]:
    the label that is added to [types] for [sent]. *)
Definition sentence_type (sent : string) : string :=
  let sent_stripped := str_strip sent in
  if endswith sent_stripped "?" then "question"
  else if endswith sent_stripped "!" then "exclamation"
  else if existsb (fun w => startswith (str_lower sent_stripped) w)
                  complex_starters then "complex"
  else if str_contains sent "," && (10 <? llen (word_tokenize sent))
       then "compound"
  else "simple".

Definition sentence_type_diversity (text : string) : Q :=
  let sentences := sent_tokenize text in
  match sentences with
  | [] => 0%Q
  | _ =>
      let types :=
        fold_left (fun types sent => set_add (sentence_type sent) types)
                  sentences [] in
      (inject_Z (llen types) / 5)%Q
  end.

Definition syntactic_simplicity (text : string) : Q :=
  let sentences := sent_tokenize text in
  match sentences with
  | [] => 0%Q
  | _ =>
      let lengths := map (fun s => llen (word_tokenize s)) sentences in
      let avg_len := true_div (zsum lengths) (llen lengths) in
      if Qltb 0 avg_len then (1 / (1 + avg_len / 15))%Q else 0%Q
  end.

Definition information_density (text : string) : M Q :=
  stop_words <- get_stopwords ;;
  let tokens := map str_lower (filter str_isalpha (word_tokenize text)) in
  match tokens with
  | [] => ret 0%Q
  | _ =>
      let content_words :=
        filter (fun t => negb (str_in t stop_words)) tokens in
      ret (true_div (llen content_words) (llen tokens))
  end.

(* --------------------------------------------------------------- *)
(** *** features/accuracy.py *)

Definition _get_language_tool : M (LanguageTool Match) := fun w =>
  match _language_tool (mods w) with
  | Some tool => (Ok tool, w)
  | None =>
      (Ok new_language_tool,
       mkWorld (mkGlobals (_nlp (mods w))
                          (_stopwords (mods w))
                          (Some new_language_tool))
               (service_calls w))
  end.

(** [tool.check(text)]: one round trip to the service. *)
Definition check (tool : LanguageTool Match) (text : string)
  : M (list Match) := fun w =>
  (tool text, mkWorld (mods w) (text :: service_calls w)).

Definition error_count (text : string) : M Z :=
  if String.eqb text "" || (len text <? 10) then ret 0
  else
    tool <- _get_language_tool ;;
    matches <- check tool text ;;
    ret (llen matches).

Definition context_sensitive_count (text : string) : M Z :=
  nlp <- get_nlp ;;
  let doc := nlp text in
  ret (fold_left
         (fun count token =>
            if negb (is_alpha token) then count
            else
              let synsets := wordnet_synsets (str_lower (tok_text token)) in
              match synsets with
              | [] => count
              | s0 :: _ =>
                  let primary_lemma := str_lower (first_lemma_name s0) in
                  if negb (String.eqb primary_lemma (str_lower (tok_text token)))
                  then count + 1 else count
              end)
         (doc_tokens doc) 0).

(* --------------------------------------------------------------- *)
(** *** features/cohesion.py *)

Definition sentence_content_set (stop_words : list string) (sentence : string)
  : list string :=
  set_of (content_tokens stop_words sentence).

(** The loop over [range(len(sentences) - 1)]: [overlaps] after the
    pairs of neighbours of [sentences]. *)
Fixpoint overlaps_loop (stop_words : list string) (sentences : list string)
         (overlaps : list Q) : list Q :=
  match sentences with
  | s1 :: ((s2 :: _) as rest) =>
      let tokens1 := sentence_content_set stop_words s1 in
      let tokens2 := sentence_content_set stop_words s2 in
      match tokens1, tokens2 with
      | [], _ | _, [] => overlaps_loop stop_words rest overlaps
      | _, _ =>
          let intersection := llen (set_inter tokens1 tokens2) in
          let union := llen (set_union tokens1 tokens2) in
          overlaps_loop stop_words rest
            (if 0 <? union then overlaps ++ [true_div intersection union]
             else overlaps)
      end
  | _ => overlaps
  end.

Definition referential_cohesion (text : string) : M Q :=
  let sentences := sent_tokenize text in
  if llen sentences <=? 1 then ret 0%Q
  else
    stop_words <- get_stopwords ;;
    let overlaps := overlaps_loop stop_words sentences [] in
    match overlaps with
    | [] => ret 0%Q
    | _ => ret (qsum overlaps / inject_Z (llen overlaps))%Q
    end.

Definition connectives : list string :=
  [ (* Causal *)
    "because"; "therefore"; "thus"; "consequently"; "so";
    (* Contrastive *)
    "although"; "though"; "however"; "but"; "despite";
    (* Temporal *)
    "first"; "second"; "next"; "then"; "finally"; "last";
    (* Additive *)
    "furthermore"; "moreover"; "additionally"; "also" ].

(** [sum(text_lower.count(f" {c} ") for c in connectives)] *)
Definition conn_count (text : string) : Z :=
  let text_lower := str_lower text in
  zsum (map (fun c => str_count text_lower (append " " (append c " ")))
            connectives).

Definition deep_cohesion (text : string) : Q :=
  let words := filter str_isalpha (word_tokenize text) in
  match words with
  | [] => 0%Q
  | _ => true_div (conn_count text) (llen words)
  end.

(* --------------------------------------------------------------- *)
(** *** features/readability.py *)

(** The grade as the exact value of the expression of the code; the
    float the code returns is this value rounded, and [max(0.0, grade)]
    is 0.0 whenever the float is not positive. *)
Definition flesch_kincaid_grade_level (text : string) : Q :=
  let sentences := sent_tokenize text in
  let words := filter str_isalpha (word_tokenize text) in
  match sentences, words with
  | [], _ | _, [] => 0%Q
  | _, _ =>
      let word_count := llen words in
      let sentence_count := llen sentences in
      let syllable_count := zsum (map count_syllables words) in
      let grade :=
        (0.39 * true_div word_count sentence_count
         + 11.8 * true_div syllable_count word_count
         - 15.59)%Q in
      py_max 0 grade
  end.

Definition weights : list Q :=
  [0.25; 0.25; 0.20; 0.15; 0.15]%Q.

Definition text_ease (text : string) : M Q :=
  let fk_grade := flesch_kincaid_grade_level text in
  let grade_ease := (1 - py_min 1 (py_max 0 ((fk_grade - 3) / 15)))%Q in
  let synt_simp := syntactic_simplicity text in
  ref_coh <- referential_cohesion text ;;
  let deep_coh := deep_cohesion text in
  let word_concrete := 0.5%Q in
  let components := [grade_ease; synt_simp; word_concrete; ref_coh; deep_coh] in
  ret (qsum (map (fun wc => (fst wc * snd wc)%Q) (combine weights components))).

(* --------------------------------------------------------------- *)
(** *** features/variability.py *)

(** [float(np.var(xs))]: the population variance. *)
Definition np_var (xs : list Z) : Q :=
  let n := llen xs in
  let mean := true_div (zsum xs) n in
  (qsum (map (fun x => (inject_Z x - mean) * (inject_Z x - mean)) xs)
   / inject_Z n)%Q.

Definition word_length_variance (text : string) : Q :=
  let words := filter str_isalpha (word_tokenize text) in
  match words with
  | [] => 0%Q
  | _ => np_var (map len words)
  end.

Definition syllable_variance (text : string) : Q :=
  let words := filter str_isalpha (word_tokenize text) in
  match words with
  | [] => 0%Q
  | _ => np_var (map count_syllables words)
  end.

(* --------------------------------------------------------------- *)
(** *** features/clausal.py *)

Definition dep_clause_markers : list string :=
  ["advcl"; "relcl"; "ccomp"; "xcomp"; "acl"].

(** The T-unit boundary test: a coordinating conjunction whose head is
    a verb that has a verbal conjunct among its children. *)
Definition is_t_unit_boundary (doc : Doc) (token : Token) : bool :=
  String.eqb (dep_ token) "cc"
  && String.eqb (pos_ (head doc token)) "VERB"
  && existsb (fun child => String.eqb (dep_ child) "conj"
                           && String.eqb (pos_ child) "VERB")
             (children doc (head doc token)).

(** The variables of the two loops of [_extract_t_units]. *)
Record seg_state : Type := mkSeg {
  t_unit_lengths : list Z;
  dep_clause_count : Z;
  current_t_unit : list Token;
  sent_dep_clauses : Z
}.

(** One turn of [for token in sent]. *)
Definition token_step (doc : Doc) (st : seg_state) (token : Token) : seg_state :=
  let current := current_t_unit st ++ [token] in
  let sdc := if str_in (dep_ token) dep_clause_markers
             then sent_dep_clauses st + 1 else sent_dep_clauses st in
  if is_t_unit_boundary doc token then
    match current with
    | [] => mkSeg (t_unit_lengths st) (dep_clause_count st) current sdc
    | _ => mkSeg (t_unit_lengths st ++ [llen current])
                 (dep_clause_count st + sdc) [] 0
    end
  else mkSeg (t_unit_lengths st) (dep_clause_count st) current sdc.

(** One turn of [for sent in doc.sents], on the pair
    [(t_unit_lengths, dep_clause_count)]. *)
Definition sent_step (doc : Doc) (acc : list Z * Z) (sent : Span) : list Z * Z :=
  let st := fold_left (token_step doc) sent (mkSeg (fst acc) (snd acc) [] 0) in
  match current_t_unit st with
  | [] => (t_unit_lengths st, dep_clause_count st)
  | current => (t_unit_lengths st ++ [llen current],
                dep_clause_count st + sent_dep_clauses st)
  end.

(** The body of [_extract_t_units] once the document is parsed. *)
Definition t_units_of_doc (doc : Doc) : list Z * Z :=
  fold_left (sent_step doc) (sents doc) ([], 0).

Definition _extract_t_units (text : string) : M (list Z * Z) :=
  nlp <- get_nlp ;;
  let doc := nlp text in
  ret (t_units_of_doc doc).

Definition num_t_units (text : string) : M Z :=
  r <- _extract_t_units text ;;
  ret (llen (fst r)).

Definition mean_length_t_unit (text : string) : M Q :=
  r <- _extract_t_units text ;;
  let t_unit_lengths := fst r in
  match t_unit_lengths with
  | [] => ret 0%Q
  | _ => ret (true_div (zsum t_unit_lengths) (llen t_unit_lengths))
  end.

Definition dependent_clauses_per_t_unit (text : string) : M Q :=
  r <- _extract_t_units text ;;
  let t_unit_lengths := fst r in
  let dep_count := snd r in
  match t_unit_lengths with
  | [] => ret 0%Q
  | _ => ret (true_div dep_count (llen t_unit_lengths))
  end.

(* --------------------------------------------------------------- *)
(** *** extractor.py *)

Definition FEATURE_NAMES : list string :=
  [ "word_count"; "avg_sentence_length"; "num_complex_sentences";
    "lexical_diversity"; "vocabulary_sophistication"; "polysemy_word";
    "sentence_type_diversity"; "syntactic_simplicity"; "information_density";
    "error_count"; "context_sensitive_count";
    "flesch_kincaid_grade_level"; "text_ease";
    "referential_cohesion"; "deep_cohesion";
    "word_length_variance"; "syllable_variance";
    "num_t_units"; "mean_length_t_unit"; "dependent_clauses_per_t_unit" ].

Record FeatureExtractor : Type := mkExtractor { prefix : string }.

(** [FeatureExtractor.__init__] *)
Definition FeatureExtractor_init (prefix : string) : M FeatureExtractor :=
  _ <- get_nlp ;;
  ret (mkExtractor prefix).

(** A dict display: the values are computed in the order written and
    stored one after the other. *)
Fixpoint dict_display (entries : list (string * M number)) (d : dict) : M dict :=
  match entries with
  | [] => ret d
  | (k, m) :: rest => v <- m ;; dict_display rest (dict_set d k v)
  end.

Definition int_ (z : Z) : M number := ret (Int z).
Definition float_ (q : Q) : M number := ret (Float q).
Definition int_of (m : M Z) : M number := z <- m ;; ret (Int z).
Definition float_of (m : M Q) : M number := q <- m ;; ret (Float q).

(** [not text] is evaluated first, and what [text.__bool__] raises
    comes out of [extract]. *)
Definition extract (self : FeatureExtractor) (text : pyobj) : M dict :=
  match truthy text with
  | Raise e => raise e
  | Ok truth =>
  if negb truth || negb (isinstance_str text) then
    ret (dict_of_items
           (map (fun name => (append (prefix self) name, Int 0)) FEATURE_NAMES))
  else
    match text with
    | PyStr text =>
        features <-
          dict_display
            [ ("word_count", int_ (word_count text));
              ("avg_sentence_length", float_ (avg_sentence_length text));
              ("num_complex_sentences", int_ (num_complex_sentences text 15));
              ("lexical_diversity", float_ (lexical_diversity text));
              ("vocabulary_sophistication",
               float_of (vocabulary_sophistication text));
              ("polysemy_word", int_of (polysemy_word text));
              ("sentence_type_diversity", float_ (sentence_type_diversity text));
              ("syntactic_simplicity", float_ (syntactic_simplicity text));
              ("information_density", float_of (information_density text));
              ("error_count", int_of (error_count text));
              ("context_sensitive_count", int_of (context_sensitive_count text));
              ("flesch_kincaid_grade_level",
               float_ (flesch_kincaid_grade_level text));
              ("text_ease", float_of (text_ease text));
              ("referential_cohesion", float_of (referential_cohesion text));
              ("deep_cohesion", float_ (deep_cohesion text));
              ("word_length_variance", float_ (word_length_variance text));
              ("syllable_variance", float_ (syllable_variance text));
              ("num_t_units", int_of (num_t_units text));
              ("mean_length_t_unit", float_of (mean_length_t_unit text));
              ("dependent_clauses_per_t_unit",
               float_of (dependent_clauses_per_t_unit text)) ]
            [] ;;
        if negb (String.eqb (prefix self) "") then
          ret (dict_of_items
                 (map (fun kv => (append (prefix self) (fst kv), snd kv))
                      features))
        else ret features
    | _ => raise (TypeError "expected string or bytes-like object")
    end
  end.

(** [results = [self.extract(text) for text in iterator]] of
    [extract_batch]; [tqdm] hands the texts on in their order. *)
Fixpoint extract_results (self : FeatureExtractor) (texts : list pyobj)
  : M (list dict) :=
  match texts with
  | [] => ret []
  | text :: rest =>
      d <- extract self text ;;
      ds <- extract_results self rest ;;
      ret (d :: ds)
  end.

Definition extract_batch (self : FeatureExtractor) (texts : list pyobj)
  : M DataFrame :=
  results <- extract_results self texts ;;
  ret (DataFrame_of_records results).

(* ================================================================= *)
(** ** Notions of the specification *)

(** The T-units of a sentence as token sequences: the successive values
    of [current_t_unit] at the points where [_extract_t_units] appends
    its length to [t_unit_lengths]. [current] is the T-unit that is
    open when [sent] is still to be read. *)
Fixpoint t_units_from (doc : Doc) (current : list Token) (sent : Span)
  : list (list Token) :=
  match sent with
  | [] => match current with [] => [] | _ => [current] end
  | token :: rest =>
      let current := current ++ [token] in
      if is_t_unit_boundary doc token then
        match current with
        | [] => t_units_from doc current rest
        | _ => current :: t_units_from doc [] rest
        end
      else t_units_from doc current rest
  end.

Definition t_units_of_sent (doc : Doc) (sent : Span) : list (list Token) :=
  t_units_from doc [] sent.

(** The number of sentences of a document that hold a token. *)
Definition nonempty_sents (doc : Doc) : Z :=
  llen (filter (fun sent => match sent with [] => false | _ => true end)
               (sents doc)).

(** The five sentence types, and those among them that some sentence
    of [sentences] is classified as. *)
Definition sentence_types : list string :=
  ["question"; "exclamation"; "complex"; "compound"; "simple"].

Definition types_observed (sentences : list string) : list string :=
  filter (fun ty => existsb (fun s => String.eqb (sentence_type s) ty) sentences)
         sentence_types.

(** [clamp(x, lo, hi)] *)
Definition clamp (x lo hi : Q) : Q :=
  if Qltb x lo then lo else if Qltb hi x then hi else x.

Definition grade_ease (text : string) : Q :=
  (1 - clamp ((flesch_kincaid_grade_level text - 3) / 15) 0 1)%Q.

(** The grammar checker a call of [error_count] in store [w] talks to:
    the cached one, or the one the first call creates. *)
Definition tool_in_use (w : world Match) : LanguageTool Match :=
  match _language_tool (mods w) with
  | Some tool => tool
  | None => new_language_tool
  end.

(** The parser a call in store [w] uses: the cached one, or the one the
    first call loads. *)
Definition nlp_in_use (w : world Match) : Language :=
  match _nlp (mods w) with
  | Some nlp => nlp
  | None => spacy_load
  end.


(** The places where [s.count(sub)] finds [sub]: the start indices of
    the occurrences taken from the left without overlap. [at_] is the
    index of the first character of [s]. *)
Fixpoint occurrences_from (sub s : string) (skip at_ : nat) : list nat :=
  match s with
  | EmptyString => []
  | String _ r =>
      match skip with
      | S k => occurrences_from sub r k (S at_)
      | O => if String.prefix sub s
             then at_ :: occurrences_from sub r (String.length sub - 1) (S at_)
             else occurrences_from sub r 0 (S at_)
      end
  end.







(** The stopword set a call in store [w] uses: the cached one, or the
    one the first call builds. *)
Definition stop_words_in_use (w : world Match) : list string :=
  match _stopwords (mods w) with
  | Some sw => sw
  | None => set_of stopwords_words
  end.


(** The inputs that the guard of [extract] answers with zeros: their
    truth value is defined, and it is false or they are not strings. *)
Definition degenerate (text : pyobj) : Prop :=
  truthy text = Ok false \/
  (truthy text = Ok true /\ isinstance_str text = false).


(** The no-crash policy for the grammar service as a property of
    [extract]: whenever the check of a text fails, a record comes back
    all the same and holds 0 under [error_count]. *)
Definition zero_on_service_failure : Prop :=
  forall (self : FeatureExtractor) (text : string) (w : world Match) (e : exn),
    10 <= len text ->
    tool_in_use w text = Raise e ->
    exists record,
      fst (extract self (PyStr text) w) = Ok record /\
      dict_get record (append (prefix self) "error_count") = Some (Int 0).

(** A cache may only go from empty to the value its loader yields. *)
Definition cache_le {A} (loaded : A) (c c' : option A) : Prop :=
  c' = c \/ (c = None /\ c' = Some loaded).

Definition globals_le (g g' : globals Match) : Prop :=
  cache_le spacy_load (_nlp g) (_nlp g')
  /\ cache_le (set_of stopwords_words) (_stopwords g) (_stopwords g')
  /\ cache_le new_language_tool (_language_tool g) (_language_tool g').

(** A computation is [stable] when it only fills caches, and when, run
    again in any store at least as filled as the one it left, it gives
    the same outcome and leaves the globals alone. *)
Definition stable {A} (m : M A) : Prop :=
  forall w,
    globals_le (mods w) (mods (snd (m w))) /\
    forall w', globals_le (mods (snd (m w))) (mods w') ->
               fst (m w') = fst (m w) /\ mods (snd (m w')) = mods w'.

(** A computation [succeeds] when it returns in every store and leaves
    the cached grammar checker as it is. *)
Definition succeeds {A} (m : M A) : Prop :=
  forall w, exists a w',
    m w = (Ok a, w') /\
    _language_tool (mods w') = _language_tool (mods w) /\
    service_calls w' = service_calls w.


(** A computation [respects] the caches when its outcome is the same
    in every store that is at least as filled as another, and the
    stores it leaves are ordered as the ones it found. *)
Definition respects {A} (m : M A) : Prop :=
  forall w,
    globals_le (mods w) (mods (snd (m w))) /\
    forall w', globals_le (mods w) (mods w') ->
               fst (m w') = fst (m w) /\
               globals_le (mods (snd (m w))) (mods (snd (m w'))).


(** The dict display of [extract]: the features by name, in the order
    of the source. *)
Definition feature_table (text : string) : list (string * M number) :=
  [ ("word_count", int_ (word_count text));
    ("avg_sentence_length", float_ (avg_sentence_length text));
    ("num_complex_sentences", int_ (num_complex_sentences text 15));
    ("lexical_diversity", float_ (lexical_diversity text));
    ("vocabulary_sophistication", float_of (vocabulary_sophistication text));
    ("polysemy_word", int_of (polysemy_word text));
    ("sentence_type_diversity", float_ (sentence_type_diversity text));
    ("syntactic_simplicity", float_ (syntactic_simplicity text));
    ("information_density", float_of (information_density text));
    ("error_count", int_of (error_count text));
    ("context_sensitive_count", int_of (context_sensitive_count text));
    ("flesch_kincaid_grade_level", float_ (flesch_kincaid_grade_level text));
    ("text_ease", float_of (text_ease text));
    ("referential_cohesion", float_of (referential_cohesion text));
    ("deep_cohesion", float_ (deep_cohesion text));
    ("word_length_variance", float_ (word_length_variance text));
    ("syllable_variance", float_ (syllable_variance text));
    ("num_t_units", int_of (num_t_units text));
    ("mean_length_t_unit", float_of (mean_length_t_unit text));
    ("dependent_clauses_per_t_unit",
     float_of (dependent_clauses_per_t_unit text)) ].


(* ================================================================= *)
(** ** Properties *)

(* --------------------------------------------------------------- *)
(** *** Computations that cannot fail *)

Lemma succeeds_ret {A} (a : A) : succeeds (ret a).
Proof. intros w. exists a, w. auto. Qed.

Lemma succeeds_bind {A B} (m : M A) (f : A -> M B) :
  succeeds m -> (forall a, succeeds (f a)) -> succeeds (bind m f).
Proof.
  intros Hm Hf w. unfold bind.
  destruct (Hm w) as (a & w1 & -> & Ht & Hc).
  destruct (Hf a w1) as (b & w2 & -> & Ht' & Hc').
  exists b, w2. repeat split; congruence.
Qed.

Lemma succeeds_get_nlp : succeeds get_nlp.
Proof.
  intros w. unfold get_nlp.
  destruct (_nlp (mods w)); eexists; eexists; (split; [ reflexivity | auto ]).
Qed.

Lemma succeeds_get_stopwords : succeeds get_stopwords.
Proof.
  intros w. unfold get_stopwords.
  destruct (_stopwords (mods w)); eexists; eexists; (split; [ reflexivity | auto ]).
Qed.

Lemma succeeds_match_list {A B} (l : list A) (m1 : M B) (m2 : M B) :
  succeeds m1 -> succeeds m2 ->
  succeeds (match l with [] => m1 | _ :: _ => m2 end).
Proof. destruct l; auto. Qed.

Lemma succeeds_if {A} (b : bool) (m1 m2 : M A) :
  succeeds m1 -> succeeds m2 -> succeeds (if b then m1 else m2).
Proof. destruct b; auto. Qed.

Create HintDb py_total.
#[local] Hint Resolve succeeds_ret succeeds_get_nlp succeeds_get_stopwords
  : py_total.
#[local] Hint Extern 2 (succeeds (bind _ _)) =>
  apply succeeds_bind; [ | intros ? ] : py_total.
#[local] Hint Extern 2 (succeeds (match ?l with [] => _ | _ :: _ => _ end)) =>
  apply succeeds_match_list : py_total.
#[local] Hint Extern 2 (succeeds (if _ then _ else _)) =>
  apply succeeds_if : py_total.

Ltac total := unfold int_, float_, int_of, float_of; auto 12 with py_total.

Lemma succeeds_vocabulary_sophistication text :
  succeeds (vocabulary_sophistication text).
Proof. unfold vocabulary_sophistication. total. Qed.

Lemma succeeds_polysemy_word text : succeeds (polysemy_word text).
Proof. unfold polysemy_word. total. Qed.

Lemma succeeds_information_density text : succeeds (information_density text).
Proof. unfold information_density. total. Qed.

Lemma succeeds_context_sensitive_count text :
  succeeds (context_sensitive_count text).
Proof. unfold context_sensitive_count. total. Qed.

Lemma succeeds_referential_cohesion text :
  succeeds (referential_cohesion text).
Proof. unfold referential_cohesion. total. Qed.

Lemma succeeds_text_ease text : succeeds (text_ease text).
Proof.
  unfold text_ease. apply succeeds_bind.
  - apply succeeds_referential_cohesion.
  - intros. total.
Qed.

Lemma succeeds__extract_t_units text : succeeds (_extract_t_units text).
Proof. unfold _extract_t_units. total. Qed.

Lemma succeeds_num_t_units text : succeeds (num_t_units text).
Proof.
  unfold num_t_units. apply succeeds_bind.
  - apply succeeds__extract_t_units.
  - intros. total.
Qed.

Lemma succeeds_mean_length_t_unit text : succeeds (mean_length_t_unit text).
Proof.
  unfold mean_length_t_unit. apply succeeds_bind.
  - apply succeeds__extract_t_units.
  - intros. total.
Qed.

Lemma succeeds_dependent_clauses_per_t_unit text :
  succeeds (dependent_clauses_per_t_unit text).
Proof.
  unfold dependent_clauses_per_t_unit. apply succeeds_bind.
  - apply succeeds__extract_t_units.
  - intros. total.
Qed.

#[local] Hint Resolve succeeds_vocabulary_sophistication succeeds_polysemy_word
  succeeds_information_density succeeds_context_sensitive_count
  succeeds_referential_cohesion succeeds_text_ease succeeds_num_t_units
  succeeds_mean_length_t_unit succeeds_dependent_clauses_per_t_unit
  : py_total.

(** What [error_count] does on a text of 10 characters or more: one
    call to the checker in use, whose answer decides the outcome. *)
Lemma error_count_long text w :
  10 <= len text ->
  error_count text w =
    (match tool_in_use w text with
     | Ok matches => Ok (llen matches)
     | Raise e => Raise e
     end,
     mkWorld (mkGlobals (_nlp (mods w)) (_stopwords (mods w))
                        (Some (tool_in_use w)))
             (text :: service_calls w)).
Proof.
  intros H. unfold error_count.
  assert (String.eqb text "" = false) as ->.
  { destruct text; [ cbn in H; lia | reflexivity ]. }
  assert ((len text <? 10) = false) as -> by (apply Z.ltb_ge; lia).
  cbn [orb]. unfold bind, _get_language_tool, check, tool_in_use, ret.
  destruct w as [[n s t] c]; cbn.
  destruct t as [tool|]; cbn.
  - destruct (tool text); reflexivity.
  - destruct (new_language_tool text); reflexivity.
Qed.


(* --------------------------------------------------------------- *)
(** *** Sets and dictionaries *)

Lemma str_in_In x l : str_in x l = true <-> In x l.
Proof.
  unfold str_in. rewrite existsb_exists. split.
  - intros (y & Hy & E). apply String.eqb_eq in E. now subst.
  - intros H. exists x. split; [ assumption | apply String.eqb_refl ].
Qed.

Lemma str_in_false x l : str_in x l = false <-> ~ In x l.
Proof.
  rewrite <- str_in_In. destruct (str_in x l); split; congruence.
Qed.

Lemma set_add_In x y s : In y (set_add x s) <-> y = x \/ In y s.
Proof.
  unfold set_add. destruct (str_in x s) eqn:E.
  - apply str_in_In in E. split; [ auto | intros [-> | H]; auto ].
  - rewrite in_app_iff. cbn. split.
    + intros [H | [H | []]]; [ now right | now left ].
    + intros [H | H]; [ right; left; now symmetry | now left ].
Qed.

Lemma set_add_NoDup x s : NoDup s -> NoDup (set_add x s).
Proof.
  intros H. unfold set_add. destruct (str_in x s) eqn:E; [ assumption | ].
  apply str_in_false in E.
  apply NoDup_rev in H. rewrite <- (rev_involutive (s ++ [x])).
  apply NoDup_rev. rewrite rev_app_distr. cbn.
  constructor; [ now rewrite <- in_rev | assumption ].
Qed.

Lemma fold_set_add_In l : forall s y,
  In y (fold_left (fun s x => set_add x s) l s) <-> In y s \/ In y l.
Proof.
  induction l as [|x l IH]; intros s y; cbn.
  - split; [ auto | intros [H | []]; exact H ].
  - rewrite IH, set_add_In.
    split; [ intros [[-> | H] | H] | intros [H | [-> | H]] ]; auto.
Qed.

Lemma fold_set_add_NoDup l : forall s,
  NoDup s -> NoDup (fold_left (fun s x => set_add x s) l s).
Proof.
  induction l as [|x l IH]; intros s H; cbn; [ assumption | ].
  apply IH, set_add_NoDup, H.
Qed.

Lemma set_of_In l y : In y (set_of l) <-> In y l.
Proof.
  unfold set_of. rewrite fold_set_add_In. cbn.
  split; [ intros [[] | H]; exact H | auto ].
Qed.

Lemma set_of_NoDup l : NoDup (set_of l).
Proof. apply fold_set_add_NoDup. constructor. Qed.

Lemma fold_set_add_fresh l : forall s,
  NoDup (s ++ l) -> fold_left (fun s x => set_add x s) l s = s ++ l.
Proof.
  induction l as [|x l IH]; intros s H; cbn.
  - now rewrite app_nil_r.
  - assert (~ In x s) as Hx.
    { intros Hin. apply NoDup_remove_2 in H. apply H.
      apply in_or_app. now left. }
    unfold set_add at 2. apply str_in_false in Hx. rewrite Hx.
    rewrite IH; rewrite <- app_assoc; [ reflexivity | exact H ].
Qed.

Lemma dict_keys_set d k v : dict_keys (dict_set d k v) = set_add k (dict_keys d).
Proof.
  unfold set_add, str_in.
  induction d as [|[k' v'] r IH]; cbn; [ reflexivity | ].
  rewrite (String.eqb_sym k k').
  destruct (String.eqb k' k); cbn; [ reflexivity | ].
  fold (dict_keys (dict_set r k v)) (dict_keys r). rewrite IH.
  now destruct (existsb (String.eqb k) (dict_keys r)).
Qed.

Lemma dict_set_fresh d k v :
  ~ In k (dict_keys d) -> dict_set d k v = d ++ [(k, v)].
Proof.
  induction d as [|[k' v'] r IH]; cbn; intros H; [ reflexivity | ].
  destruct (String.eqb_spec k' k) as [E|E]; [ exfalso; apply H; now left | ].
  rewrite IH; [ reflexivity | intros Hin; apply H; now right ].
Qed.

Lemma fold_dict_set_fresh items : forall d,
  NoDup (dict_keys d ++ map fst items) ->
  fold_left (fun d kv => dict_set d (fst kv) (snd kv)) items d = d ++ items.
Proof.
  induction items as [|[k v] items IH]; intros d H; cbn.
  - now rewrite app_nil_r.
  - cbn in H. rewrite dict_set_fresh.
    + rewrite IH.
      * now rewrite <- app_assoc.
      * unfold dict_keys in *. rewrite map_app, <- app_assoc. exact H.
    + intros Hin. apply NoDup_remove_2 in H. apply H.
      apply in_or_app. now left.
Qed.

Lemma dict_of_items_fresh items :
  NoDup (map fst items) -> dict_of_items items = items.
Proof. intros H. unfold dict_of_items. now rewrite fold_dict_set_fresh. Qed.

Lemma append_inj_l p a b : append p a = append p b -> a = b.
Proof. induction p; cbn; [ auto | intros H; injection H; auto ]. Qed.

Lemma NoDup_FEATURE_NAMES : NoDup FEATURE_NAMES.
Proof.
  replace FEATURE_NAMES with (nodup string_dec FEATURE_NAMES) by reflexivity.
  apply NoDup_nodup.
Qed.

Lemma NoDup_prefixed p : NoDup (map (append p) FEATURE_NAMES).
Proof.
  apply Injective_map_NoDup; [ | apply NoDup_FEATURE_NAMES ].
  intros a b. apply append_inj_l.
Qed.

(* --------------------------------------------------------------- *)
(** *** Dict displays *)

Lemma dict_display_keys entries : forall d w record w',
  dict_display entries d w = (Ok record, w') ->
  dict_keys record =
    fold_left (fun s k => set_add k s) (map fst entries) (dict_keys d).
Proof.
  induction entries as [|[k m] rest IH]; intros d w record w' H; cbn in *.
  - unfold ret in H. congruence.
  - unfold bind in H. destruct (m w) as [[v|e] w1]; [ | discriminate ].
    apply IH in H. now rewrite H, dict_keys_set.
Qed.

Lemma dict_display_app es1 : forall es2 d w,
  dict_display (es1 ++ es2) d w =
    bind (dict_display es1 d) (fun d' => dict_display es2 d') w.
Proof.
  induction es1 as [|[k m] es1 IH]; intros es2 d w; cbn.
  - reflexivity.
  - unfold bind. destruct (m w) as [[v|e] w1]; [ | reflexivity ].
    rewrite IH. reflexivity.
Qed.

Lemma succeeds_dict_display entries :
  Forall (fun e => succeeds (snd e)) entries ->
  forall d, succeeds (dict_display entries d).
Proof.
  induction 1 as [|[k m] rest Hm _ IH]; intros d; cbn.
  - apply succeeds_ret.
  - apply succeeds_bind; [ exact Hm | intros v; apply IH ].
Qed.

(** A display whose entries cannot fail, one apart: the entries before
    it are computed, then the outcome of that one decides. *)
Lemma dict_display_middle es1 k (m : M number) es2 d w :
  Forall (fun e => succeeds (snd e)) es1 ->
  exists d1 w1,
    _language_tool (mods w1) = _language_tool (mods w) /\
    service_calls w1 = service_calls w /\
    dict_display (es1 ++ (k, m) :: es2) d w =
      match m w1 with
      | (Ok v, w2) => dict_display es2 (dict_set d1 k v) w2
      | (Raise e, w2) => (Raise e, w2)
      end.
Proof.
  intros H1.
  destruct (succeeds_dict_display es1 H1 d w) as (d1 & w1 & E & Ht & Hc).
  exists d1, w1. repeat split; try assumption.
  rewrite dict_display_app. unfold bind at 1. rewrite E. reflexivity.
Qed.

Lemma tool_in_use_same (w w1 : world Match) :
  _language_tool (mods w1) = _language_tool (mods w) ->
  tool_in_use w1 = tool_in_use w.
Proof. unfold tool_in_use. now intros ->. Qed.

Lemma error_count_short text w :
  len text < 10 -> error_count text w = (Ok 0, w).
Proof.
  intros H. unfold error_count.
  apply Z.ltb_lt in H. rewrite H, orb_true_r. reflexivity.
Qed.

Lemma truthy_str s : s <> "" -> truthy (PyStr s) = Ok true.
Proof.
  intros H. cbn. destruct (String.eqb_spec s ""); [ contradiction | reflexivity ].
Qed.

(** A display that asks [error_count] once, among entries that cannot
    fail, followed by a step that cannot fail: it gives a result unless
    the text has 10 characters or more and the grammar checker in use
    fails on it; then the failure of the checker comes out, after the
    one call that met it. *)
Lemma display_with_error_count es1 es2 s (k : dict -> M dict) w :
  Forall (fun e => succeeds (snd e)) es1 ->
  Forall (fun e => succeeds (snd e)) es2 ->
  (forall d, succeeds (k d)) ->
  let run :=
    bind (dict_display
            (es1 ++ ("error_count", int_of (error_count s)) :: es2) []) k w in
  match tool_in_use w s with
  | Raise e =>
      if len s <? 10
      then exists record w', run = (Ok record, w')
      else exists w', run = (Raise e, w') /\
                      service_calls w' = s :: service_calls w
  | Ok _ => exists record w', run = (Ok record, w')
  end.
Proof.
  intros H1 H2 Hk run.
  assert (forall d w0, exists record w',
            bind (dict_display es2 d) k w0 = (Ok record, w')) as Hrest.
  { intros d w0.
    destruct (succeeds_bind _ k (succeeds_dict_display es2 H2 d) Hk w0)
      as (a & w' & E & _).
    now exists a, w'. }
  destruct (dict_display_middle es1 "error_count" (int_of (error_count s))
                                es2 [] w H1) as (d1 & w1 & Ht & Hc & E).
  assert (run =
          match error_count s w1 with
          | (Ok z, w2) =>
              bind (dict_display es2 (dict_set d1 "error_count" (Int z))) k w2
          | (Raise e, w2) => (Raise e, w2)
          end) as ->.
  { subst run. unfold bind at 1. rewrite E. unfold int_of, bind, ret.
    destruct (error_count s w1) as [[z|e] w2]; reflexivity. }
  destruct (Z.ltb_spec (len s) 10) as [Hlen|Hlen].
  - rewrite (error_count_short s w1 Hlen).
    destruct (tool_in_use w s); apply Hrest.
  - rewrite (error_count_long s w1 Hlen), (tool_in_use_same w w1 Ht).
    destruct (tool_in_use w s) as [matches|e]; [ apply Hrest | ].
    eexists. split; [ reflexivity | ]. cbn. now rewrite Hc.
Qed.

(** The shape of [extract] on a string that is not empty. *)
Lemma extract_str self s w :
  s <> "" ->
  exists es1 es2 k,
    Forall (fun e => succeeds (snd e)) es1 /\
    Forall (fun e => succeeds (snd e)) es2 /\
    (forall d, succeeds (k d)) /\
    map fst es1 ++ "error_count" :: map fst es2 = FEATURE_NAMES /\
    (forall features,
       k features =
       if negb (String.eqb (prefix self) "")
       then ret (dict_of_items
                   (map (fun kv => (append (prefix self) (fst kv), snd kv))
                        features))
       else ret features) /\
    extract self (PyStr s) w =
      bind (dict_display
              (es1 ++ ("error_count", int_of (error_count s)) :: es2) []) k w.
Proof.
  intros Hs. unfold extract. rewrite (truthy_str s Hs).
  cbn [negb orb isinstance_str].
  match goal with
  | |- context [dict_display ?l []] =>
      exists (firstn 9 l), (skipn 10 l)
  end.
  eexists. cbn [firstn skipn].
  split; [ repeat constructor; cbn [snd]; total | ].
  split; [ repeat constructor; cbn [snd]; total | ].
  split; [ | split; [ reflexivity | split; [ intros; reflexivity | reflexivity ] ] ].
  intros d. cbv beta. destruct (negb _); apply succeeds_ret.
Qed.

Lemma extract_str_outcome self s w :
  s <> "" ->
  match tool_in_use w s with
  | Raise e =>
      if len s <? 10
      then exists record w', extract self (PyStr s) w = (Ok record, w')
      else exists w', extract self (PyStr s) w = (Raise e, w') /\
                      service_calls w' = s :: service_calls w
  | Ok _ => exists record w', extract self (PyStr s) w = (Ok record, w')
  end.
Proof.
  intros Hs.
  destruct (extract_str self s w Hs) as (es1 & es2 & k & H1 & H2 & Hk & _ & _ & ->).
  apply display_with_error_count; assumption.
Qed.

Lemma proper_text text :
  truthy text = Ok true -> isinstance_str text = true ->
  exists s, text = PyStr s /\ s <> "".
Proof.
  destruct text; cbn; try discriminate. intros H _. exists s. split; [ reflexivity | ].
  intros ->. discriminate.
Qed.

Lemma extract_degenerate self text w :
  degenerate text ->
  extract self text w =
    (Ok (map (fun name => (append (prefix self) name, Int 0)) FEATURE_NAMES), w).
Proof.
  intros H. unfold extract.
  assert (exists truth, truthy text = Ok truth /\
                        negb truth || negb (isinstance_str text) = true)
    as (truth & -> & ->).
  { destruct H as [H | [H Hi]]; rewrite H; eexists; (split; [ reflexivity | ]).
    - reflexivity.
    - rewrite Hi. reflexivity. }
  unfold ret. rewrite dict_of_items_fresh; [ reflexivity | ].
  rewrite map_map. cbn [fst]. apply NoDup_prefixed.
Qed.

(** What [text.__bool__] raises comes out of [extract], before any
    feature is computed. *)
Lemma extract_truth_raises self text w e :
  truthy text = Raise e -> extract self text w = (Raise e, w).
Proof. intros H. unfold extract. now rewrite H. Qed.

(** The three cases of the guard. *)
Lemma guard_cases text :
  (exists e, truthy text = Raise e) \/
  degenerate text \/
  (exists s, text = PyStr s /\ s <> "").
Proof.
  destruct (truthy text) as [[|]|e] eqn:Ht.
  - destruct (isinstance_str text) eqn:Hi.
    + right. right. now apply proper_text.
    + right. left. now right.
  - right. left. now left.
  - left. now exists e.
Qed.

Lemma prefixed_keys p (features : dict) :
  map fst (map (fun kv : string * number => (append p (fst kv), snd kv)) features)
  = map (append p) (dict_keys features).
Proof. unfold dict_keys. now rewrite !map_map. Qed.

(** The keys of a record that [extract] returns for a proper text. *)
Lemma extract_str_keys self s w record :
  s <> "" ->
  fst (extract self (PyStr s) w) = Ok record ->
  dict_keys record = map (append (prefix self)) FEATURE_NAMES.
Proof.
  intros Hs H.
  destruct (extract_str self s w Hs)
    as (es1 & es2 & k & _ & _ & _ & Hn & Hk & E).
  rewrite E in H. clear E. unfold bind in H.
  destruct (dict_display _ [] w) as [[features|e] w1] eqn:D; [ | discriminate ].
  apply dict_display_keys in D.
  rewrite map_app in D. cbn [map fst dict_keys] in D. rewrite Hn in D.
  rewrite (fold_set_add_fresh FEATURE_NAMES [] NoDup_FEATURE_NAMES) in D.
  cbn [app] in D.
  rewrite Hk in H. destruct (String.eqb_spec (prefix self) "") as [Ep|Ep];
    cbn [negb ret fst] in H; injection H as <-.
  - rewrite Ep, D. symmetry. apply map_id.
  - rewrite dict_of_items_fresh; rewrite prefixed_keys, D;
      [ reflexivity | apply NoDup_prefixed ].
Qed.

(** The keys of any record that [extract] returns. *)
Lemma extract_keys self text w record :
  fst (extract self text w) = Ok record ->
  dict_keys record = map (append (prefix self)) FEATURE_NAMES.
Proof.
  intros H.
  destruct (guard_cases text) as [(e & Ht) | [Hd | (s & -> & Hs)]].
  - rewrite (extract_truth_raises self text w e Ht) in H. discriminate.
  - rewrite (extract_degenerate self text w Hd) in H.
    cbn [fst] in H. injection H as <-. reflexivity.
  - now apply (extract_str_keys self s w).
Qed.


(* --------------------------------------------------------------- *)
(** *** The T-unit segmenter *)

Lemma zsum_from l : forall a, fold_left Z.add l a = a + zsum l.
Proof.
  unfold zsum. induction l as [|x l IH]; intros a; cbn.
  - lia.
  - rewrite IH, (IH x). lia.
Qed.

Lemma zsum_cons x l : zsum (x :: l) = x + zsum l.
Proof. unfold zsum at 1. cbn. apply zsum_from. Qed.

Lemma zsum_app l1 l2 : zsum (l1 ++ l2) = zsum l1 + zsum l2.
Proof.
  induction l1 as [|x l1 IH]; cbn [app].
  - reflexivity.
  - rewrite !zsum_cons, IH. lia.
Qed.

Lemma llen_app {A} (l1 l2 : list A) : llen (l1 ++ l2) = llen l1 + llen l2.
Proof. unfold llen. rewrite length_app. lia. Qed.

Lemma zsum_llen_concat {A} (units : list (list A)) :
  zsum (map llen units) = llen (concat units).
Proof.
  induction units as [|u units IH]; cbn [map concat].
  - reflexivity.
  - rewrite zsum_cons, llen_app, IH. reflexivity.
Qed.

(** The inner loop appends to [t_unit_lengths] the lengths of the
    T-units it closes, and keeps the open one in [current_t_unit]. *)
Lemma token_loop_lengths doc sent : forall st,
  let st' := fold_left (token_step doc) sent st in
  t_unit_lengths st'
    ++ match current_t_unit st' with [] => [] | c => [llen c] end
  = t_unit_lengths st
    ++ map llen (t_units_from doc (current_t_unit st) sent).
Proof.
  induction sent as [|token rest IH]; intros st; cbn zeta.
  - cbn. now destruct (current_t_unit st).
  - cbn [fold_left]. rewrite (IH (token_step doc st token)).
    unfold token_step. cbn [t_units_from].
    destruct (is_t_unit_boundary doc token); [ | reflexivity ].
    destruct (current_t_unit st ++ [token]) as [|t0 c] eqn:E; [ reflexivity | ].
    cbn [t_unit_lengths current_t_unit map]. now rewrite <- app_assoc.
Qed.

Lemma sent_step_lengths doc acc sent :
  fst (sent_step doc acc sent)
  = fst acc ++ map llen (t_units_of_sent doc sent).
Proof.
  unfold sent_step, t_units_of_sent.
  pose proof (token_loop_lengths doc sent (mkSeg (fst acc) (snd acc) [] 0)) as H.
  cbn zeta in H. cbn [t_unit_lengths current_t_unit] in H.
  rewrite <- H.
  destruct (current_t_unit _); [ now rewrite app_nil_r | reflexivity ].
Qed.

Lemma t_units_of_doc_lengths doc :
  fst (t_units_of_doc doc)
  = concat (map (fun sent => map llen (t_units_of_sent doc sent)) (sents doc)).
Proof.
  unfold t_units_of_doc.
  assert (forall l acc,
            fst (fold_left (sent_step doc) l acc)
            = fst acc
              ++ concat (map (fun sent => map llen (t_units_of_sent doc sent)) l))
    as H.
  { induction l as [|sent l IH]; intros acc; cbn.
    - now rewrite app_nil_r.
    - rewrite IH, sent_step_lengths. now rewrite <- app_assoc. }
  apply (H (sents doc) ([], 0)).
Qed.

Lemma t_units_from_concat doc sent : forall current,
  concat (t_units_from doc current sent) = current ++ sent.
Proof.
  induction sent as [|token rest IH]; intros current; cbn [t_units_from].
  - destruct current; cbn; now rewrite ?app_nil_r.
  - destruct (is_t_unit_boundary doc token).
    + destruct (current ++ [token]) as [|t0 c] eqn:E.
      * now destruct current.
      * cbn [concat]. rewrite IH, <- E, <- app_assoc. reflexivity.
    + rewrite IH, <- app_assoc. reflexivity.
Qed.

Lemma t_units_from_nonempty doc sent : forall current,
  Forall (fun u => u <> []) (t_units_from doc current sent).
Proof.
  induction sent as [|token rest IH]; intros current; cbn [t_units_from].
  - destruct current; repeat constructor. discriminate.
  - destruct (is_t_unit_boundary doc token); [ | apply IH ].
    destruct (current ++ [token]) as [|t0 c] eqn:E; [ apply IH | ].
    constructor; [ discriminate | apply IH ].
Qed.

(** At a boundary token the open T-unit is closed with the token as its
    last element, and what follows is segmented from scratch. *)
Lemma t_units_from_boundary doc token post : forall pre current,
  is_t_unit_boundary doc token = true ->
  exists units u,
    t_units_from doc current (pre ++ token :: post)
    = units ++ (u ++ [token]) :: t_units_from doc [] post.
Proof.
  intros pre. induction pre as [|p pre IH]; intros current Hb.
  - exists [], current. cbn [app t_units_from]. rewrite Hb.
    destruct (current ++ [token]) eqn:E; [ now destruct current | reflexivity ].
  - cbn [app t_units_from].
    destruct (is_t_unit_boundary doc p) eqn:Hp.
    + destruct (current ++ [p]) as [|t0 c] eqn:E; [ now destruct current | ].
      destruct (IH [] Hb) as (units & u & ->).
      now exists ((t0 :: c) :: units), u.
    + destruct (IH (current ++ [p]) Hb) as (units & u & ->).
      now exists units, u.
Qed.

(** A sentence is segmented at a boundary token as its part up to and
    including the token, followed by what comes after the token
    segmented from scratch. *)
Lemma t_units_from_split doc token post : forall pre current,
  is_t_unit_boundary doc token = true ->
  t_units_from doc current (pre ++ token :: post)
  = t_units_from doc current (pre ++ [token]) ++ t_units_from doc [] post.
Proof.
  intros pre. induction pre as [|p pre IH]; intros current Hb.
  - cbn [app t_units_from]. rewrite Hb.
    destruct (current ++ [token]) eqn:E; [ now destruct current | reflexivity ].
  - cbn [app t_units_from].
    destruct (is_t_unit_boundary doc p).
    + destruct (current ++ [p]) as [|t0 c] eqn:E; [ now destruct current | ].
      cbn [app]. now rewrite IH.
    + now apply IH.
Qed.

(** One turn of the inner loop at a boundary token: the open T-unit is
    closed with the token counted in it, and the next one starts
    empty. *)
Lemma token_step_boundary doc st token :
  is_t_unit_boundary doc token = true ->
  token_step doc st token
  = mkSeg (t_unit_lengths st ++ [llen (current_t_unit st) + 1])
          (dep_clause_count st
           + (if str_in (dep_ token) dep_clause_markers
              then sent_dep_clauses st + 1 else sent_dep_clauses st))
          [] 0.
Proof.
  intros Hb. unfold token_step. rewrite Hb.
  destruct (current_t_unit st ++ [token]) as [|t0 c] eqn:E;
    [ now destruct (current_t_unit st) | ].
  rewrite <- E. unfold llen. rewrite length_app. cbn [List.length].
  rewrite Nat2Z.inj_add. reflexivity.
Qed.

(* --------------------------------------------------------------- *)
(** *** The syllable estimator *)

(** C9: [count_syllables] returns at least 1 on every word, and exactly
    1 when the lower-cased, stripped word has at most 3 characters,
    whatever they are. *)
Theorem count_syllables_at_least_one :
  (forall word, 1 <= count_syllables word) /\
  (forall word, len (str_strip (str_lower word)) <= 3 ->
                count_syllables word = 1).
Proof.
  split; intros word; unfold count_syllables.
  - destruct (len (str_strip (str_lower word)) <=? 3); lia.
  - intros H. apply Z.leb_le in H. now rewrite H.
Qed.

(* --------------------------------------------------------------- *)
(** *** The grammar service *)

(** C7: on a text of fewer than 10 characters [error_count] returns 0
    and leaves the store as it found it: no call reaches the service
    and the checker is not even created. *)
Theorem error_count_short_circuit :
  forall (text : string) (w : world Match),
    len text < 10 -> error_count text w = (Ok 0, w).
Proof.
  intros text w H. unfold error_count.
  apply Z.ltb_lt in H. rewrite H, orb_true_r. reflexivity.
Qed.

(** C6, as the code has it: when the check of a text of 10 characters
    or more fails, [error_count] makes the one call and lets the failure
    out, and [extract] lets the same failure out: there is no retry, no
    zero in place of the count, and no record for the document. *)
Theorem service_failure_propagates :
  forall (self : FeatureExtractor) (text : string) (w : world Match) (e : exn),
    10 <= len text ->
    tool_in_use w text = Raise e ->
    (fst (error_count text w) = Raise e /\
     service_calls (snd (error_count text w)) = text :: service_calls w) /\
    (exists w', extract self (PyStr text) w = (Raise e, w') /\
                service_calls w' = text :: service_calls w).
Proof.
  intros self text w e Hlen Hfail. split.
  - rewrite (error_count_long text w Hlen), Hfail. split; reflexivity.
  - assert (text <> "") as Hs by (intros ->; cbn in Hlen; lia).
    pose proof (extract_str_outcome self text w Hs) as H.
    rewrite Hfail in H.
    destruct (Z.ltb_spec (len text) 10); [ lia | exact H ].
Qed.

(* --------------------------------------------------------------- *)
(** *** The record of [extract] *)



Lemma get_nlp_run w : fst (get_nlp w) = Ok (nlp_in_use w).
Proof. unfold get_nlp, nlp_in_use. now destruct (_nlp (mods w)). Qed.

Lemma num_t_units_run text w :
  num_t_units text w
  = (Ok (llen (fst (t_units_of_doc (nlp_in_use w text)))), snd (get_nlp w)).
Proof.
  unfold num_t_units, _extract_t_units, bind, ret, get_nlp, nlp_in_use.
  now destruct (_nlp (mods w)).
Qed.

Lemma t_units_of_sent_some doc sent :
  sent <> [] -> 1 <= llen (t_units_of_sent doc sent).
Proof.
  intros H. unfold t_units_of_sent.
  pose proof (t_units_from_concat doc sent []) as C.
  destruct (t_units_from doc [] sent); [ cbn in C; congruence | ].
  unfold llen. cbn. lia.
Qed.

Lemma nonempty_sents_le doc : nonempty_sents doc <= llen (fst (t_units_of_doc doc)).
Proof.
  rewrite t_units_of_doc_lengths. unfold nonempty_sents.
  induction (sents doc) as [|sent l IH]; cbn [filter map concat].
  - reflexivity.
  - rewrite llen_app. destruct sent as [|t0 sent].
    + cbn. unfold llen in *. lia.
    + pose proof (t_units_of_sent_some doc (t0 :: sent)) as H.
      unfold llen in *. rewrite length_map. cbn [List.length].
      rewrite Nat2Z.inj_succ. specialize (H ltac:(discriminate)). lia.
Qed.

Lemma t_units_of_doc_total doc :
  zsum (fst (t_units_of_doc doc)) = llen (doc_tokens doc).
Proof.
  rewrite t_units_of_doc_lengths. unfold doc_tokens.
  induction (sents doc) as [|sent l IH]; cbn [map concat].
  - reflexivity.
  - rewrite zsum_app, llen_app, IH, zsum_llen_concat.
    unfold t_units_of_sent. now rewrite t_units_from_concat.
Qed.

(** C2: the T-units that [_extract_t_units] closes for a sentence are a
    partition of its tokens, in order: the lengths appended to
    [t_unit_lengths] are those of consecutive pieces whose
    concatenation is the sentence, so that they add up to the number of
    tokens of the sentence; over a document they add up to the number
    of its tokens. *)
Theorem t_unit_partition :
  forall (doc : Doc) (sent : Span) (acc : list Z * Z),
    fst (sent_step doc acc sent)
      = fst acc ++ map llen (t_units_of_sent doc sent) /\
    concat (t_units_of_sent doc sent) = sent /\
    zsum (map llen (t_units_of_sent doc sent)) = llen sent /\
    zsum (fst (t_units_of_doc doc)) = llen (doc_tokens doc).
Proof.
  intros doc sent acc. split; [ apply sent_step_lengths | ].
  assert (concat (t_units_of_sent doc sent) = sent) as C
    by apply (t_units_from_concat doc sent []).
  split; [ exact C | ]. split; [ | apply t_units_of_doc_total ].
  now rewrite zsum_llen_concat, C.
Qed.

(** C10: every length that [_extract_t_units] appends is at least 1,
    and the lengths are those of the T-units of the sentences, which
    all hold a token. At a boundary token the inner loop closes the
    open T-unit with the token counted in it and starts the next one
    empty; so the lengths appended for a sentence are those of its part
    up to and including the boundary token, which account for each of
    these tokens once, followed by those of the rest segmented from
    scratch, and the boundary token is the last token of the T-unit it
    closes. A sentence with a token gives at least one T-unit; so
    [num_t_units] is at least the number of sentences that hold a
    token. *)
Theorem t_units_nonempty :
  forall (doc : Doc),
    Forall (fun n => 1 <= n) (fst (t_units_of_doc doc)) /\
    fst (t_units_of_doc doc)
    = concat (map (fun sent => map llen (t_units_of_sent doc sent))
                  (sents doc)) /\
    (forall sent, Forall (fun u => 1 <= llen u) (t_units_of_sent doc sent)) /\
    (forall st token,
        is_t_unit_boundary doc token = true ->
        token_step doc st token
        = mkSeg (t_unit_lengths st ++ [llen (current_t_unit st) + 1])
                (dep_clause_count st
                 + (if str_in (dep_ token) dep_clause_markers
                    then sent_dep_clauses st + 1 else sent_dep_clauses st))
                [] 0) /\
    (forall acc pre token post,
        is_t_unit_boundary doc token = true ->
        fst (sent_step doc acc (pre ++ token :: post))
        = fst (sent_step doc acc (pre ++ [token]))
          ++ fst (sent_step doc ([], 0) post) /\
        exists lengths n,
          fst (sent_step doc acc (pre ++ [token])) = fst acc ++ lengths ++ [n] /\
          zsum lengths + n = llen pre + 1 /\
          1 <= n) /\
    (forall pre token post,
        is_t_unit_boundary doc token = true ->
        exists units u,
          t_units_of_sent doc (pre ++ token :: post)
          = units ++ (u ++ [token]) :: t_units_of_sent doc post) /\
    (forall sent, sent <> [] -> 1 <= llen (t_units_of_sent doc sent)) /\
    nonempty_sents doc <= llen (fst (t_units_of_doc doc)) /\
    (forall text w,
        nlp_in_use w text = doc ->
        exists n, fst (num_t_units text w) = Ok n /\ nonempty_sents doc <= n).
Proof.
  intros doc.
  assert (forall sent, Forall (fun u => 1 <= llen u) (t_units_of_sent doc sent))
    as Hunits.
  { intros sent. eapply Forall_impl; [ | apply t_units_from_nonempty ].
    intros [|t0 u] H; [ congruence | ]. unfold llen. cbn [List.length]. lia. }
  split; [ | split; [ apply t_units_of_doc_lengths | ] ].
  { rewrite t_units_of_doc_lengths. apply Forall_concat, Forall_map.
    apply Forall_forall. intros sent _. apply Forall_map, Hunits. }
  split; [ exact Hunits | ].
  split; [ intros st token; apply token_step_boundary | ].
  split; [ | split; [ | split; [ | split ] ] ].
  - intros acc pre token post Hb. split.
    + rewrite !sent_step_lengths. unfold t_units_of_sent.
      rewrite (t_units_from_split doc token post pre [] Hb), map_app.
      cbn [fst app]. now rewrite app_assoc.
    + rewrite sent_step_lengths. unfold t_units_of_sent.
      destruct (t_units_from_boundary doc token [] pre [] Hb) as (units & u & E).
      pose proof (t_units_from_concat doc (pre ++ [token]) []) as C.
      rewrite E in *. cbn [t_units_from] in *.
      exists (map llen units), (llen (u ++ [token])).
      split; [ now rewrite map_app | ].
      assert (zsum (map llen (units ++ [u ++ [token]])) = llen (pre ++ [token]))
        as Hsum by (rewrite zsum_llen_concat, C; reflexivity).
      rewrite map_app, zsum_app in Hsum. cbn [map] in Hsum.
      rewrite (zsum_cons _ []) in Hsum. change (zsum []) with 0 in Hsum.
      rewrite !llen_app in *. change (llen [token]) with 1 in *.
      split; [ lia | ].
      unfold llen. lia.
  - intros pre token post Hb. apply t_units_from_boundary, Hb.
  - apply t_units_of_sent_some.
  - apply nonempty_sents_le.
  - intros text w <-. rewrite num_t_units_run. eexists.
    split; [ reflexivity | apply nonempty_sents_le ].
Qed.


(* --------------------------------------------------------------- *)
(** *** Sentence types *)

Lemma sentence_type_in sent : In (sentence_type sent) sentence_types.
Proof.
  unfold sentence_type, sentence_types.
  repeat match goal with
         | |- context [if ?b then _ else _] => destruct b
         end; cbn; auto 6.
Qed.

Lemma fold_set_add_map {A} (f : A -> string) l : forall s,
  fold_left (fun types x => set_add (f x) types) l s
  = fold_left (fun types y => set_add y types) (map f l) s.
Proof. induction l as [|x l IH]; intros s; cbn; [ reflexivity | apply IH ]. Qed.

(** The set that the loop of [sentence_type_diversity] builds has as
    many elements as there are types observed. *)
Lemma types_count sentences :
  llen (fold_left (fun types sent => set_add (sentence_type sent) types)
                  sentences [])
  = llen (types_observed sentences).
Proof.
  rewrite fold_set_add_map. fold (set_of (map sentence_type sentences)).
  unfold llen. f_equal. apply Permutation_length, NoDup_Permutation.
  - apply set_of_NoDup.
  - apply NoDup_filter.
    replace sentence_types with (nodup string_dec sentence_types) by reflexivity.
    apply NoDup_nodup.
  - intros ty. rewrite set_of_In, in_map_iff. unfold types_observed.
    rewrite filter_In, existsb_exists. split.
    + intros (s & <- & Hs). split; [ apply sentence_type_in | ].
      exists s. split; [ exact Hs | apply String.eqb_refl ].
    + intros (_ & s & Hs & E). apply String.eqb_eq in E. now exists s.
Qed.

Lemma types_observed_bound sentences :
  0 <= llen (types_observed sentences) <= 5.
Proof.
  unfold llen, types_observed. split; [ lia | ].
  pose proof (filter_length_le
                (fun ty => existsb (fun s => String.eqb (sentence_type s) ty)
                                   sentences) sentence_types) as H.
  cbn [sentence_types List.length] in H. lia.
Qed.

Lemma fifth_bounds k : 0 <= k <= 5 -> (0 <= inject_Z k / 5 <= 1)%Q.
Proof.
  intros H. unfold Qle, Qdiv, Qmult, Qinv, inject_Z. cbn. lia.
Qed.

(** C4: every sentence gets one of the five types, the first that
    applies in the order question, exclamation, complex, compound,
    simple; [sentence_type_diversity] is the number of types observed
    over 5, a value from 0 to 1; it is 0.0 without sentences and 0.2
    for a single question. *)
Theorem sentence_type_diversity_spec :
  (forall sent, In (sentence_type sent) sentence_types) /\
  (forall sent,
      let s := str_strip sent in
      let starts := existsb (fun w => startswith (str_lower s) w) complex_starters in
      let long_list := str_contains sent "," && (10 <? llen (word_tokenize sent)) in
      (endswith s "?" = true -> sentence_type sent = "question") /\
      (endswith s "?" = false -> endswith s "!" = true ->
       sentence_type sent = "exclamation") /\
      (endswith s "?" = false -> endswith s "!" = false -> starts = true ->
       sentence_type sent = "complex") /\
      (endswith s "?" = false -> endswith s "!" = false -> starts = false ->
       long_list = true -> sentence_type sent = "compound") /\
      (endswith s "?" = false -> endswith s "!" = false -> starts = false ->
       long_list = false -> sentence_type sent = "simple")) /\
  (forall text,
      (sentence_type_diversity text
       == inject_Z (llen (types_observed (sent_tokenize text))) / 5)%Q /\
      (0 <= sentence_type_diversity text <= 1)%Q) /\
  (forall text, sent_tokenize text = [] -> sentence_type_diversity text = 0%Q) /\
  (forall text sent,
      sent_tokenize text = [sent] ->
      endswith (str_strip sent) "?" = true ->
      (sentence_type_diversity text == 0.2)%Q).
Proof.
  split; [ apply sentence_type_in | ]. split; [ | split; [ | split ] ].
  - intros sent s starts long_list. unfold sentence_type.
    fold s. fold starts. fold long_list.
    repeat split; intros; 
      repeat match goal with H : _ = _ |- _ => rewrite H; clear H end;
      reflexivity.
  - intros text.
    assert (sentence_type_diversity text
            == inject_Z (llen (types_observed (sent_tokenize text))) / 5)%Q as E.
    { unfold sentence_type_diversity.
      destruct (sent_tokenize text) as [|s0 l] eqn:Es; [ reflexivity | ].
      rewrite types_count. reflexivity. }
    split; [ exact E | ]. rewrite E. apply fifth_bounds, types_observed_bound.
  - intros text H. unfold sentence_type_diversity. now rewrite H.
  - intros text sent H Hq. unfold sentence_type_diversity. rewrite H.
    cbn [fold_left]. unfold sentence_type. rewrite Hq. reflexivity.
Qed.


(* --------------------------------------------------------------- *)
(** *** The composite scorer *)

Lemma Qltb_lt a b : Qltb a b = true <-> (a < b)%Q.
Proof.
  unfold Qltb. rewrite negb_true_iff, <- not_true_iff_false, Qle_bool_iff.
  split; [ apply Qnot_le_lt | apply Qlt_not_le ].
Qed.

Lemma Qltb_ge a b : Qltb a b = false <-> (b <= a)%Q.
Proof.
  unfold Qltb. rewrite negb_false_iff. apply Qle_bool_iff.
Qed.

(** [min(1.0, max(0.0, x))] is [clamp(x, 0, 1)]. *)
Lemma min_max_clamp x : (py_min 1 (py_max 0 x) == clamp x 0 1)%Q.
Proof.
  unfold py_min, py_max, clamp.
  destruct (Qltb 0 x) eqn:E0; destruct (Qltb x 0) eqn:E1;
    destruct (Qltb x 1) eqn:E2; destruct (Qltb 1 x) eqn:E3;
    try destruct (Qltb 0 1) eqn:E4;
    rewrite ?Qltb_lt, ?Qltb_ge in *; lra.
Qed.

(** C3: [text_ease] is the weighted sum of its five components with
    the weights 0.25, 0.25, 0.20, 0.15 and 0.15, the third component
    being the constant 0.5 and the first the grade ease
    1 - clamp((FK grade - 3) / 15, 0, 1); the sum is returned as it
    is. *)
Theorem text_ease_weighted_sum :
  forall (text : string) (w : world Match),
  exists (ref_coh : Q) (w' : world Match),
    referential_cohesion text w = (Ok ref_coh, w') /\
    exists score : Q,
      text_ease text w = (Ok score, w') /\
      (score == 0.25 * grade_ease text
                + 0.25 * syntactic_simplicity text
                + 0.20 * 0.5
                + 0.15 * ref_coh
                + 0.15 * deep_cohesion text)%Q.
Proof.
  intros text w.
  destruct (succeeds_referential_cohesion text w) as (ref_coh & w' & E & _).
  exists ref_coh, w'. split; [ exact E | ].
  unfold text_ease, bind. rewrite E. eexists. split; [ reflexivity | ].
  unfold qsum, weights, grade_ease. cbn [combine map fold_left fst snd].
  rewrite min_max_clamp. ring.
Qed.


(* --------------------------------------------------------------- *)
(** *** Connectives *)

Lemma count_from_occurrences sub s : forall skip at_,
  count_from sub s skip = llen (occurrences_from sub s skip at_).
Proof.
  unfold llen. induction s as [|c r IH]; intros skip at_; cbn [count_from occurrences_from].
  - reflexivity.
  - destruct skip as [|k]; [ | apply IH ].
    destruct (String.prefix sub (String c r)); [ | apply IH ].
    cbn [List.length]. rewrite Nat2Z.inj_succ, (IH _ (S at_)). lia.
Qed.












(* --------------------------------------------------------------- *)
(** *** Hidden state *)

Lemma cache_le_refl {A} (a : A) c : cache_le a c c.
Proof. now left. Qed.

Lemma cache_le_trans {A} (a : A) c1 c2 c3 :
  cache_le a c1 c2 -> cache_le a c2 c3 -> cache_le a c1 c3.
Proof.
  unfold cache_le. intros [-> | [-> ->]] [-> | [E ->]]; auto; discriminate.
Qed.

Lemma cache_le_some {A} (a x : A) c : cache_le a (Some x) c -> c = Some x.
Proof. intros [-> | [E _]]; [ reflexivity | discriminate ]. Qed.

Lemma globals_le_refl g : globals_le g g.
Proof. repeat split; apply cache_le_refl. Qed.

Lemma globals_le_trans g1 g2 g3 :
  globals_le g1 g2 -> globals_le g2 g3 -> globals_le g1 g3.
Proof.
  intros (A1 & B1 & C1) (A2 & B2 & C2).
  repeat split; eapply cache_le_trans; eassumption.
Qed.

Lemma stable_ret {A} (a : A) : stable (ret a).
Proof.
  intros w. split; [ apply globals_le_refl | ]. intros w' _. now split.
Qed.

Lemma stable_raise {A} e : stable (@raise Match A e).
Proof.
  intros w. split; [ apply globals_le_refl | ]. intros w' _. now split.
Qed.

Lemma stable_bind {A B} (m : M A) (f : A -> M B) :
  stable m -> (forall a, stable (f a)) -> stable (bind m f).
Proof.
  intros Hm Hf w. unfold bind.
  destruct (Hm w) as [Hle Hm'].
  destruct (m w) as [[a|e] w1] eqn:E; cbn [fst snd] in *.
  - destruct (Hf a w1) as [Hle2 Hf'].
    split; [ eapply globals_le_trans; eassumption | ].
    intros w' Hw'.
    destruct (Hm' w') as [E1 E2];
      [ eapply globals_le_trans; eassumption | ].
    destruct (m w') as [r w1']; cbn [fst snd] in *. subst r.
    destruct (Hf' w1') as [F1 F2]; [ now rewrite E2 | ].
    split; [ exact F1 | now rewrite F2 ].
  - split; [ exact Hle | ]. intros w' Hw'.
    destruct (Hm' w' Hw') as [E1 E2].
    destruct (m w') as [r w1']; cbn [fst snd] in *. now subst r.
Qed.

Lemma stable_get_nlp : stable get_nlp.
Proof.
  intros w. unfold get_nlp. destruct (_nlp (mods w)) as [nlp|] eqn:E; cbn [fst snd mods].
  - split; [ apply globals_le_refl | ]. intros w' (H & _).
    rewrite E in H. apply cache_le_some in H. now rewrite H.
  - split.
    + repeat split; cbn; try apply cache_le_refl. rewrite E. now right.
    + intros w' (H & _). cbn in H. apply cache_le_some in H. now rewrite H.
Qed.

Lemma stable_get_stopwords : stable get_stopwords.
Proof.
  intros w. unfold get_stopwords.
  destruct (_stopwords (mods w)) as [sw|] eqn:E; cbn [fst snd mods].
  - split; [ apply globals_le_refl | ]. intros w' (_ & H & _).
    rewrite E in H. apply cache_le_some in H. now rewrite H.
  - split.
    + repeat split; cbn; try apply cache_le_refl. rewrite E. now right.
    + intros w' (_ & H & _). cbn in H. apply cache_le_some in H. now rewrite H.
Qed.

Lemma stable__get_language_tool : stable _get_language_tool.
Proof.
  intros w. unfold _get_language_tool.
  destruct (_language_tool (mods w)) as [tool|] eqn:E; cbn [fst snd mods].
  - split; [ apply globals_le_refl | ]. intros w' (_ & _ & H).
    rewrite E in H. apply cache_le_some in H. now rewrite H.
  - split.
    + repeat split; cbn; try apply cache_le_refl. rewrite E. now right.
    + intros w' (_ & _ & H). cbn in H. apply cache_le_some in H. now rewrite H.
Qed.

Lemma stable_check tool text : stable (check tool text).
Proof.
  intros w. unfold check. cbn [fst snd mods].
  split; [ apply globals_le_refl | ]. intros w' _. now split.
Qed.

Lemma stable_match_list {A B} (l : list A) (m1 m2 : M B) :
  stable m1 -> stable m2 ->
  stable (match l with [] => m1 | _ :: _ => m2 end).
Proof. destruct l; auto. Qed.

Lemma stable_if {A} (b : bool) (m1 m2 : M A) :
  stable m1 -> stable m2 -> stable (if b then m1 else m2).
Proof. destruct b; auto. Qed.

Create HintDb py_stable.
#[local] Hint Resolve stable_ret stable_raise stable_get_nlp
  stable_get_stopwords stable__get_language_tool stable_check : py_stable.
#[local] Hint Extern 2 (stable (bind _ _)) =>
  apply stable_bind; [ | intros ? ] : py_stable.
#[local] Hint Extern 2 (stable (match ?l with [] => _ | _ :: _ => _ end)) =>
  apply stable_match_list : py_stable.
#[local] Hint Extern 2 (stable (if _ then _ else _)) =>
  apply stable_if : py_stable.

Ltac settle := unfold int_, float_, int_of, float_of; auto 12 with py_stable.

Lemma stable_vocabulary_sophistication text :
  stable (vocabulary_sophistication text).
Proof. unfold vocabulary_sophistication. settle. Qed.

Lemma stable_polysemy_word text : stable (polysemy_word text).
Proof. unfold polysemy_word. settle. Qed.

Lemma stable_information_density text : stable (information_density text).
Proof. unfold information_density. settle. Qed.

Lemma stable_error_count text : stable (error_count text).
Proof. unfold error_count. settle. Qed.

Lemma stable_context_sensitive_count text :
  stable (context_sensitive_count text).
Proof. unfold context_sensitive_count. settle. Qed.

Lemma stable_referential_cohesion text : stable (referential_cohesion text).
Proof. unfold referential_cohesion. settle. Qed.

Lemma stable_text_ease text : stable (text_ease text).
Proof.
  unfold text_ease. apply stable_bind;
    [ apply stable_referential_cohesion | intros; settle ].
Qed.

Lemma stable__extract_t_units text : stable (_extract_t_units text).
Proof. unfold _extract_t_units. settle. Qed.

Lemma stable_num_t_units text : stable (num_t_units text).
Proof.
  unfold num_t_units. apply stable_bind;
    [ apply stable__extract_t_units | intros; settle ].
Qed.

Lemma stable_mean_length_t_unit text : stable (mean_length_t_unit text).
Proof.
  unfold mean_length_t_unit. apply stable_bind;
    [ apply stable__extract_t_units | intros; settle ].
Qed.

Lemma stable_dependent_clauses_per_t_unit text :
  stable (dependent_clauses_per_t_unit text).
Proof.
  unfold dependent_clauses_per_t_unit. apply stable_bind;
    [ apply stable__extract_t_units | intros; settle ].
Qed.

#[local] Hint Resolve stable_vocabulary_sophistication stable_polysemy_word
  stable_information_density stable_error_count
  stable_context_sensitive_count stable_referential_cohesion
  stable_text_ease stable_num_t_units stable_mean_length_t_unit
  stable_dependent_clauses_per_t_unit : py_stable.

Lemma stable_dict_display entries :
  Forall (fun e => stable (snd e)) entries ->
  forall d, stable (dict_display entries d).
Proof.
  induction 1 as [|[k m] rest Hm _ IH]; intros d; cbn.
  - apply stable_ret.
  - apply stable_bind; [ exact Hm | intros v; apply IH ].
Qed.

Lemma stable_extract self text : stable (extract self text).
Proof.
  unfold extract. destruct (truthy text) as [truth|e]; [ | apply stable_raise ].
  apply stable_if; [ apply stable_ret | ].
  destruct text; try apply stable_raise.
  apply stable_bind.
  - apply stable_dict_display.
    repeat (apply Forall_cons; [ cbn [snd]; settle | ]). apply Forall_nil.
  - intros features. settle.
Qed.

Lemma stable_extract_results self texts : stable (extract_results self texts).
Proof.
  induction texts as [|text rest IH]; cbn; [ apply stable_ret | ].
  apply stable_bind; [ apply stable_extract | intros d ].
  apply stable_bind; [ exact IH | intros ds; apply stable_ret ].
Qed.

Lemma stable_extract_batch self texts : stable (extract_batch self texts).
Proof.
  apply stable_bind; [ apply stable_extract_results | ].
  intros results. apply stable_ret.
Qed.

(** C8: a second call of [extract] on the same text gives the outcome
    of the first one, and leaves the module globals as the first call
    left them: once a cache is filled nothing writes to it, and what is
    cached is what a fresh load returns. The same holds for a batch. *)
Theorem extract_idempotent :
  forall (self : FeatureExtractor) (text : pyobj) (w : world Match),
    let first := extract self text w in
    let second := extract self text (snd first) in
    fst second = fst first /\
    mods (snd second) = mods (snd first) /\
    globals_le (mods w) (mods (snd first)) /\
    forall texts,
      let batch1 := extract_batch self texts w in
      let batch2 := extract_batch self texts (snd batch1) in
      fst batch2 = fst batch1 /\ mods (snd batch2) = mods (snd batch1).
Proof.
  intros self text w first second.
  destruct (stable_extract self text w) as [Hle H].
  destruct (H (snd first) (globals_le_refl _)) as [E1 E2].
  split; [ exact E1 | split; [ exact E2 | split; [ exact Hle | ] ] ].
  intros texts batch1 batch2.
  destruct (stable_extract_batch self texts w) as [_ Hb].
  apply (Hb _ (globals_le_refl _)).
Qed.


(* --------------------------------------------------------------- *)
(** *** Counting and ratios *)

Lemma true_div_nonneg a b : 0 <= a -> 0 <= b -> (0 <= true_div a b)%Q.
Proof.
  intros Ha Hb. unfold true_div, Qdiv, Qmult, Qinv, inject_Z, Qle.
  destruct b; cbn; lia.
Qed.

Lemma true_div_le_1 a b : 0 <= a <= b -> (true_div a b <= 1)%Q.
Proof.
  intros H. unfold true_div, Qdiv, Qmult, Qinv, inject_Z, Qle.
  destruct b; cbn; lia.
Qed.

Lemma true_div_ge_1 a b : 0 < b <= a -> (1 <= true_div a b)%Q.
Proof.
  intros H. unfold true_div, Qdiv, Qmult, Qinv, inject_Z, Qle.
  destruct b; cbn; lia.
Qed.

Lemma true_div_pos a b : 0 < a -> 0 < b -> (0 < true_div a b)%Q.
Proof.
  intros Ha Hb. unfold true_div, Qdiv, Qmult, Qinv, inject_Z, Qlt.
  destruct b; cbn; lia.
Qed.

Lemma llen_nonneg {A} (l : list A) : 0 <= llen l.
Proof. unfold llen. lia. Qed.

Lemma llen_cons {A} (x : A) l : llen (x :: l) = 1 + llen l.
Proof. unfold llen. cbn [List.length]. lia. Qed.

Lemma llen_filter_le {A} (p : A -> bool) l : llen (filter p l) <= llen l.
Proof. unfold llen. pose proof (filter_length_le p l). lia. Qed.

(** A loop that adds one for every element that passes a test counts
    those elements. *)
Lemma count_fold {A} (p : A -> bool) l : forall c,
  fold_left (fun count x => if p x then count + 1 else count) l c
  = c + llen (filter p l).
Proof.
  induction l as [|x l IH]; intros c; cbn [fold_left filter].
  - unfold llen. cbn. lia.
  - rewrite IH. destruct (p x); [ rewrite llen_cons | ]; lia.
Qed.

Lemma filter_implies_le {A} (p q : A -> bool) l :
  (forall x, p x = true -> q x = true) ->
  llen (filter p l) <= llen (filter q l).
Proof.
  intros H. induction l as [|x l IH]; cbn [filter]; [ lia | ].
  destruct (p x) eqn:P.
  - rewrite (H x P), !llen_cons. lia.
  - destruct (q x); [ rewrite llen_cons | ]; lia.
Qed.

(* --------------------------------------------------------------- *)
(** *** Syllables and grade level *)

Lemma count_syllables_ge_1 word : 1 <= count_syllables word.
Proof.
  unfold count_syllables.
  destruct (len (str_strip (str_lower word)) <=? 3); lia.
Qed.

Lemma vowel_groups_bounds word : forall prev count,
  count <= vowel_groups word prev count /\
  2 * vowel_groups word prev count
  <= 2 * count + len word + (if prev then 0 else 1).
Proof.
  unfold len.
  induction word as [|c r IH]; intros prev count; cbn [vowel_groups String.length].
  - destruct prev; lia.
  - rewrite Nat2Z.inj_succ.
    destruct (char_in c vowels), prev; cbn [andb negb].
    + pose proof (IH true count) as H. cbv iota in H. lia.
    + pose proof (IH true (count + 1)) as H. cbv iota in H. lia.
    + pose proof (IH false count) as H. cbv iota in H. lia.
    + pose proof (IH false count) as H. cbv iota in H. lia.
Qed.

(** X1: a word has at most one syllable for every two characters,
    rounded up: twice the estimate is at most the length of the
    lower-cased, stripped word plus one, words of at most three
    characters apart, which count for one. *)
Theorem count_syllables_upper_bound :
  forall word,
    2 * count_syllables word
    <= Z.max 2 (len (str_strip (str_lower word)) + 1).
Proof.
  intros word. unfold count_syllables.
  set (w := str_strip (str_lower word)).
  destruct (len w <=? 3); [ lia | ].
  pose proof (vowel_groups_bounds w false 0) as [H0 H1].
  destruct (endswith w "e" && (1 <? vowel_groups w false 0)); lia.
Qed.

Lemma zsum_ge_llen (f : string -> Z) l :
  (forall x, 1 <= f x) -> llen l <= zsum (map f l).
Proof.
  intros H. induction l as [|x l IH]; cbn [map].
  - reflexivity.
  - rewrite zsum_cons, llen_cons. specialize (H x). lia.
Qed.

Lemma py_max_0_nonneg x : (0 <= py_max 0 x)%Q.
Proof.
  unfold py_max. destruct (Qltb 0 x) eqn:E; [ | apply Qle_refl ].
  apply Qltb_lt in E. now apply Qlt_le_weak.
Qed.

Lemma py_max_ge x y : (y <= py_max x y)%Q.
Proof.
  unfold py_max. destruct (Qltb x y) eqn:E; [ apply Qle_refl | ].
  now apply Qltb_ge in E.
Qed.

Lemma zsum_all_ones (f : string -> Z) l :
  Forall (fun x => f x = 1) l -> zsum (map f l) = llen l.
Proof.
  induction 1 as [|x l Hx _ IH]; [ reflexivity | ].
  cbn [map]. rewrite zsum_cons, llen_cons, Hx, IH. reflexivity.
Qed.

(** X2: the grade level is never negative; it is 0.0 for a text without
    a sentence or without an alphabetic word, and also for a text whose
    alphabetic words all count one syllable and number at most nine for
    each sentence. *)
Theorem flesch_kincaid_bounds :
  forall text,
    (0 <= flesch_kincaid_grade_level text)%Q /\
    (sent_tokenize text = [] \/ word_count text = 0 ->
     flesch_kincaid_grade_level text = 0%Q) /\
    (Forall (fun word => count_syllables word = 1)
            (filter str_isalpha (word_tokenize text)) ->
     word_count text <= 9 * llen (sent_tokenize text) ->
     flesch_kincaid_grade_level text = 0%Q).
Proof.
  intros text. unfold flesch_kincaid_grade_level, word_count.
  set (words := filter str_isalpha (word_tokenize text)).
  split; [ | split ].
  - destruct (sent_tokenize text), words; try apply Qle_refl.
    apply py_max_0_nonneg.
  - intros [-> | H]; [ reflexivity | ].
    destruct words; [ now destruct (sent_tokenize text) | ].
    rewrite llen_cons in H. pose proof (llen_nonneg words). lia.
  - intros Hone Hnine.
    destruct (sent_tokenize text) as [|s0 ss]; [ reflexivity | ].
    destruct words as [|w0 ws] eqn:Ew; [ reflexivity | ].
    rewrite (zsum_all_ones count_syllables (w0 :: ws) Hone).
    assert (0 < llen (w0 :: ws)) as Hw
      by (rewrite llen_cons; pose proof (llen_nonneg ws); lia).
    assert (0 < llen (s0 :: ss)) as Hs
      by (rewrite llen_cons; pose proof (llen_nonneg ss); lia).
    assert (true_div (llen (w0 :: ws)) (llen (w0 :: ws)) <= 1)%Q as H1
      by (apply true_div_le_1; lia).
    assert (true_div (llen (w0 :: ws)) (llen (s0 :: ss)) <= 9)%Q as H9.
    { unfold true_div. apply Qle_shift_div_r.
      - rewrite <- (Zlt_Qlt 0). exact Hs.
      - change 9%Q with (inject_Z 9). rewrite <- inject_Z_mult, <- Zle_Qle.
        exact Hnine. }
    set (r := true_div (llen (w0 :: ws)) (llen (s0 :: ss))) in *.
    set (s := true_div (llen (w0 :: ws)) (llen (w0 :: ws))) in *.
    unfold py_max.
    assert (Qltb 0 (0.39 * r + 11.8 * s - 15.59) = false) as ->;
      [ | reflexivity ].
    apply Qltb_ge. lra.
Qed.


(* --------------------------------------------------------------- *)
(** *** Ranges of the lexical and syntactic features *)

Lemma set_of_length_le l : llen (set_of l) <= llen l.
Proof.
  unfold llen. apply inj_le, NoDup_incl_length; [ apply set_of_NoDup | ].
  intros x. apply set_of_In.
Qed.

Lemma set_of_length_pos l : l <> [] -> 1 <= llen (set_of l).
Proof.
  destruct l as [|x l]; [ congruence | intros _ ].
  assert (In x (set_of (x :: l))) as H by (apply set_of_In; now left).
  destruct (set_of (x :: l)); [ destruct H | rewrite llen_cons ].
  pose proof (llen_nonneg l0). lia.
Qed.

Lemma set_of_full l : llen (set_of l) = llen l <-> NoDup l.
Proof.
  split.
  - intros H. eapply NoDup_incl_NoDup.
    + apply (set_of_NoDup l).
    + unfold llen in H. lia.
    + intros x. apply set_of_In.
  - intros H. unfold set_of.
    now rewrite (fold_set_add_fresh l [] H).
Qed.

Lemma true_div_eq_1 a b : 0 < b -> (true_div a b == 1)%Q <-> a = b.
Proof.
  intros Hb. unfold true_div, Qdiv, Qmult, Qinv, inject_Z, Qeq.
  destruct b; cbn; lia.
Qed.

(** X3: the type-token ratio lies between 0 and 1; it is 0.0 only
    without an alphabetic token, and it is 1 exactly when no
    lower-cased alphabetic token occurs twice. *)
Theorem lexical_diversity_range :
  forall text,
    let tokens := map str_lower (filter str_isalpha (word_tokenize text)) in
    (0 <= lexical_diversity text <= 1)%Q /\
    (tokens = [] -> lexical_diversity text = 0%Q) /\
    (tokens <> [] ->
     (0 < lexical_diversity text)%Q /\
     ((lexical_diversity text == 1)%Q <-> NoDup tokens)).
Proof.
  intros text tokens. unfold lexical_diversity. fold tokens.
  pose proof (set_of_length_le tokens) as Hle.
  pose proof (llen_nonneg (set_of tokens)) as H0.
  destruct tokens as [|t0 ts] eqn:E.
  - split; [ split; [ apply Qle_refl | discriminate ] | ].
    split; [ reflexivity | intros H; congruence ].
  - pose proof (set_of_length_pos (t0 :: ts) ltac:(discriminate)) as H1.
    assert (0 < llen (t0 :: ts)) as Hpos
        by (rewrite llen_cons; pose proof (llen_nonneg ts); lia).
    split; [ split | split; [ discriminate | intros _; split ] ].
    + apply true_div_nonneg; lia.
    + apply true_div_le_1; lia.
    + apply true_div_pos; lia.
    + rewrite (true_div_eq_1 _ _ Hpos). apply set_of_full.
Qed.

(** X4: the share of content words lies between 0 and 1, and is 0.0
    without an alphabetic token. *)
Theorem information_density_range :
  forall text w,
  exists density w',
    information_density text w = (Ok density, w') /\
    (0 <= density <= 1)%Q /\
    (word_count text = 0 -> density = 0%Q).
Proof.
  intros text w. unfold information_density, bind, word_count.
  destruct (succeeds_get_stopwords w) as (sw & w' & -> & _).
  destruct (filter str_isalpha (word_tokenize text)) as [|t0 ts]; cbn [map].
  - exists 0%Q, w'. split; [ reflexivity | ].
    split; [ split; [ apply Qle_refl | discriminate ] | reflexivity ].
  - eexists. exists w'. split; [ reflexivity | ].
    set (tokens := str_lower t0 :: map str_lower ts).
    pose proof (llen_filter_le (fun t => negb (str_in t sw)) tokens).
    pose proof (llen_nonneg (filter (fun t => negb (str_in t sw)) tokens)).
    split; [ split; [ apply true_div_nonneg | apply true_div_le_1 ]; lia | ].
    rewrite llen_cons. pose proof (llen_nonneg ts). lia.
Qed.

(** X5: the number of complex sentences lies between 0 and the number
    of sentences, and a higher threshold never gives more of them. *)
Theorem num_complex_sentences_monotone :
  forall text threshold,
    0 <= num_complex_sentences text threshold <= llen (sent_tokenize text) /\
    forall threshold',
      threshold <= threshold' ->
      num_complex_sentences text threshold'
      <= num_complex_sentences text threshold.
Proof.
  intros text threshold. unfold num_complex_sentences.
  rewrite (count_fold
             (fun sent => threshold <? llen (filter str_isalpha (word_tokenize sent)))).
  split.
  - pose proof (llen_filter_le
                  (fun sent => threshold
                               <? llen (filter str_isalpha (word_tokenize sent)))
                  (sent_tokenize text)).
    pose proof (llen_nonneg
                  (filter (fun sent => threshold
                               <? llen (filter str_isalpha (word_tokenize sent)))
                          (sent_tokenize text))).
    lia.
  - intros threshold' H.
    rewrite (count_fold
               (fun sent => threshold'
                            <? llen (filter str_isalpha (word_tokenize sent)))).
    cbn [Z.add]. apply filter_implies_le. intros sent Hs.
    apply Z.ltb_lt in Hs. apply Z.ltb_lt. lia.
Qed.

Lemma types_observed_some sentences :
  sentences <> [] -> 1 <= llen (types_observed sentences).
Proof.
  destruct sentences as [|s0 l]; [ congruence | intros _ ].
  assert (In (sentence_type s0) (types_observed (s0 :: l))) as H.
  { unfold types_observed. apply filter_In.
    split; [ apply sentence_type_in | ]. cbn [existsb].
    now rewrite String.eqb_refl. }
  destruct (types_observed (s0 :: l)); [ destruct H | rewrite llen_cons ].
  pose proof (llen_nonneg l0). lia.
Qed.

(** X6: with at least one sentence the diversity is one of 0.2, 0.4,
    0.6, 0.8 and 1: k fifths for a whole k from 1 to 5. *)
Theorem sentence_type_diversity_fifths :
  forall text,
    sent_tokenize text <> [] ->
    exists k,
      1 <= k <= 5 /\
      (sentence_type_diversity text == inject_Z k / 5)%Q /\
      (0.2 <= sentence_type_diversity text)%Q.
Proof.
  intros text H. exists (llen (types_observed (sent_tokenize text))).
  pose proof (types_observed_some _ H) as H1.
  pose proof (types_observed_bound (sent_tokenize text)) as H5.
  assert (sentence_type_diversity text
          == inject_Z (llen (types_observed (sent_tokenize text))) / 5)%Q as E.
  { unfold sentence_type_diversity.
    destruct (sent_tokenize text) as [|s0 l] eqn:Es; [ congruence | ].
    rewrite types_count. reflexivity. }
  split; [ lia | split; [ exact E | ] ]. rewrite E.
  set (k := llen (types_observed (sent_tokenize text))) in *.
  unfold Qle, Qdiv, Qmult, Qinv, inject_Z. cbn [Qnum Qden]. lia.
Qed.


Lemma zsum_nonneg l : (forall x, In x l -> 0 <= x) -> 0 <= zsum l.
Proof.
  induction l as [|x xs IH]; intros H; [ reflexivity | ].
  rewrite zsum_cons. pose proof (H x (or_introl eq_refl)).
  assert (0 <= zsum xs) by (apply IH; intros y Hy; apply H; now right).
  lia.
Qed.

Lemma zsum_pos l x :
  (forall y, In y l -> 0 <= y) -> In x l -> 0 < x -> 0 < zsum l.
Proof.
  induction l as [|y ys IH]; intros H Hin Hx; [ destruct Hin | ].
  rewrite zsum_cons. pose proof (H y (or_introl eq_refl)).
  assert (0 <= zsum ys)
    by (apply zsum_nonneg; intros z Hz; apply H; now right).
  destruct Hin as [-> | Hin]; [ lia | ].
  assert (0 < zsum ys); [ | lia ].
  apply IH; [ intros z Hz; apply H; now right | exact Hin | exact Hx ].
Qed.

Lemma Qinv_unit d : (1 <= d)%Q -> (0 <= 1 / d <= 1)%Q.
Proof.
  intros H. assert (0 < d)%Q as Hd by lra. split.
  - apply Qle_shift_div_l; [ exact Hd | lra ].
  - apply Qle_shift_div_r; [ exact Hd | lra ].
Qed.

Lemma sentence_lengths_nonneg sentences x :
  In x (map (fun s => llen (word_tokenize s)) sentences) -> 0 <= x.
Proof.
  intros Hx. apply in_map_iff in Hx. destruct Hx as (s & <- & _).
  apply llen_nonneg.
Qed.

Lemma mean_sentence_length_nonneg sentences :
  let lengths := map (fun s => llen (word_tokenize s)) sentences in
  (0 <= true_div (zsum lengths) (llen lengths))%Q.
Proof.
  intros lengths. apply true_div_nonneg; [ | apply llen_nonneg ].
  apply zsum_nonneg, sentence_lengths_nonneg.
Qed.

Lemma simplicity_unit a :
  (0 <= a)%Q ->
  (0 <= (if Qltb 0 a then 1 / (1 + a / 15) else 0) <= 1)%Q.
Proof.
  intros Ha.
  assert (0 <= a / 15)%Q as H15 by (apply Qle_shift_div_l; lra).
  destruct (Qltb 0 a); [ apply Qinv_unit | ].
  - set (q := (a / 15)%Q) in *. lra.
  - split; [ apply Qle_refl | discriminate ].
Qed.

Lemma syntactic_simplicity_unit text :
  (0 <= syntactic_simplicity text <= 1)%Q.
Proof.
  unfold syntactic_simplicity.
  destruct (sent_tokenize text) as [|s0 l].
  - split; [ apply Qle_refl | discriminate ].
  - apply simplicity_unit, mean_sentence_length_nonneg.
Qed.

(** X7: the syntactic simplicity lies between 0 and 1; it is 0.0
    without a sentence, and positive as soon as a sentence has a
    token. *)
Theorem syntactic_simplicity_range :
  forall text,
    (0 <= syntactic_simplicity text <= 1)%Q /\
    (sent_tokenize text = [] -> syntactic_simplicity text = 0%Q) /\
    ((exists sent, In sent (sent_tokenize text) /\ word_tokenize sent <> []) ->
     (0 < syntactic_simplicity text)%Q).
Proof.
  intros text. split; [ apply syntactic_simplicity_unit | ].
  unfold syntactic_simplicity.
  destruct (sent_tokenize text) as [|s0 l] eqn:Es.
  - split; [ reflexivity | intros (sent & [] & _) ].
  - split; [ discriminate | intros (sent & Hin & Hne) ].
    set (lengths := map (fun s => llen (word_tokenize s)) (s0 :: l)).
    set (avg_len := true_div (zsum lengths) (llen lengths)).
    assert (0 < llen lengths) as Hn.
    { unfold lengths. cbn [map]. rewrite llen_cons.
      pose proof (llen_nonneg (map (fun s => llen (word_tokenize s)) l)).
      lia. }
    assert (0 < zsum lengths) as Hpos.
    { apply (zsum_pos lengths (llen (word_tokenize sent))).
      - apply sentence_lengths_nonneg.
      - apply in_map_iff. now exists sent.
      - destruct (word_tokenize sent) as [|t0 ts]; [ congruence | ].
        rewrite llen_cons. pose proof (llen_nonneg ts). lia. }
    assert (0 < avg_len)%Q as Hap by (apply true_div_pos; lia).
    assert (Qltb 0 avg_len = true) as -> by now apply Qltb_lt.
    clearbody avg_len.
    assert (0 <= avg_len / 15)%Q as H15 by (apply Qle_shift_div_l; lra).
    set (q := (avg_len / 15)%Q) in *. apply Qlt_shift_div_l; lra.
Qed.


(* --------------------------------------------------------------- *)
(** *** Cohesion and ease *)

Lemma fold_left_Qplus_bounds l : forall a,
  Forall (fun q => 0 <= q <= 1)%Q l ->
  (a <= fold_left Qplus l a <= a + inject_Z (llen l))%Q.
Proof.
  induction l as [|x l IH]; intros a H; cbn [fold_left].
  - change (inject_Z (llen (@nil Q))) with 0%Q. lra.
  - inversion H as [|? ? Hx Hl]; subst.
    specialize (IH (a + x)%Q Hl).
    rewrite llen_cons, inject_Z_plus. change (inject_Z 1) with 1%Q.
    set (n := inject_Z (llen l)) in *. lra.
Qed.

Lemma mean_unit l :
  Forall (fun q => 0 <= q <= 1)%Q l -> l <> [] ->
  (0 <= qsum l / inject_Z (llen l) <= 1)%Q.
Proof.
  intros H Hne. pose proof (fold_left_Qplus_bounds l 0 H) as B. fold (qsum l) in B.
  assert (0 < inject_Z (llen l))%Q as Hn.
  { destruct l as [|x l]; [ congruence | ]. rewrite llen_cons.
    pose proof (llen_nonneg l). unfold Qlt, inject_Z. cbn [Qnum Qden]. lia. }
  split.
  - apply Qle_shift_div_l; [ exact Hn | lra ].
  - apply Qle_shift_div_r; [ exact Hn | lra ].
Qed.

Lemma set_union_length a b : llen a <= llen (set_union a b).
Proof.
  unfold set_union. revert a.
  induction b as [|x b IH]; intros a; cbn [fold_left]; [ lia | ].
  eapply Z.le_trans; [ | apply IH ].
  unfold set_add. destruct (str_in x a); [ lia | ].
  rewrite llen_app. unfold llen. cbn. lia.
Qed.

Lemma jaccard_unit a b :
  0 < llen (set_union a b) ->
  (0 <= true_div (llen (set_inter a b)) (llen (set_union a b)) <= 1)%Q.
Proof.
  intros H.
  pose proof (llen_filter_le (fun x => str_in x b) a) as H1.
  fold (set_inter a b) in H1.
  pose proof (set_union_length a b) as H2.
  pose proof (llen_nonneg (set_inter a b)) as H3.
  split; [ apply true_div_nonneg | apply true_div_le_1 ]; lia.
Qed.

Lemma overlaps_loop_unit stop_words sentences : forall overlaps,
  Forall (fun q => 0 <= q <= 1)%Q overlaps ->
  Forall (fun q => 0 <= q <= 1)%Q
         (overlaps_loop stop_words sentences overlaps).
Proof.
  induction sentences as [|s1 rest IH]; intros overlaps H; cbn [overlaps_loop].
  - exact H.
  - destruct rest as [|s2 r]; [ exact H | ].
    destruct (sentence_content_set stop_words s1) as [|a1 t1] eqn:E1;
      [ now apply IH | ].
    destruct (sentence_content_set stop_words s2) as [|a2 t2] eqn:E2;
      [ now apply IH | ].
    apply IH. destruct (Z.ltb_spec 0 (llen (set_union (a1 :: t1) (a2 :: t2))));
      [ | exact H ].
    apply Forall_app. split; [ exact H | ].
    constructor; [ now apply jaccard_unit | constructor ].
Qed.

Lemma referential_cohesion_unit text w :
  exists cohesion w',
    referential_cohesion text w = (Ok cohesion, w') /\
    (0 <= cohesion <= 1)%Q.
Proof.
  unfold referential_cohesion.
  destruct (llen (sent_tokenize text) <=? 1).
  - exists 0%Q, w. split; [ reflexivity | ].
    split; [ apply Qle_refl | discriminate ].
  - unfold bind. destruct (succeeds_get_stopwords w) as (sw & w' & -> & _).
    pose proof (overlaps_loop_unit sw (sent_tokenize text) [] (Forall_nil _)) as U.
    destruct (overlaps_loop sw (sent_tokenize text) []) as [|o os] eqn:E.
    + exists 0%Q, w'. split; [ reflexivity | ].
      split; [ apply Qle_refl | discriminate ].
    + eexists. exists w'. split; [ reflexivity | ].
      apply mean_unit; [ exact U | discriminate ].
Qed.

(** X8: the referential cohesion lies between 0 and 1; for a text of at
    most one sentence it is 0.0, and the stopword list is not even
    loaded. *)
Theorem referential_cohesion_range :
  forall text w,
  exists cohesion w',
    referential_cohesion text w = (Ok cohesion, w') /\
    (0 <= cohesion <= 1)%Q /\
    (llen (sent_tokenize text) <= 1 -> cohesion = 0%Q /\ w' = w).
Proof.
  intros text w.
  destruct (referential_cohesion_unit text w) as (cohesion & w' & E & U).
  exists cohesion, w'. split; [ exact E | split; [ exact U | ] ].
  intros Hle. unfold referential_cohesion in E.
  apply Z.leb_le in Hle. rewrite Hle in E. unfold ret in E.
  injection E as <- <-. now split.
Qed.


Lemma count_from_nonneg sub s skip : 0 <= count_from sub s skip.
Proof. rewrite (count_from_occurrences sub s skip 0). apply llen_nonneg. Qed.

Lemma conn_count_nonneg text : 0 <= conn_count text.
Proof.
  unfold conn_count. apply zsum_nonneg. intros x Hx.
  apply in_map_iff in Hx. destruct Hx as (c & <- & _).
  unfold str_count. cbn [append]. apply count_from_nonneg.
Qed.

Lemma deep_cohesion_nonneg text : (0 <= deep_cohesion text)%Q.
Proof.
  unfold deep_cohesion.
  destruct (filter str_isalpha (word_tokenize text)) as [|w0 ws];
    [ apply Qle_refl | ].
  apply true_div_nonneg; [ apply conn_count_nonneg | apply llen_nonneg ].
Qed.

Lemma clamped_unit x : (0 <= py_min 1 (py_max 0 x) <= 1)%Q.
Proof.
  unfold py_min, py_max.
  destruct (Qltb 0 x) eqn:E0; destruct (Qltb x 1) eqn:E1;
    try destruct (Qltb 0 1) eqn:E2;
    rewrite ?Qltb_lt, ?Qltb_ge in *; lra.
Qed.

(** X9: the text ease is at least 0.1, the share of the constant
    concreteness term, and at most 0.85 plus 0.15 times the deep
    cohesion: the other components lie between 0 and 1. *)
Theorem text_ease_bounds :
  forall text w,
  exists score w',
    text_ease text w = (Ok score, w') /\
    (0.1 <= score <= 0.85 + 0.15 * deep_cohesion text)%Q.
Proof.
  intros text w.
  destruct (referential_cohesion_unit text w) as (rc & w' & E & Hrc).
  unfold text_ease, bind. rewrite E. eexists. exists w'.
  split; [ reflexivity | ].
  unfold qsum, weights. cbn [combine map fold_left fst snd].
  pose proof (clamped_unit ((flesch_kincaid_grade_level text - 3) / 15)) as Hg.
  pose proof (syntactic_simplicity_unit text) as Hs.
  pose proof (deep_cohesion_nonneg text) as Hd.
  set (g := py_min 1 (py_max 0 ((flesch_kincaid_grade_level text - 3) / 15))) in *.
  set (s := syntactic_simplicity text) in *.
  set (d := deep_cohesion text) in *.
  lra.
Qed.


(* --------------------------------------------------------------- *)
(** *** Variability *)

Lemma fold_left_Qplus_nonneg l : forall a,
  Forall (fun q => 0 <= q)%Q l -> (a <= fold_left Qplus l a)%Q.
Proof.
  induction l as [|x l IH]; intros a H; cbn [fold_left]; [ apply Qle_refl | ].
  inversion H as [|? ? Hx Hl]; subst. specialize (IH (a + x)%Q Hl). lra.
Qed.

Lemma fold_left_Qplus_zero l : forall a,
  Forall (fun q => q == 0)%Q l -> (fold_left Qplus l a == a)%Q.
Proof.
  induction l as [|x l IH]; intros a H; cbn [fold_left]; [ reflexivity | ].
  inversion H as [|? ? Hx Hl]; subst. rewrite (IH (a + x)%Q Hl). lra.
Qed.

Lemma np_var_nonneg xs : (0 <= np_var xs)%Q.
Proof.
  unfold np_var.
  set (mean := true_div (zsum xs) (llen xs)).
  assert (0 <= qsum (map (fun x => (inject_Z x - mean) * (inject_Z x - mean)) xs))%Q
    as H.
  { apply fold_left_Qplus_nonneg, Forall_map, Forall_forall. intros x _.
    set (d := (inject_Z x - mean)%Q). nra. }
  unfold Qdiv. apply Qmult_le_0_compat; [ exact H | ].
  apply Qinv_le_0_compat. pose proof (llen_nonneg xs).
  unfold Qle, inject_Z. cbn [Qnum Qden]. lia.
Qed.

Lemma zsum_constant c xs :
  Forall (fun x => x = c) xs -> zsum xs = llen xs * c.
Proof.
  induction 1 as [|x xs Hx _ IH]; [ reflexivity | ].
  rewrite zsum_cons, llen_cons, IH, Hx. lia.
Qed.

Lemma np_var_constant c xs :
  Forall (fun x => x = c) xs -> (np_var xs == 0)%Q.
Proof.
  intros H. unfold np_var.
  destruct xs as [|x0 xs'] eqn:E; [ reflexivity | ]. rewrite <- E in *.
  assert (0 < llen xs) as Hn
      by (rewrite E, llen_cons; pose proof (llen_nonneg xs'); lia).
  set (mean := true_div (zsum xs) (llen xs)).
  assert (mean == inject_Z c)%Q as Hm.
  { unfold mean. rewrite (zsum_constant c xs H).
    unfold true_div. rewrite inject_Z_mult. field.
    intros E0. unfold Qeq, inject_Z in E0. cbn [Qnum Qden] in E0. lia. }
  unfold qsum. rewrite (fold_left_Qplus_zero _ 0) by
      (apply Forall_map; eapply Forall_impl; [ | exact H ];
       intros x ->; cbv beta; rewrite Hm; ring).
  unfold Qdiv. ring.
Qed.

(** X10: the variance of the word lengths and that of the syllable
    counts are never negative, and each is 0 when all alphabetic words
    have the same length, or the same syllable count: for a single
    word in particular. *)
Theorem variances_nonnegative :
  forall text,
    let words := filter str_isalpha (word_tokenize text) in
    (0 <= word_length_variance text)%Q /\
    (0 <= syllable_variance text)%Q /\
    (forall n, Forall (fun w => len w = n) words ->
               (word_length_variance text == 0)%Q) /\
    (forall n, Forall (fun w => count_syllables w = n) words ->
               (syllable_variance text == 0)%Q).
Proof.
  intros text words. unfold word_length_variance, syllable_variance.
  fold words. repeat split.
  - destruct words; [ apply Qle_refl | apply np_var_nonneg ].
  - destruct words; [ apply Qle_refl | apply np_var_nonneg ].
  - intros n H. destruct words as [|w0 ws] eqn:E; [ reflexivity | ].
    apply (np_var_constant n), Forall_map, H.
  - intros n H. destruct words as [|w0 ws] eqn:E; [ reflexivity | ].
    apply (np_var_constant n), Forall_map, H.
Qed.


(* --------------------------------------------------------------- *)
(** *** T-unit measures *)

Lemma t_unit_lengths_pos doc :
  Forall (fun n => 1 <= n) (fst (t_units_of_doc doc)).
Proof.
  rewrite t_units_of_doc_lengths. apply Forall_concat, Forall_map.
  apply Forall_forall. intros sent _. apply Forall_map.
  eapply Forall_impl; [ | apply t_units_from_nonempty ].
  intros [|t0 u] H; [ congruence | ]. rewrite llen_cons.
  pose proof (llen_nonneg u). lia.
Qed.

Lemma zsum_ge_count l : Forall (fun n => 1 <= n) l -> llen l <= zsum l.
Proof.
  induction 1 as [|x l Hx _ IH]; [ reflexivity | ].
  rewrite zsum_cons, llen_cons. lia.
Qed.

Lemma _extract_t_units_run text w :
  _extract_t_units text w
  = (Ok (t_units_of_doc (nlp_in_use w text)), snd (get_nlp w)).
Proof.
  unfold _extract_t_units, bind, ret, get_nlp, nlp_in_use.
  now destruct (_nlp (mods w)).
Qed.

(** X11: the mean T-unit length is the number of tokens of the document
    over the number of T-units, hence at least 1, when there is a
    T-unit; without one, as for a document without sentences, it is
    0.0. *)
Theorem mean_length_t_unit_value :
  forall text w,
    let doc := nlp_in_use w text in
    let units := fst (t_units_of_doc doc) in
    exists mean w',
      mean_length_t_unit text w = (Ok mean, w') /\
      (units = [] -> mean = 0%Q) /\
      (units <> [] ->
       (mean == true_div (llen (doc_tokens doc)) (llen units))%Q /\
       (1 <= mean)%Q) /\
      (sents doc = [] -> units = []).
Proof.
  intros text w doc units.
  unfold mean_length_t_unit, bind. rewrite _extract_t_units_run.
  fold doc. fold units.
  pose proof (t_units_of_doc_total doc) as Htot. fold units in Htot.
  pose proof (t_unit_lengths_pos doc) as Hpos. fold units in Hpos.
  assert (sents doc = [] -> units = []) as Hnone.
  { intros E. unfold units, t_units_of_doc. now rewrite E. }
  destruct units as [|u0 us] eqn:E.
  - exists 0%Q. eexists. split; [ reflexivity | ].
    split; [ reflexivity | split; [ congruence | exact Hnone ] ].
  - eexists. eexists. split; [ reflexivity | ].
    split; [ discriminate | split; [ intros _ | exact Hnone ] ].
    rewrite Htot. split; [ reflexivity | ].
    apply true_div_ge_1. rewrite <- Htot.
    pose proof (zsum_ge_count _ Hpos). rewrite llen_cons in *.
    pose proof (llen_nonneg us). lia.
Qed.



Lemma filter_concat {A} (p : A -> bool) ls :
  filter p (concat ls) = concat (map (filter p) ls).
Proof.
  induction ls as [|l ls IH]; cbn [concat map]; [ reflexivity | ].
  now rewrite filter_app, IH.
Qed.




(* --------------------------------------------------------------- *)
(** *** WordNet based features *)

Lemma get_stopwords_run w :
  get_stopwords w = (Ok (stop_words_in_use w), snd (get_stopwords w)).
Proof.
  unfold get_stopwords, stop_words_in_use.
  now destruct (_stopwords (mods w)).
Qed.

Lemma content_tokens_le stop_words text :
  llen (content_tokens stop_words text) <= word_count text.
Proof.
  unfold content_tokens, word_count, llen at 1. rewrite length_map.
  apply (filter_implies_le
           (fun t => str_isalpha t && negb (str_in (str_lower t) stop_words))
           str_isalpha).
  intros t H. now apply andb_prop in H.
Qed.

Lemma fold_left_same {A B} (f g : A -> B -> A) l :
  (forall a x, f a x = g a x) ->
  forall a, fold_left f l a = fold_left g l a.
Proof.
  intros H. induction l as [|x l IH]; intros a; cbn; [ reflexivity | ].
  now rewrite H, IH.
Qed.

(** X13: the number of polysemous words lies between 0 and the number of
    alphabetic words of the text. *)
Theorem polysemy_word_bounds :
  forall text w,
  exists count w',
    polysemy_word text w = (Ok count, w') /\
    0 <= count <= word_count text.
Proof.
  intros text w. unfold polysemy_word, bind. rewrite get_stopwords_run.
  eexists. eexists. split; [ reflexivity | ].
  rewrite (count_fold (fun token => 1 <? llen (wordnet_synsets token))).
  set (tokens := content_tokens (stop_words_in_use w) text).
  pose proof (llen_filter_le
                (fun token => 1 <? llen (wordnet_synsets token)) tokens).
  pose proof (llen_nonneg
                (filter (fun token => 1 <? llen (wordnet_synsets token)) tokens)).
  pose proof (content_tokens_le (stop_words_in_use w) text). fold tokens in H1.
  lia.
Qed.

Lemma filter_none {A} (p : A -> bool) l :
  (forall x, In x l -> p x = false) -> filter p l = [].
Proof.
  induction l as [|x l IH]; intros H; cbn [filter]; [ reflexivity | ].
  rewrite (H x (or_introl eq_refl)). apply IH. intros y Hy. apply H. now right.
Qed.

(** X14: the context-sensitive count lies between 0 and the number of
    alphabetic tokens the parser finds in the text; a token without a
    WordNet sense is never counted. *)
Theorem context_sensitive_count_bounds :
  forall text w,
    let doc := nlp_in_use w text in
    exists count w',
      context_sensitive_count text w = (Ok count, w') /\
      0 <= count <= llen (filter is_alpha (doc_tokens doc)) /\
      ((forall token, In token (doc_tokens doc) ->
                      wordnet_synsets (str_lower (tok_text token)) = []) ->
       count = 0).
Proof.
  intros text w doc. unfold context_sensitive_count, bind, ret, get_nlp.
  fold (nlp_in_use w).
  assert (exists w', (match _nlp (mods w) with
                      | Some nlp => (Ok nlp, w)
                      | None =>
                          (Ok spacy_load,
                           mkWorld (mkGlobals (Some spacy_load)
                                              (_stopwords (mods w))
                                              (_language_tool (mods w)))
                                   (service_calls w))
                      end) = (Ok (nlp_in_use w), w')) as (w' & ->).
  { unfold nlp_in_use. destruct (_nlp (mods w)); eexists; reflexivity. }
  fold doc.
  set (p := fun token =>
              is_alpha token
              && match wordnet_synsets (str_lower (tok_text token)) with
                 | [] => false
                 | s0 :: _ =>
                     negb (String.eqb (str_lower (first_lemma_name s0))
                                      (str_lower (tok_text token)))
                 end).
  eexists. exists w'. split; [ reflexivity | ].
  rewrite (fold_left_same _ (fun count x => if p x then count + 1 else count))
    by (intros a x; unfold p; destruct (is_alpha x); cbn [negb andb];
        [ destruct (wordnet_synsets (str_lower (tok_text x))) | ]; reflexivity).
  rewrite count_fold. cbn [Z.add].
  pose proof (filter_implies_le p is_alpha (doc_tokens doc)) as H.
  pose proof (llen_nonneg (filter p (doc_tokens doc))) as H0.
  split.
  - split; [ exact H0 | apply H ]. intros x Hx. unfold p in Hx.
    now apply andb_prop in Hx.
  - intros Hnone.
    rewrite filter_none; [ reflexivity | ].
    intros x Hx. unfold p. rewrite (Hnone x Hx). apply andb_false_r.
Qed.


Lemma py_min_1_le x : (py_min 1 x <= 1)%Q.
Proof.
  unfold py_min. destruct (Qltb x 1) eqn:E; [ | apply Qle_refl ].
  apply Qltb_lt in E. now apply Qlt_le_weak.
Qed.

Lemma py_min_1_nonneg x : (0 <= x)%Q -> (0 <= py_min 1 x)%Q.
Proof. intros H. unfold py_min. destruct (Qltb x 1); [ exact H | discriminate ]. Qed.

(** The loop of [vocabulary_sophistication] keeps what holds of
    [depths] when it holds of the mean depth of every token with a
    synset. *)
Lemma depths_loop_Forall (P : Q -> Prop) tokens : forall depths,
  Forall P depths ->
  (forall token,
      wordnet_synsets token <> [] ->
      P (true_div (zsum (map min_depth (wordnet_synsets token)))
                  (llen (map min_depth (wordnet_synsets token))))) ->
  Forall P
    (fold_left
       (fun depths token =>
          let synsets := wordnet_synsets token in
          match synsets with
          | [] => depths
          | _ =>
              let token_depths := map min_depth synsets in
              depths ++ [true_div (zsum token_depths) (llen token_depths)]
          end)
       tokens depths).
Proof.
  induction tokens as [|token rest IH]; intros depths H HP; cbn [fold_left].
  - exact H.
  - apply IH; [ | exact HP ]. cbn zeta.
    specialize (HP token).
    destruct (wordnet_synsets token) as [|s0 ss]; [ exact H | ].
    apply Forall_app. split; [ exact H | ].
    constructor; [ apply HP; discriminate | constructor ].
Qed.

Lemma depths_loop_none tokens : forall depths,
  (forall token, In token tokens -> wordnet_synsets token = []) ->
  fold_left
    (fun depths token =>
       let synsets := wordnet_synsets token in
       match synsets with
       | [] => depths
       | _ =>
           let token_depths := map min_depth synsets in
           depths ++ [true_div (zsum token_depths) (llen token_depths)]
       end)
    tokens depths
  = depths.
Proof.
  induction tokens as [|token rest IH]; intros depths H; cbn [fold_left].
  - reflexivity.
  - cbn zeta. rewrite (H token (or_introl eq_refl)).
    apply IH. intros t Ht. apply H. now right.
Qed.

(** X15: the vocabulary sophistication is at most 1; it is not negative
    when no synset has a negative depth; and it is 0.0 when no content
    token of the text has a synset. *)
Theorem vocabulary_sophistication_range :
  forall text w,
  exists score w',
    vocabulary_sophistication text w = (Ok score, w') /\
    (score <= 1)%Q /\
    ((forall word s, In s (wordnet_synsets word) -> 0 <= min_depth s) ->
     (0 <= score)%Q) /\
    ((forall token,
         In token (content_tokens (stop_words_in_use w) text) ->
         wordnet_synsets token = []) ->
     score = 0%Q).
Proof.
  intros text w. unfold vocabulary_sophistication, bind.
  rewrite get_stopwords_run.
  set (tokens := content_tokens (stop_words_in_use w) text).
  destruct tokens as [|t0 ts] eqn:Et.
  - exists 0%Q. eexists. split; [ reflexivity | ].
    split; [ discriminate | split; [ intros _; apply Qle_refl | reflexivity ] ].
  - rewrite <- Et.
    match goal with
    | |- context [fold_left ?f tokens []] => set (depths := fold_left f tokens [])
    end.
    assert ((forall token, In token tokens -> wordnet_synsets token = []) ->
            depths = []) as Hnone
        by (intros H; apply (depths_loop_none tokens [] H)).
    assert ((forall word s, In s (wordnet_synsets word) -> 0 <= min_depth s) ->
            Forall (fun q => 0 <= q)%Q depths) as Hnn.
    { intros H. apply depths_loop_Forall; [ constructor | ].
      intros token _. apply true_div_nonneg; [ | apply llen_nonneg ].
      apply zsum_nonneg. intros x Hx. apply in_map_iff in Hx.
      destruct Hx as (s & <- & Hs). eapply H, Hs. }
    clearbody depths. destruct depths as [|d0 ds] eqn:Ed.
    + exists 0%Q. eexists. split; [ reflexivity | ].
      split; [ discriminate | split; [ intros _; apply Qle_refl | reflexivity ] ].
    + eexists. eexists. split; [ reflexivity | ].
      split; [ apply py_min_1_le | split ].
      * intros H. apply py_min_1_nonneg.
        specialize (Hnn H).
        pose proof (fold_left_Qplus_nonneg _ 0 Hnn) as Hs.
        fold (qsum (d0 :: ds)) in Hs.
        assert (0 <= qsum (d0 :: ds) / inject_Z (llen (d0 :: ds)))%Q as Ha.
        { unfold Qdiv. apply Qmult_le_0_compat; [ exact Hs | ].
          apply Qinv_le_0_compat. pose proof (llen_nonneg (d0 :: ds)).
          unfold Qle, inject_Z. cbn [Qnum Qden]. lia. }
        set (a := (qsum (d0 :: ds) / inject_Z (llen (d0 :: ds)))%Q) in *.
        apply Qle_shift_div_l; lra.
      * intros H. specialize (Hnone H). discriminate.
Qed.


(* --------------------------------------------------------------- *)
(** *** Features do not influence one another *)

Lemma respects_ret {A} (a : A) : respects (ret a).
Proof.
  intros w. split; [ apply globals_le_refl | ]. intros w' H. now split.
Qed.

Lemma respects_raise {A} e : respects (@raise Match A e).
Proof.
  intros w. split; [ apply globals_le_refl | ]. intros w' H. now split.
Qed.

Lemma respects_bind {A B} (m : M A) (f : A -> M B) :
  respects m -> (forall a, respects (f a)) -> respects (bind m f).
Proof.
  intros Hm Hf w. unfold bind.
  destruct (Hm w) as [Hle Hm'].
  split.
  - destruct (m w) as [[a|e] w1]; cbn [fst snd] in *; [ | exact Hle ].
    eapply globals_le_trans; [ exact Hle | apply (Hf a w1) ].
  - intros w' Hw'. destruct (Hm' w' Hw') as [E1 E2].
    destruct (m w) as [[a|e] w1], (m w') as [r w1'];
      cbn [fst snd] in *; subst r.
    + apply (Hf a w1), E2.
    + now split.
Qed.

Lemma cache_le_none {A} (a : A) c :
  cache_le a None c -> c = None \/ c = Some a.
Proof. intros [-> | [_ ->]]; auto. Qed.

Lemma respects_get_nlp : respects get_nlp.
Proof.
  intros w. destruct (stable_get_nlp w) as [Hle _]. split; [ exact Hle | ].
  intros w' Hw'. unfold get_nlp in *. destruct Hw' as (Hn & Hs & Ht).
  destruct (_nlp (mods w)) as [nlp|] eqn:E.
  - apply cache_le_some in Hn. rewrite Hn. cbn [fst snd].
    split; [ reflexivity | ]. repeat split; try assumption.
    rewrite E, Hn. apply cache_le_refl.
  - apply cache_le_none in Hn.
    destruct Hn as [E' | E']; rewrite E'; cbn [fst snd mods];
      (split; [ reflexivity | ]); repeat split; cbn; try assumption;
      rewrite ?E'; apply cache_le_refl.
Qed.

Lemma respects_get_stopwords : respects get_stopwords.
Proof.
  intros w. destruct (stable_get_stopwords w) as [Hle _]. split; [ exact Hle | ].
  intros w' Hw'. unfold get_stopwords in *. destruct Hw' as (Hn & Hs & Ht).
  destruct (_stopwords (mods w)) as [sw|] eqn:E.
  - apply cache_le_some in Hs. rewrite Hs. cbn [fst snd].
    split; [ reflexivity | ]. repeat split; try assumption.
    rewrite E, Hs. apply cache_le_refl.
  - apply cache_le_none in Hs.
    destruct Hs as [E' | E']; rewrite E'; cbn [fst snd mods];
      (split; [ reflexivity | ]); repeat split; cbn; try assumption;
      rewrite ?E'; apply cache_le_refl.
Qed.

Lemma respects__get_language_tool : respects _get_language_tool.
Proof.
  intros w. destruct (stable__get_language_tool w) as [Hle _].
  split; [ exact Hle | ].
  intros w' Hw'. unfold _get_language_tool in *. destruct Hw' as (Hn & Hs & Ht).
  destruct (_language_tool (mods w)) as [tool|] eqn:E.
  - apply cache_le_some in Ht. rewrite Ht. cbn [fst snd].
    split; [ reflexivity | ]. repeat split; try assumption.
    rewrite E, Ht. apply cache_le_refl.
  - apply cache_le_none in Ht.
    destruct Ht as [E' | E']; rewrite E'; cbn [fst snd mods];
      (split; [ reflexivity | ]); repeat split; cbn; try assumption;
      rewrite ?E'; apply cache_le_refl.
Qed.

Lemma respects_check tool text : respects (check tool text).
Proof.
  intros w. unfold check. cbn [fst snd mods].
  split; [ apply globals_le_refl | ]. intros w' H. now split.
Qed.

Lemma respects_match_list {A B} (l : list A) (m1 m2 : M B) :
  respects m1 -> respects m2 ->
  respects (match l with [] => m1 | _ :: _ => m2 end).
Proof. destruct l; auto. Qed.

Lemma respects_if {A} (b : bool) (m1 m2 : M A) :
  respects m1 -> respects m2 -> respects (if b then m1 else m2).
Proof. destruct b; auto. Qed.

Create HintDb py_respects.
#[local] Hint Resolve respects_ret respects_raise respects_get_nlp
  respects_get_stopwords respects__get_language_tool respects_check
  : py_respects.
#[local] Hint Extern 2 (respects (bind _ _)) =>
  apply respects_bind; [ | intros ? ] : py_respects.
#[local] Hint Extern 2 (respects (match ?l with [] => _ | _ :: _ => _ end)) =>
  apply respects_match_list : py_respects.
#[local] Hint Extern 2 (respects (if _ then _ else _)) =>
  apply respects_if : py_respects.

Ltac respect := unfold int_, float_, int_of, float_of; auto 12 with py_respects.

Lemma respects_vocabulary_sophistication text :
  respects (vocabulary_sophistication text).
Proof. unfold vocabulary_sophistication. respect. Qed.

Lemma respects_polysemy_word text : respects (polysemy_word text).
Proof. unfold polysemy_word. respect. Qed.

Lemma respects_information_density text : respects (information_density text).
Proof. unfold information_density. respect. Qed.

Lemma respects_error_count text : respects (error_count text).
Proof. unfold error_count. respect. Qed.

Lemma respects_context_sensitive_count text :
  respects (context_sensitive_count text).
Proof. unfold context_sensitive_count. respect. Qed.

Lemma respects_referential_cohesion text : respects (referential_cohesion text).
Proof. unfold referential_cohesion. respect. Qed.

Lemma respects_text_ease text : respects (text_ease text).
Proof.
  unfold text_ease. apply respects_bind;
    [ apply respects_referential_cohesion | intros; respect ].
Qed.

Lemma respects__extract_t_units text : respects (_extract_t_units text).
Proof. unfold _extract_t_units. respect. Qed.

Lemma respects_num_t_units text : respects (num_t_units text).
Proof.
  unfold num_t_units. apply respects_bind;
    [ apply respects__extract_t_units | intros; respect ].
Qed.

Lemma respects_mean_length_t_unit text : respects (mean_length_t_unit text).
Proof.
  unfold mean_length_t_unit. apply respects_bind;
    [ apply respects__extract_t_units | intros; respect ].
Qed.

Lemma respects_dependent_clauses_per_t_unit text :
  respects (dependent_clauses_per_t_unit text).
Proof.
  unfold dependent_clauses_per_t_unit. apply respects_bind;
    [ apply respects__extract_t_units | intros; respect ].
Qed.

#[local] Hint Resolve respects_vocabulary_sophistication
  respects_polysemy_word respects_information_density respects_error_count
  respects_context_sensitive_count respects_referential_cohesion
  respects_text_ease respects_num_t_units respects_mean_length_t_unit
  respects_dependent_clauses_per_t_unit : py_respects.

Lemma respects_dict_display entries :
  Forall (fun e => respects (snd e)) entries ->
  forall d, respects (dict_display entries d).
Proof.
  induction 1 as [|[k m] rest Hm _ IH]; intros d; cbn.
  - apply respects_ret.
  - apply respects_bind; [ exact Hm | intros v; apply IH ].
Qed.

Lemma respects_extract self text : respects (extract self text).
Proof.
  unfold extract.
  destruct (truthy text) as [truth|e]; [ | apply respects_raise ].
  apply respects_if; [ apply respects_ret | ].
  destruct text; try apply respects_raise.
  apply respects_bind.
  - apply respects_dict_display.
    repeat (apply Forall_cons; [ cbn [snd]; respect | ]). apply Forall_nil.
  - intros features. respect.
Qed.


Lemma dict_get_set_same d k v : dict_get (dict_set d k v) k = Some v.
Proof.
  induction d as [|[k' v'] r IH]; cbn.
  - now rewrite String.eqb_refl.
  - destruct (String.eqb k' k) eqn:E; cbn; rewrite E; [ reflexivity | exact IH ].
Qed.

Lemma dict_get_set_other d k k' v :
  k' <> k -> dict_get (dict_set d k v) k' = dict_get d k'.
Proof.
  intros H. induction d as [|[k0 v0] r IH]; cbn.
  - destruct (String.eqb_spec k k'); [ congruence | reflexivity ].
  - destruct (String.eqb_spec k0 k) as [->|E]; cbn.
    + destruct (String.eqb_spec k k'); [ congruence | reflexivity ].
    + destruct (String.eqb k0 k'); [ reflexivity | exact IH ].
Qed.

Lemma dict_display_get_other entries : forall d w record w' k,
  dict_display entries d w = (Ok record, w') ->
  ~ In k (map fst entries) ->
  dict_get record k = dict_get d k.
Proof.
  induction entries as [|[k0 m0] rest IH]; intros d w record w' k H Hk;
    cbn in H.
  - unfold ret in H. congruence.
  - unfold bind in H. destruct (m0 w) as [[v0|e] w1]; [ | discriminate ].
    rewrite (IH _ _ _ _ k H) by (intros Hin; apply Hk; now right).
    apply dict_get_set_other. intros ->. apply Hk. now left.
Qed.

(** A record built by a display holds under every key what the entry
    of that key returns in the store the display started from. *)
Lemma dict_display_get entries :
  Forall (fun e => respects (snd e)) entries ->
  NoDup (map fst entries) ->
  forall d w record w',
    dict_display entries d w = (Ok record, w') ->
    Forall (fun e => exists v, fst (snd e w) = Ok v /\
                               dict_get record (fst e) = Some v)
           entries.
Proof.
  induction 1 as [|[k0 m0] rest Hm Hrest IH]; intros Hnd d w record w' H.
  - constructor.
  - cbn [map fst] in Hnd. inversion Hnd as [|? ? Hk0 Hnd']; subst.
    cbn in H. unfold bind in H.
    destruct (Hm w) as [Hle Hm'].
    destruct (m0 w) as [[v0|e] w1] eqn:E0; [ | discriminate ].
    cbn [snd fst] in *. constructor.
    + exists v0. cbn [fst snd]. rewrite E0. split; [ reflexivity | ].
      rewrite (dict_display_get_other _ _ _ _ _ k0 H Hk0).
      apply dict_get_set_same.
    + specialize (IH Hnd' _ _ _ _ H).
      rewrite Forall_forall in *. intros e He.
      destruct (IH e He) as (v & Hv & Hg). exists v. split; [ | exact Hg ].
      rewrite <- Hv. symmetry. rewrite E0 in Hle. cbn [snd] in Hle.
      apply (proj2 (Hrest e He w) w1 Hle).
Qed.

Lemma append_eqb p a b : String.eqb (append p a) (append p b) = String.eqb a b.
Proof. induction p as [|c p IH]; cbn; [ reflexivity | ]. now rewrite Ascii.eqb_refl. Qed.

Lemma dict_get_prefixed p (features : dict) k :
  dict_get (map (fun kv : string * number => (append p (fst kv), snd kv))
                features)
           (append p k)
  = dict_get features k.
Proof.
  induction features as [|[k0 v0] r IH]; cbn; [ reflexivity | ].
  rewrite append_eqb. now destruct (String.eqb k0 k).
Qed.

Lemma feature_table_respects text :
  Forall (fun e => respects (snd e)) (feature_table text).
Proof.
  unfold feature_table.
  repeat (apply Forall_cons; [ cbn [snd]; respect | ]). apply Forall_nil.
Qed.

Lemma feature_table_names text : map fst (feature_table text) = FEATURE_NAMES.
Proof. reflexivity. Qed.

(** The record of [extract] holds under each prefixed name what the
    feature of that name returns for the text in the store of the
    call. *)
Lemma extract_record_lookup self s w record :
  s <> "" ->
  fst (extract self (PyStr s) w) = Ok record ->
  Forall (fun e => exists v,
              fst (snd e w) = Ok v /\
              dict_get record (append (prefix self) (fst e)) = Some v)
         (feature_table s).
Proof.
  intros Hs H. unfold extract in H. rewrite (truthy_str s Hs) in H.
  cbn [negb orb isinstance_str] in H. fold (feature_table s) in H.
  unfold bind in H.
  destruct (dict_display (feature_table s) [] w) as [[features|e] w1] eqn:D;
    [ | discriminate ].
  pose proof (dict_display_keys _ _ _ _ _ D) as K.
  rewrite feature_table_names in K. change (dict_keys []) with (@nil string) in K.
  rewrite (fold_set_add_fresh FEATURE_NAMES [] NoDup_FEATURE_NAMES) in K.
  cbn [app] in K.
  pose proof (dict_display_get (feature_table s) (feature_table_respects s)) as G.
  rewrite feature_table_names in G.
  specialize (G NoDup_FEATURE_NAMES _ _ _ _ D).
  eapply Forall_impl; [ | exact G ]. intros [k m] (v & Hv & Hg). cbn [fst snd] in *.
  exists v. split; [ exact Hv | ].
  destruct (String.eqb_spec (prefix self) "") as [Ep|Ep];
    cbn [negb ret fst] in H; injection H as <-.
  - rewrite Ep. exact Hg.
  - rewrite dict_of_items_fresh
      by (rewrite prefixed_keys, K; apply NoDup_prefixed).
    now rewrite dict_get_prefixed.
Qed.

Lemma Forall_pick {A} (P : A -> Prop) l x : Forall P l -> In x l -> P x.
Proof. intros H. now apply Forall_forall. Qed.

(** X16: in the record that [extract] returns for a text, every
    prefixed name holds what the feature of that name returns for the
    text in the store of the call, as an int for the counts and a float
    for the ratios: no feature changes the value of another. *)
Theorem extract_record_values :
  forall self s w record,
    s <> "" ->
    fst (extract self (PyStr s) w) = Ok record ->
    let at_ name := dict_get record (append (prefix self) name) in
    Forall (fun e => exists v, fst (snd e w) = Ok v /\ at_ (fst e) = Some v)
           (feature_table s) /\
    at_ "word_count" = Some (Int (word_count s)) /\
    at_ "avg_sentence_length" = Some (Float (avg_sentence_length s)) /\
    at_ "num_complex_sentences" = Some (Int (num_complex_sentences s 15)) /\
    at_ "lexical_diversity" = Some (Float (lexical_diversity s)) /\
    at_ "sentence_type_diversity" = Some (Float (sentence_type_diversity s)) /\
    at_ "syntactic_simplicity" = Some (Float (syntactic_simplicity s)) /\
    at_ "flesch_kincaid_grade_level"
      = Some (Float (flesch_kincaid_grade_level s)) /\
    at_ "deep_cohesion" = Some (Float (deep_cohesion s)) /\
    at_ "word_length_variance" = Some (Float (word_length_variance s)) /\
    at_ "syllable_variance" = Some (Float (syllable_variance s)) /\
    at_ "num_t_units"
      = Some (Int (llen (fst (t_units_of_doc (nlp_in_use w s))))).
Proof.
  intros self s w record Hs H at_.
  pose proof (extract_record_lookup self s w record Hs H) as L.
  split; [ exact L | ].
  assert (forall k m v,
             In (k, m) (feature_table s) -> fst (m w) = Ok v ->
             at_ k = Some v) as P.
  { intros k m v Hin Hv.
    destruct (Forall_pick _ _ _ L Hin) as (v' & Hv' & Hg). cbn [fst snd] in *.
    unfold at_. rewrite Hg. congruence. }
  repeat split;
    match goal with
    | |- at_ ?k = Some _ =>
        eapply (P k); [ unfold feature_table; cbn [In]; auto 25 | ]
    end; try reflexivity.
  unfold int_of, bind. rewrite num_t_units_run. reflexivity.
Qed.


(* --------------------------------------------------------------- *)
(** *** Calls to the grammar service *)

Lemma display_service_calls es1 es2 s (k : dict -> M dict) w :
  Forall (fun e => succeeds (snd e)) es1 ->
  Forall (fun e => succeeds (snd e)) es2 ->
  (forall d, succeeds (k d)) ->
  service_calls
    (snd (bind (dict_display
                  (es1 ++ ("error_count", int_of (error_count s)) :: es2) [])
               k w))
  = (if 10 <=? len s then [s] else []) ++ service_calls w.
Proof.
  intros H1 H2 Hk.
  assert (forall d w0,
             service_calls (snd (bind (dict_display es2 d) k w0))
             = service_calls w0) as Hrest.
  { intros d w0.
    destruct (succeeds_bind _ k (succeeds_dict_display es2 H2 d) Hk w0)
      as (a & w' & E & _ & Hc).
    now rewrite E. }
  destruct (dict_display_middle es1 "error_count" (int_of (error_count s))
                                es2 [] w H1) as (d1 & w1 & Ht & Hc & E).
  assert (bind (dict_display
                  (es1 ++ ("error_count", int_of (error_count s)) :: es2) [])
               k w =
          match error_count s w1 with
          | (Ok z, w2) =>
              bind (dict_display es2 (dict_set d1 "error_count" (Int z))) k w2
          | (Raise e, w2) => (Raise e, w2)
          end) as ->.
  { unfold bind at 1. rewrite E. unfold int_of, bind, ret.
    destruct (error_count s w1) as [[z|e] w2]; reflexivity. }
  destruct (Z.leb_spec 10 (len s)) as [Hlen|Hlen].
  - rewrite (error_count_long s w1 Hlen).
    destruct (tool_in_use w1 s) as [matches|e].
    + rewrite Hrest. cbn. now rewrite Hc.
    + cbn. now rewrite Hc.
  - rewrite (error_count_short s w1 Hlen), Hrest. exact Hc.
Qed.

(** X17: [extract] sends a text to the grammar service once when it is
    a string of 10 characters or more, whether the check succeeds or
    fails, and never otherwise. *)
Theorem extract_service_calls :
  forall self text w,
    service_calls (snd (extract self text w))
    = match text with
      | PyStr s => if 10 <=? len s then [s] else []
      | _ => []
      end ++ service_calls w.
Proof.
  intros self text w.
  destruct (guard_cases text) as [(e & Ht) | [Hd | (s & -> & Hs)]].
  - rewrite (extract_truth_raises self text w e Ht).
    destruct text; try reflexivity; discriminate.
  - rewrite (extract_degenerate self text w Hd).
    destruct Hd as [Ht | [Ht Hi]]; destruct text; try reflexivity;
      try discriminate.
    cbn in Ht. injection Ht as Ht.
    apply negb_false_iff, String.eqb_eq in Ht. now subst.
  - destruct (extract_str self s w Hs)
      as (es1 & es2 & k & H1 & H2 & Hk & _ & _ & ->).
    now apply display_service_calls.
Qed.

(* --------------------------------------------------------------- *)
(** *** Batches *)

Lemma zero_record_get p name names :
  In name names ->
  dict_get (map (fun name => (append p name, Int 0)) names) (append p name)
  = Some (Int 0).
Proof.
  induction names as [|n names IH]; intros H; [ destruct H | ].
  cbn [map dict_get]. rewrite append_eqb.
  destruct (String.eqb_spec n name) as [E|E]; [ reflexivity | ].
  destruct H as [H|H]; [ congruence | now apply IH ].
Qed.

Lemma Forall2_nth_error_r {A B} (P : A -> B -> Prop) l1 l2 i y :
  Forall2 P l1 l2 -> nth_error l2 i = Some y -> exists x, P x y.
Proof.
  intros F. revert i. induction F as [|a b l1 l2 Hab F IH]; intros i E.
  - now destruct i.
  - destruct i as [|i]; cbn in E.
    + injection E as <-. now exists a.
    + now apply (IH i).
Qed.

Lemma extract_results_rows self texts : forall w0 w,
  globals_le (mods w0) (mods w) ->
  match fst (extract_results self texts w) with
  | Ok rows =>
      Forall2 (fun text row => fst (extract self text w0) = Ok row) texts rows
  | Raise e =>
      exists text, In text texts /\ fst (extract self text w0) = Raise e
  end.
Proof.
  induction texts as [|text rest IH]; intros w0 w Hle; cbn [extract_results].
  - cbn. constructor.
  - unfold bind.
    destruct (respects_extract self text w0) as [_ R].
    destruct (R w Hle) as [E _].
    destruct (respects_extract self text w) as [Hle1 _].
    destruct (extract self text w) as [[row|e] w1] eqn:Ex; cbn [fst snd] in *.
    + specialize (IH w0 w1 (globals_le_trans _ _ _ Hle Hle1)).
      destruct (extract_results self rest w1) as [[rows|e] w2]; cbn [fst] in *.
      * constructor; [ now symmetry | exact IH ].
      * destruct IH as (t & Hin & Ht). exists t. split; [ now right | exact Ht ].
    + exists text. split; [ now left | now symmetry ].
Qed.

Lemma extract_batch_run self texts w :
  fst (extract_batch self texts w)
  = match fst (extract_results self texts w) with
    | Ok results => Ok (DataFrame_of_records results)
    | Raise e => Raise e
    end.
Proof.
  unfold extract_batch, bind, ret.
  now destruct (extract_results self texts w) as [[results|e] w'].
Qed.

(** Folding the keys of a record into labels that hold them all leaves
    the labels as they are. *)
Lemma fold_set_add_known l : forall s,
  (forall x, In x l -> In x s) ->
  fold_left (fun acc k => set_add k acc) l s = s.
Proof.
  induction l as [|x l IH]; intros s H; cbn [fold_left]; [ reflexivity | ].
  unfold set_add at 2.
  assert (str_in x s = true) as -> by (apply str_in_In, H; now left).
  apply IH. intros y Hy. apply H. now right.
Qed.

(** The labels of the frame of records that all have the keys [keys]. *)
Lemma frame_labels keys results :
  NoDup keys ->
  results <> [] ->
  Forall (fun d => dict_keys d = keys) results ->
  columns (DataFrame_of_records results) = keys /\
  series (DataFrame_of_records results)
  = map (fun k => (k, series_of (map (fun d => dict_get d k) results))) keys.
Proof.
  intros Hk Hne Hall.
  assert (fold_left (fun acc d => fold_left (fun acc k => set_add k acc)
                                            (dict_keys d) acc)
                    results [] = keys) as E.
  { destruct results as [|d0 rest]; [ congruence | ].
    apply Forall_cons_iff in Hall. destruct Hall as [H0 Hrest].
    cbn [fold_left]. rewrite H0.
    rewrite (fold_set_add_fresh keys []) by exact Hk. cbn [app].
    clear Hne H0. induction rest as [|d rest IH]; [ reflexivity | ].
    apply Forall_cons_iff in Hrest. destruct Hrest as [Hd Hrest].
    cbn [fold_left]. rewrite Hd.
    rewrite fold_set_add_known by auto. now apply IH. }
  unfold columns, DataFrame_of_records. cbn [series]. rewrite E.
  split; [ | reflexivity ].
  rewrite map_map. cbn [fst]. apply map_id.
Qed.

Lemma dict_get_in_keys (d : dict) k v :
  dict_get d k = Some v -> In k (dict_keys d).
Proof.
  induction d as [|[k' v'] r IH]; cbn; [ discriminate | ].
  destruct (String.eqb_spec k' k) as [->|Hk]; [ now left | ].
  intros H. right. now apply IH.
Qed.

Lemma forallb_nth_error {A} (p : A -> bool) l i x :
  forallb p l = true -> nth_error l i = Some x -> p x = true.
Proof.
  intros H E. apply nth_error_In in E.
  rewrite forallb_forall in H. now apply H.
Qed.

(** A cell of the column pandas builds: the value of the record, kept
    as it is in an [int64] column and converted in a [float64] one. *)
Lemma series_of_iloc cells i v :
  nth_error cells i = Some (Some v) ->
  iloc (series_of cells) i
  = Some (if forallb is_int cells then v else to_float v).
Proof.
  intros E. unfold series_of.
  destruct (forallb is_int cells) eqn:Hall; cbn [iloc].
  - rewrite nth_error_map, E. cbn [option_map as_int].
    pose proof (forallb_nth_error is_int cells i (Some v) Hall E) as Hi.
    destruct v; [ reflexivity | discriminate ].
  - rewrite nth_error_map, E. cbn [option_map as_float].
    now destruct v.
Qed.

Lemma forallb_map {A B} (f : A -> B) (p : B -> bool) l :
  forallb p (map f l) = forallb (fun x => p (f x)) l.
Proof.
  induction l as [|x l IH]; cbn; [ reflexivity | now rewrite IH ].
Qed.

Lemma series_of_zeros n :
  n <> O ->
  series_of (repeat (Some (Int 0)) n) = IntSeries (repeat 0 n).
Proof.
  intros _. unfold series_of.
  assert (forallb is_int (repeat (Some (Int 0)) n) = true) as ->.
  { induction n as [|n IH]; cbn; [ reflexivity | exact IH ]. }
  f_equal. induction n as [|n IH]; cbn; [ reflexivity | now rewrite IH ].
Qed.

(** X18: a batch that succeeds is the frame pandas builds from the
    records that [extract] returns for each text alone, in the order of
    the texts: one row per text, the 20 canonical columns, and in every
    cell the value of the record, as it is when every record of the
    batch holds an int under the key and converted to a float
    otherwise, so that the integer zeros of a null, empty or non-string
    text become 0.0 next to the floats of a proper text. A batch fails
    only with the failure of one of its texts, and a batch of texts
    that are null, empty or not strings but with a truth value is the
    frame of integer zeros. *)
Theorem extract_batch_one_to_one :
  forall self texts w,
    (forall df,
        fst (extract_batch self texts w) = Ok df ->
        exists results,
          Forall2 (fun text record => fst (extract self text w) = Ok record)
                  texts results /\
          df = DataFrame_of_records results /\
          index df = List.length texts /\
          (texts <> [] ->
           columns df = map (append (prefix self)) FEATURE_NAMES) /\
          (forall i record key v,
              nth_error results i = Some record ->
              dict_get record key = Some v ->
              exists col,
                In (key, col) (series df) /\
                iloc col i
                = Some (if forallb (fun d => is_int (dict_get d key)) results
                        then v else to_float v))) /\
    (forall e,
        fst (extract_batch self texts w) = Raise e ->
        exists text, In text texts /\ fst (extract self text w) = Raise e) /\
    (texts <> [] ->
     Forall (fun text =>
               truthy text = Ok false \/
               (truthy text = Ok true /\ isinstance_str text = false))
            texts ->
     fst (extract_batch self texts w)
     = Ok (mkFrame (List.length texts)
                   (map (fun name =>
                           (append (prefix self) name,
                            IntSeries (repeat 0 (List.length texts))))
                        FEATURE_NAMES))).
Proof.
  intros self texts w.
  pose proof (extract_results_rows self texts w w (globals_le_refl _)) as H.
  rewrite extract_batch_run.
  assert (forall results,
             Forall2 (fun text record => fst (extract self text w) = Ok record)
                     texts results ->
             texts <> [] ->
             columns (DataFrame_of_records results)
             = map (append (prefix self)) FEATURE_NAMES /\
             series (DataFrame_of_records results)
             = map (fun k => (k, series_of (map (fun d => dict_get d k) results)))
                   (map (append (prefix self)) FEATURE_NAMES)) as Hframe.
  { intros results F Hne. apply frame_labels.
    - apply NoDup_prefixed.
    - intros ->. inversion F. congruence.
    - clear Hne H. induction F as [|text record texts' results' E F IH];
        [ constructor | ].
      constructor; [ | exact IH ].
      now apply (extract_keys self text w). }
  split; [ | split ].
  - intros df E. destruct (fst (extract_results self texts w)) as [results|e];
      [ | discriminate ].
    injection E as <-. exists results.
    split; [ exact H | split; [ reflexivity | split; [ | split ] ] ].
    + cbn [DataFrame_of_records index]. symmetry. eapply Forall2_length, H.
    + intros Hne. apply (Hframe results H Hne).
    + intros i record key v Hi Hv.
      assert (texts <> []) as Hne.
      { intros ->. inversion H; subst. now destruct i. }
      destruct (Hframe results H Hne) as [_ Hs].
      exists (series_of (map (fun d => dict_get d key) results)).
      split.
      * rewrite Hs. apply in_map_iff. exists key. split; [ reflexivity | ].
        destruct (Forall2_nth_error_r _ texts results i record H Hi)
          as (text & Ht).
        rewrite <- (extract_keys self text w record Ht).
        now apply dict_get_in_keys with v.
      * rewrite <- forallb_map. apply series_of_iloc.
        rewrite nth_error_map, Hi. cbn [option_map]. now rewrite Hv.
  - intros e E. destruct (fst (extract_results self texts w)) as [results|e'];
      [ discriminate | ].
    injection E as <-. exact H.
  - intros Hne Hd.
    destruct (fst (extract_results self texts w)) as [results|e].
    + f_equal. destruct (Hframe results H Hne) as [_ Hs].
      assert (results = repeat (map (fun name => (append (prefix self) name, Int 0))
                                    FEATURE_NAMES)
                               (List.length texts)) as Hz.
      { clear Hne Hs Hframe. induction H as [|text record texts' results' E F IH];
          [ reflexivity | ].
        apply Forall_cons_iff in Hd. destruct Hd as [Hd0 Hd].
        rewrite (extract_degenerate self text w Hd0) in E.
        cbn [fst] in E. injection E as <-. cbn [List.length repeat].
        f_equal. now apply IH. }
      assert (List.length results = List.length texts) as L
        by (symmetry; eapply Forall2_length, H).
      transitivity (mkFrame (index (DataFrame_of_records results))
                            (series (DataFrame_of_records results)));
        [ now destruct (DataFrame_of_records results) | ].
      rewrite Hs. unfold DataFrame_of_records. cbn [index]. rewrite L.
      f_equal. rewrite map_map. apply map_ext_in. intros name Hin. f_equal.
      rewrite Hz, map_repeat, zero_record_get by exact Hin.
      apply series_of_zeros.
      destruct texts; [ congruence | discriminate ].
    + destruct H as (text & Hin & Ht).
      rewrite (extract_degenerate self text w) in Ht
        by (eapply Forall_forall in Hd; eassumption).
      discriminate.
Qed.


(* --------------------------------------------------------------- *)
(** *** Lazy loading *)

(** X19: each of the three loaders returns the resource in use, leaves
    it in its cache, touches no other cache and makes no call to the
    grammar service; called again, it returns the same resource and
    changes nothing. *)
Theorem loaders_load_once :
  forall w,
    (let r := get_nlp w in
     fst r = Ok (nlp_in_use w) /\
     _nlp (mods (snd r)) = Some (nlp_in_use w) /\
     _stopwords (mods (snd r)) = _stopwords (mods w) /\
     _language_tool (mods (snd r)) = _language_tool (mods w) /\
     service_calls (snd r) = service_calls w /\
     get_nlp (snd r) = r) /\
    (let r := get_stopwords w in
     fst r = Ok (stop_words_in_use w) /\
     _stopwords (mods (snd r)) = Some (stop_words_in_use w) /\
     _nlp (mods (snd r)) = _nlp (mods w) /\
     _language_tool (mods (snd r)) = _language_tool (mods w) /\
     service_calls (snd r) = service_calls w /\
     get_stopwords (snd r) = r) /\
    (let r := _get_language_tool w in
     fst r = Ok (tool_in_use w) /\
     _language_tool (mods (snd r)) = Some (tool_in_use w) /\
     _nlp (mods (snd r)) = _nlp (mods w) /\
     _stopwords (mods (snd r)) = _stopwords (mods w) /\
     service_calls (snd r) = service_calls w /\
     _get_language_tool (snd r) = r).
Proof.
  intros [[n s t] c]. split; [ | split ].
  - unfold get_nlp, nlp_in_use. cbn.
    destruct n as [nlp|]; cbn; repeat split.
  - unfold get_stopwords, stop_words_in_use. cbn.
    destruct s as [sw|]; cbn; repeat split.
  - unfold _get_language_tool, tool_in_use. cbn.
    destruct t as [tool|]; cbn; repeat split.
Qed.

Lemma extract_keeps_nlp self text w nlp :
  _nlp (mods w) = Some nlp ->
  _nlp (mods (snd (extract self text w))) = Some nlp.
Proof.
  intros H. destruct (stable_extract self text w) as [(Hn & _) _].
  rewrite H in Hn. now apply cache_le_some in Hn.
Qed.

(** X20: constructing the extractor loads the parser, and no later
    [extract] or [extract_batch] loads it again or replaces it. *)
Theorem init_loads_parser :
  forall prefix w,
  exists w1,
    FeatureExtractor_init prefix w = (Ok (mkExtractor prefix), w1) /\
    _nlp (mods w1) = Some (nlp_in_use w) /\
    (forall text,
        _nlp (mods (snd (extract (mkExtractor prefix) text w1)))
        = Some (nlp_in_use w)) /\
    (forall texts,
        _nlp (mods (snd (extract_batch (mkExtractor prefix) texts w1)))
        = Some (nlp_in_use w)).
Proof.
  intros prefix w. unfold FeatureExtractor_init, bind, ret.
  assert (exists w1, get_nlp w = (Ok (nlp_in_use w), w1) /\
                     _nlp (mods w1) = Some (nlp_in_use w)) as (w1 & -> & H1).
  { unfold get_nlp, nlp_in_use. destruct (_nlp (mods w)) eqn:E;
      eexists; (split; [ reflexivity | ]); cbn; auto. }
  exists w1. split; [ reflexivity | split; [ exact H1 | split ] ].
  - intros text. now apply extract_keeps_nlp.
  - intros texts.
    destruct (stable_extract_batch (mkExtractor prefix) texts w1) as [(Hn & _) _].
    rewrite H1 in Hn. now apply cache_le_some in Hn.
Qed.


End Pipeline.

(* ================================================================= *)
(** ** Properties of the feature selection *)

Lemma list_remove_spec feat current :
  In feat current ->
  exists current',
    list_remove feat current = Some current' /\
    Permutation current (feat :: current') /\
    List.length current = S (List.length current').
Proof.
  induction current as [|c rest IH]; intros H; [ destruct H | ].
  cbn [list_remove]. destruct (String.eqb_spec c feat) as [->|Hc].
  - exists rest. repeat split. apply Permutation_refl.
  - destruct H as [H|H]; [ congruence | ].
    destruct (IH H) as (r & -> & P & L). exists (c :: r). cbn [option_map].
    split; [ reflexivity | split ].
    + eapply Permutation_trans; [ apply perm_skip, P | apply perm_swap ].
    + cbn [List.length]. now rewrite L.
Qed.

Lemma map_nth_seq (columns : list string) :
  map (fun i => nth i columns "") (seq 0 (List.length columns)) = columns.
Proof.
  induction columns as [|c rest IH]; [ reflexivity | ].
  cbn [List.length seq map nth]. f_equal.
  rewrite <- seq_shift, map_map. exact IH.
Qed.

Lemma vif_leb_below a b threshold :
  vif_geb a b = true -> vif_leb a threshold = true ->
  vif_leb b threshold = true.
Proof.
  destruct a as [x|], b as [y|]; cbn; try discriminate.
  rewrite !Qle_bool_iff. intros H1 H2. eapply Qle_trans; eassumption.
Qed.

Lemma clean_vif_range raw :
  match clean_vif raw with
  | Finite q => (q < 10000000000)%Q
  | Inf => True
  end.
Proof.
  destruct raw as [q| |]; cbn; try exact I.
  destruct (Qltb q 10000000000) eqn:E; [ | exact I ].
  unfold Qltb in E. apply negb_true_iff in E.
  apply Qnot_le_lt. intros H. apply Qle_bool_iff in H. congruence.
Qed.

(* ----------------------------------------------------------------- *)
(** *** Selecting columns and dropping rows *)

Lemma str_in_iff x l : str_in x l = true <-> In x l.
Proof.
  unfold str_in. rewrite existsb_exists. split.
  - intros (y & Hy & E). apply String.eqb_eq in E. now subst.
  - intros H. exists x. split; [ exact H | apply String.eqb_refl ].
Qed.

Lemma getitem_ok df key :
  (forall name, In name key -> In name (columns df)) ->
  getitem df key = Ok (select df key).
Proof.
  intros H. unfold getitem.
  destruct (filter (fun name => negb (str_in name (columns df))) key)
    as [|missing rest] eqn:E; [ reflexivity | ].
  assert (In missing (missing :: rest)) as Hin by now left.
  rewrite <- E in Hin. apply filter_In in Hin. destruct Hin as [Hk Hm].
  apply negb_true_iff in Hm. apply H, str_in_iff in Hk. congruence.
Qed.

Lemma getitem_missing df key :
  (exists name, In name key /\ ~ In name (columns df)) ->
  exists name,
    In name key /\ ~ In name (columns df) /\
    getitem df key = Raise (KeyError name).
Proof.
  intros (name & Hk & Hm). unfold getitem.
  destruct (filter (fun name => negb (str_in name (columns df))) key)
    as [|missing rest] eqn:E.
  - assert (In name []) as [].
    rewrite <- E. apply filter_In. split; [ exact Hk | ].
    apply negb_true_iff. destruct (str_in name (columns df)) eqn:S;
      [ | reflexivity ].
    apply str_in_iff in S. contradiction.
  - assert (In missing (missing :: rest)) as Hin by now left.
    rewrite <- E in Hin. apply filter_In in Hin. destruct Hin as [Hk' Hm'].
    exists missing. split; [ exact Hk' | split; [ | reflexivity ] ].
    intros Hc. apply str_in_iff in Hc. rewrite Hc in Hm'. discriminate.
Qed.

(** The selected columns carry labels of the key. *)
Lemma select_labels df key l :
  In l (columns (select df key)) -> In l key.
Proof.
  unfold columns, select. cbn [series]. intros H.
  apply in_map_iff in H. destruct H as (col & <- & H).
  apply in_flat_map in H. destruct H as (name & Hk & H).
  apply filter_In in H. destruct H as [_ H].
  apply String.eqb_eq in H. now rewrite H.
Qed.

Lemma unique_label (cols : list (string * Series)) name :
  NoDup (map fst cols) -> In name (map fst cols) ->
  List.length (filter (fun col => String.eqb (fst col) name) cols) = 1%nat.
Proof.
  induction cols as [|[l s] rest IH]; intros Hn Hin; [ destruct Hin | ].
  cbn [map fst] in Hn, Hin. apply NoDup_cons_iff in Hn.
  destruct Hn as [Hl Hn]. cbn [filter fst].
  destruct (String.eqb_spec l name) as [->|Hne].
  - cbn [List.length]. f_equal.
    assert (filter (fun col => String.eqb (fst col) name) rest = []) as ->;
      [ | reflexivity ].
    clear IH Hn Hin. induction rest as [|[l' s'] rest IH]; [ reflexivity | ].
    cbn [filter fst]. destruct (String.eqb_spec l' name) as [->|_].
    + exfalso. apply Hl. now left.
    + apply IH. intros H. apply Hl. now right.
  - destruct Hin as [Hin|Hin]; [ congruence | ]. now apply IH.
Qed.

(** In a frame whose labels are all different, a key selects one
    column for each of its labels. *)
Lemma select_shape_unique df key :
  NoDup (columns df) ->
  (forall name, In name key -> In name (columns df)) ->
  shape1 (select df key) = List.length key.
Proof.
  intros Hn. unfold shape1, select. cbn [series].
  induction key as [|name key IH]; intros H; [ reflexivity | ].
  cbn [flat_map]. rewrite length_app, IH by (intros n Hk; apply H; now right).
  rewrite (unique_label (series df) name Hn) by (apply H; now left).
  reflexivity.
Qed.

Lemma columns_dropna X : columns (dropna X) = columns X.
Proof.
  unfold columns, dropna. cbn [series]. rewrite map_map. reflexivity.
Qed.

Lemma shape1_dropna X : shape1 (dropna X) = shape1 X.
Proof. unfold shape1, dropna. cbn [series]. apply length_map. Qed.

Lemma shape1_columns X : shape1 X = List.length (columns X).
Proof. unfold shape1, columns. now rewrite length_map. Qed.

(** [dropna] leaves a row exactly when some row of the frame has no
    NaN. *)
Lemma dropna_index X :
  index (dropna X) <> O <->
  exists i, (i < index X)%nat /\ complete (series X) i = true.
Proof.
  unfold dropna. cbn [index]. split.
  - intros H.
    destruct (filter (complete (series X)) (seq 0 (index X)))
      as [|i rest] eqn:E; [ now cbn in H | ].
    assert (In i (i :: rest)) as Hin by now left.
    rewrite <- E in Hin. apply filter_In in Hin. destruct Hin as [Hs Hc].
    apply in_seq in Hs. exists i. split; [ lia | exact Hc ].
  - intros (i & Hi & Hc).
    assert (In i (filter (complete (series X)) (seq 0 (index X)))) as Hin.
    { apply filter_In. split; [ apply in_seq; lia | exact Hc ]. }
    destruct (filter (complete (series X)) (seq 0 (index X)));
      [ destruct Hin | discriminate ].
Qed.

(** A row that is complete in the selected columns is complete in any
    selection of fewer labels: removing a feature never loses a row. *)
Lemma dropna_select_incl df key key' :
  (forall name, In name key' -> In name key) ->
  index (dropna (select df key)) <> O ->
  index (dropna (select df key')) <> O.
Proof.
  intros Hincl H. apply dropna_index in H. destruct H as (i & Hi & Hc).
  apply dropna_index. exists i. split; [ exact Hi | ].
  unfold complete, select in *. cbn [series] in *.
  rewrite forallb_forall in *. intros col Hcol. apply Hc.
  apply in_flat_map in Hcol. destruct Hcol as (name & Hk & Hcol).
  apply in_flat_map. exists name. split; [ apply Hincl, Hk | exact Hcol ].
Qed.

Section AnalysisProperties.

Variable ndarray : Type.
Variable standardize : DataFrame -> ndarray.
Variable variance_inflation_factor : ndarray -> nat -> vif_raw.
Variable sort_values : list (string * vif_value) -> list (string * vif_value).

(** What is known of [sort_values]: it reorders the rows, largest
    factor first; the order of rows with equal factors is left open. *)
Hypothesis sort_values_perm :
  forall rows, Permutation (sort_values rows) rows.
Hypothesis sort_values_desc :
  forall rows,
    StronglySorted (fun a b => vif_geb (snd a) (snd b) = true)
                   (sort_values rows).

Lemma calculate_vif_ok X :
  index X <> O -> series X <> [] ->
  exists vif_df,
    calculate_vif standardize variance_inflation_factor sort_values X = Ok vif_df /\
    Permutation (map fst vif_df) (columns X) /\
    StronglySorted (fun a b => vif_geb (snd a) (snd b) = true) vif_df /\
    Forall (fun row => match snd row with
                       | Finite q => (q < 10000000000)%Q
                       | Inf => True
                       end) vif_df.
Proof.
  intros Hi Hs. unfold calculate_vif, fit_transform.
  destruct (series X) as [|col cols] eqn:Es; [ congruence | ].
  destruct (index X) as [|n]; [ congruence | ].
  eexists. split; [ reflexivity | ].
  split; [ | split; [ apply sort_values_desc | ] ].
  - eapply Permutation_trans; [ apply Permutation_map, sort_values_perm | ].
    rewrite map_map. cbn [fst]. rewrite shape1_columns. apply Permutation_refl'.
    apply map_nth_seq.
  - eapply Permutation_Forall;
      [ apply Permutation_sym, sort_values_perm | ].
    apply Forall_map, Forall_forall. intros i _. apply clean_vif_range.
Qed.

Lemma calculate_vif_refused X :
  index X = O \/ series X = [] ->
  exists msg, calculate_vif standardize variance_inflation_factor sort_values X = Raise (ValueError msg).
Proof.
  intros H. unfold calculate_vif, fit_transform.
  destruct (series X) as [|col cols]; [ eexists; reflexivity | ].
  destruct H as [-> | H]; [ eexists; reflexivity | discriminate ].
Qed.

(** X21: on a frame with a row and a column [calculate_vif] returns one
    row for each column, under the labels of the columns, largest
    factor first, every factor being [np.inf] or a finite number below
    1e10; on a frame without a row or without a column the scaler
    refuses the input and its [ValueError] comes out of
    [calculate_vif]. *)
Theorem calculate_vif_rows :
  forall X,
    (index X <> O -> series X <> [] ->
     exists vif_df,
       calculate_vif standardize variance_inflation_factor sort_values X = Ok vif_df /\
       Permutation (map fst vif_df) (columns X) /\
       List.length vif_df = shape1 X /\
       StronglySorted (fun a b => vif_geb (snd a) (snd b) = true) vif_df /\
       Forall (fun row => match snd row with
                          | Finite q => (q < 10000000000)%Q
                          | Inf => True
                          end) vif_df) /\
    (index X = O \/ series X = [] ->
     exists msg, calculate_vif standardize variance_inflation_factor sort_values X = Raise (ValueError msg)).
Proof.
  intros X. split; [ | apply calculate_vif_refused ].
  intros Hi Hs.
  destruct (calculate_vif_ok X Hi Hs) as (vif_df & E & P & S & F).
  exists vif_df. split; [ exact E | split; [ exact P | split ] ].
  - rewrite shape1_columns, <- (length_map fst vif_df).
    now apply Permutation_length.
  - split; [ exact S | exact F ].
Qed.

(** The loop, started with enough fuel on features that are columns of
    the frame and leave it a row, returns; what it has removed and what
    it keeps are the features it started from. *)
Lemma removal_loop_returns df threshold : forall fuel current removed,
  (List.length current < fuel)%nat ->
  (forall name, In name current -> In name (columns df)) ->
  index (dropna (select df current)) <> O ->
  exists current' extra,
    removal_loop standardize variance_inflation_factor sort_values fuel df threshold current removed
    = Returned (current', removed ++ extra) /\
    Permutation (map fst extra ++ current') current /\
    Forall (fun r => vif_leb (snd r) threshold = false) extra /\
    ((shape1 (select df current') < 2)%nat \/
     exists vif_df,
       calculate_vif standardize variance_inflation_factor sort_values (dropna (select df current')) = Ok vif_df /\
       Forall (fun row => vif_leb (snd row) threshold = true) vif_df) /\
    (NoDup (columns df) -> current <> [] -> current' <> []).
Proof.
  induction fuel as [|fuel IH]; intros current removed Hf Hcols Hrow; [ lia | ].
  cbn [removal_loop]. rewrite (getitem_ok df current Hcols).
  cbv zeta. rewrite shape1_dropna.
  destruct (Nat.ltb_spec (shape1 (select df current)) 2) as [Hs|Hl].
  - exists current, []. rewrite app_nil_r.
    split; [ reflexivity | split; [ apply Permutation_refl | ] ].
    split; [ constructor | split; [ now left | auto ] ].
  - assert (series (dropna (select df current)) <> []) as Hser.
    { pose proof (shape1_dropna (select df current)) as E.
      unfold shape1 at 1 in E. intros E0. rewrite E0 in E.
      cbn [List.length] in E. lia. }
    destruct (calculate_vif_ok _ Hrow Hser) as (vif_df & E & Hn & Hd & _).
    rewrite columns_dropna in Hn. rewrite E.
    destruct vif_df as [|[feat top] rows].
    { apply Permutation_length in Hn. rewrite <- shape1_columns in Hn.
      cbn [map List.length] in Hn. lia. }
    destruct (vif_leb top threshold) eqn:Et.
    + exists current, []. rewrite app_nil_r.
      split; [ reflexivity | split; [ apply Permutation_refl | ] ].
      split; [ constructor | split; [ | auto ] ].
      right. eexists. split; [ exact E | ].
      constructor; [ exact Et | ].
      apply StronglySorted_inv in Hd. destruct Hd as [_ Hd].
      eapply Forall_impl; [ | exact Hd ]. intros row Hrow'. cbn [snd] in Hrow'.
      exact (vif_leb_below top (snd row) threshold Hrow' Et).
    + assert (In feat current) as Hin.
      { apply (select_labels df).
        eapply Permutation_in; [ exact Hn | ]. now left. }
      destruct (list_remove_spec feat current Hin) as (cur' & -> & P & L).
      assert (forall name, In name cur' -> In name current) as Hincl.
      { intros name Hname. eapply Permutation_in;
          [ apply Permutation_sym, P | ]. now right. }
      destruct (IH cur' (removed ++ [(feat, top)]) ltac:(lia)
                   (fun name Hname => Hcols name (Hincl name Hname))
                   (dropna_select_incl df current cur' Hincl Hrow))
        as (c' & extra & -> & P' & F' & S' & N').
      exists c', ((feat, top) :: extra).
      rewrite <- app_assoc. cbn [app].
      split; [ reflexivity | split; [ | split; [ | split ] ] ].
      * cbn [map fst app]. apply Permutation_sym.
        eapply Permutation_trans; [ exact P | ].
        apply perm_skip, Permutation_sym, P'.
      * constructor; [ exact Et | exact F' ].
      * exact S'.
      * intros Hu _. apply (N' Hu).
        rewrite (select_shape_unique df current Hu Hcols) in Hl.
        destruct cur'; [ cbn in L; lia | discriminate ].
Qed.

(** X22: with fuel for one turn more than there are features, and
    features that are all columns of the frame, [iterative_vif_removal]
    returns as soon as dropping the rows with NaN leaves a row: the
    features it removed and the ones it kept are together the features
    it was given, every factor recorded with a removed feature exceeded
    the threshold, at the end fewer than two columns are selected or no
    factor of the remaining frame exceeds the threshold, and in a frame
    whose labels are all different a feature list that is not empty is
    never emptied. With fewer than two columns selected the features
    come back as they are. With two columns or more and no row left the
    [ValueError] of the scaler comes out, and a feature that is not a
    column of the frame gives the [KeyError] of the selection. *)
Theorem iterative_vif_removal_spec :
  forall df features threshold fuel,
    (List.length features < fuel)%nat ->
    ((forall name, In name features -> In name (columns df)) ->
     index (dropna (select df features)) <> O ->
     exists current removed,
       iterative_vif_removal standardize variance_inflation_factor sort_values fuel df features threshold
       = Returned (current, removed) /\
       Permutation (map fst removed ++ current) features /\
       Forall (fun r => vif_leb (snd r) threshold = false) removed /\
       ((shape1 (select df current) < 2)%nat \/
        exists vif_df,
          calculate_vif standardize variance_inflation_factor sort_values (dropna (select df current)) = Ok vif_df /\
          Forall (fun row => vif_leb (snd row) threshold = true) vif_df) /\
       (NoDup (columns df) -> features <> [] -> current <> [])) /\
    ((forall name, In name features -> In name (columns df)) ->
     (shape1 (select df features) < 2)%nat ->
     iterative_vif_removal standardize variance_inflation_factor sort_values fuel df features threshold
     = Returned (features, [])) /\
    ((forall name, In name features -> In name (columns df)) ->
     (2 <= shape1 (select df features))%nat ->
     index (dropna (select df features)) = O ->
     exists msg,
       iterative_vif_removal standardize variance_inflation_factor sort_values fuel df features threshold
       = Failed (ValueError msg)) /\
    ((exists name, In name features /\ ~ In name (columns df)) ->
     exists name,
       In name features /\ ~ In name (columns df) /\
       iterative_vif_removal standardize variance_inflation_factor sort_values fuel df features threshold
       = Failed (KeyError name)).
Proof.
  intros df features threshold fuel Hf. unfold iterative_vif_removal.
  split; [ | split; [ | split ] ].
  - intros Hcols Hrow.
    destruct (removal_loop_returns df threshold fuel features [] Hf Hcols Hrow)
      as (current & extra & E & H).
    exists current, extra. split; [ exact E | exact H ].
  - intros Hcols Hs. destruct fuel as [|fuel]; [ lia | ].
    cbn [removal_loop]. rewrite (getitem_ok df features Hcols).
    cbv zeta. rewrite shape1_dropna.
    apply Nat.ltb_lt in Hs. now rewrite Hs.
  - intros Hcols Hs Hrow. destruct fuel as [|fuel]; [ lia | ].
    cbn [removal_loop]. rewrite (getitem_ok df features Hcols).
    cbv zeta. rewrite shape1_dropna.
    destruct (Nat.ltb_spec (shape1 (select df features)) 2) as [Hlt|_];
      [ lia | ].
    destruct (calculate_vif_refused (dropna (select df features)))
      as (msg & ->); [ now left | ].
    now exists msg.
  - intros Hm. destruct fuel as [|fuel]; [ lia | ].
    destruct (getitem_missing df features Hm) as (name & Hk & Hn & E).
    exists name. split; [ exact Hk | split; [ exact Hn | ] ].
    cbn [removal_loop]. now rewrite E.
Qed.

End AnalysisProperties.

(** The insertion sort of the test doubles is a [sort_values]. *)
Lemma fake_insert_perm row rows :
  Permutation (FakeAnalysis.insert row rows) (row :: rows).
Proof.
  induction rows as [|r rest IH]; cbn; [ apply Permutation_refl | ].
  destruct (vif_geb (snd row) (snd r)); [ apply Permutation_refl | ].
  eapply Permutation_trans; [ apply perm_skip, IH | apply perm_swap ].
Qed.

Lemma fake_sort_values_perm rows :
  Permutation (FakeAnalysis.sort_values rows) rows.
Proof.
  induction rows as [|r rest IH]; cbn; [ constructor | ].
  eapply Permutation_trans; [ apply fake_insert_perm | apply perm_skip, IH ].
Qed.

Lemma vif_geb_total a b : vif_geb a b = false -> vif_geb b a = true.
Proof.
  destruct a as [x|], b as [y|]; cbn; try discriminate; try reflexivity.
  intros H. apply Qle_bool_iff. apply Qlt_le_weak, Qnot_le_lt.
  intros H'. apply Qle_bool_iff in H'. congruence.
Qed.

Lemma vif_geb_trans a b c :
  vif_geb a b = true -> vif_geb b c = true -> vif_geb a c = true.
Proof.
  destruct a as [x|], b as [y|], c as [z|]; cbn; try discriminate;
    try reflexivity.
  rewrite !Qle_bool_iff. intros H1 H2. eapply Qle_trans; eassumption.
Qed.

Lemma fake_insert_sorted row rows :
  StronglySorted (fun a b => vif_geb (snd a) (snd b) = true) rows ->
  StronglySorted (fun a b => vif_geb (snd a) (snd b) = true)
                 (FakeAnalysis.insert row rows).
Proof.
  induction 1 as [|r rest Hs IH Hr]; cbn.
  - repeat constructor.
  - destruct (vif_geb (snd row) (snd r)) eqn:E.
    + constructor; [ now constructor | ].
      constructor; [ exact E | ].
      eapply Forall_impl; [ | exact Hr ]. intros x Hx.
      eapply vif_geb_trans; eassumption.
    + constructor; [ exact IH | ].
      eapply Permutation_Forall;
        [ apply Permutation_sym, fake_insert_perm | ].
      constructor; [ now apply vif_geb_total | exact Hr ].
Qed.

Lemma fake_sort_values_desc rows :
  StronglySorted (fun a b => vif_geb (snd a) (snd b) = true)
                 (FakeAnalysis.sort_values rows).
Proof.
  induction rows as [|r rest IH]; cbn; [ constructor | ].
  now apply fake_insert_sorted.
Qed.


(* ================================================================= *)
(** ** The properties on the test doubles *)

Example ran_and_walked_t_units :
  t_units_of_doc Fake.ran_and_walked = ([3; 3], 0).
Proof. reflexivity. Qed.

Example did_it_work_diversity :
  sentence_type_diversity Fake.str_lower Fake.str_strip Fake.sent_tokenize
                          Fake.word_tokenize "Did it work?"
  = (1 # 5)%Q.
Proof. reflexivity. Qed.

Example count_matches_apart :
  str_count "a so so b so " " so " = 2.
Proof. reflexivity. Qed.

Lemma count_syllables_at_least_one_witness :
  len (Fake.str_strip (Fake.str_lower " The ")) <= 3 /\
  count_syllables Fake.str_lower Fake.str_strip " The " = 1.
Proof.
  split; [ vm_compute; discriminate | ].
  apply (proj2 (count_syllables_at_least_one Fake.str_lower Fake.str_strip)).
  vm_compute; discriminate.
Defined.

Lemma error_count_short_circuit_witness :
  len "Too short" < 10 /\
  error_count unit Fake.failing_tool "Too short" Fake.fresh = (Ok 0, Fake.fresh).
Proof.
  split; [ reflexivity | ].
  apply (error_count_short_circuit unit Fake.failing_tool). reflexivity.
Defined.

Lemma service_failure_propagates_witness :
  let text := "This are bad grammar." in
  let e := LanguageToolError "connection refused" in
  (fst (error_count unit Fake.failing_tool text Fake.fresh) = Raise e /\
   service_calls (snd (error_count unit Fake.failing_tool text Fake.fresh))
   = [text]) /\
  exists w',
    extract unit Fake.str_lower Fake.str_strip Fake.str_isalpha
            Fake.sent_tokenize Fake.word_tokenize Fake.wordnet_synsets
            Fake.stopwords_words Fake.nlp Fake.failing_tool
            (mkExtractor "OST_") (PyStr text) Fake.fresh
    = (Raise e, w') /\
    service_calls w' = [text].
Proof.
  intros text e.
  apply (service_failure_propagates
           unit Fake.str_lower Fake.str_strip Fake.str_isalpha
           Fake.sent_tokenize Fake.word_tokenize Fake.wordnet_synsets
           Fake.stopwords_words Fake.nlp Fake.failing_tool
           (mkExtractor "OST_") text Fake.fresh e).
  - vm_compute; discriminate.
  - reflexivity.
Defined.

(** With the grammar service down, [extract] on a text of 21 characters
    gives the failure of the service and no record: the no-crash policy
    does not hold of the code. *)
Lemma service_failure_no_record :
  fst (extract unit Fake.str_lower Fake.str_strip Fake.str_isalpha
               Fake.sent_tokenize Fake.word_tokenize Fake.wordnet_synsets
               Fake.stopwords_words Fake.nlp Fake.failing_tool
               (mkExtractor "OST_") (PyStr "This are bad grammar.") Fake.fresh)
  = Raise (LanguageToolError "connection refused") /\
  ~ zero_on_service_failure
      unit Fake.str_lower Fake.str_strip Fake.str_isalpha
      Fake.sent_tokenize Fake.word_tokenize Fake.wordnet_synsets
      Fake.stopwords_words Fake.nlp Fake.failing_tool.
Proof.
  split; [ vm_compute; reflexivity | ].
  intros H.
  destruct (H (mkExtractor "OST_") "This are bad grammar." Fake.fresh
              (LanguageToolError "connection refused"))
    as (record & E & _).
  - vm_compute; discriminate.
  - reflexivity.
  - vm_compute in E. discriminate E.
Qed.



Lemma t_units_nonempty_witness :
  let doc := Fake.ran_and_walked in
  let and_ := mkToken "and" true "CCONJ" "cc" 2 1 in
  let pre := [mkToken "I" true "PRON" "nsubj" 0 1;
              mkToken "ran" true "VERB" "ROOT" 1 1] in
  let post := [mkToken "she" true "PRON" "nsubj" 3 4;
               mkToken "walked" true "VERB" "conj" 4 1;
               mkToken "." false "PUNCT" "punct" 5 1] in
  is_t_unit_boundary doc and_ = true /\
  token_step doc (mkSeg [] 0 pre 0) and_ = mkSeg [3] 0 [] 0 /\
  fst (sent_step doc ([], 0) (pre ++ and_ :: post))
  = fst (sent_step doc ([], 0) (pre ++ [and_]))
    ++ fst (sent_step doc ([], 0) post) /\
  (exists units u,
      t_units_of_sent doc (pre ++ and_ :: post)
      = units ++ (u ++ [and_]) :: t_units_of_sent doc post) /\
  1 <= llen (t_units_of_sent doc post) /\
  exists n,
    fst (num_t_units unit Fake.nlp "I ran and she walked." Fake.fresh) = Ok n /\
    nonempty_sents doc <= n.
Proof.
  intros doc and_ pre post.
  pose proof (t_units_nonempty unit Fake.nlp doc)
    as (_ & _ & _ & Ht & Hd & Hb & Hs & _ & Hn).
  split; [ reflexivity | split; [ | split; [ | split; [ | split ] ] ] ].
  - apply (Ht (mkSeg [] 0 pre 0) and_). reflexivity.
  - apply (proj1 (Hd ([], 0) pre and_ post eq_refl)).
  - apply Hb. reflexivity.
  - apply Hs. discriminate.
  - apply Hn. reflexivity.
Defined.

Lemma sentence_type_diversity_spec_witness :
  sentence_type Fake.str_lower Fake.str_strip Fake.word_tokenize "Did it work?"
  = "question" /\
  sentence_type Fake.str_lower Fake.str_strip Fake.word_tokenize "It works!"
  = "exclamation" /\
  sentence_type Fake.str_lower Fake.str_strip Fake.word_tokenize
                "Because it rained."
  = "complex" /\
  sentence_type Fake.str_lower Fake.str_strip Fake.word_tokenize
                "We came, we saw a b c d e f g h and we left."
  = "compound" /\
  sentence_type Fake.str_lower Fake.str_strip Fake.word_tokenize "It works."
  = "simple" /\
  sentence_type_diversity Fake.str_lower Fake.str_strip Fake.sent_tokenize
                          Fake.word_tokenize ""
  = 0%Q /\
  (sentence_type_diversity Fake.str_lower Fake.str_strip Fake.sent_tokenize
                           Fake.word_tokenize "Did it work?"
   == 0.2)%Q.
Proof.
  pose proof (sentence_type_diversity_spec
                Fake.str_lower Fake.str_strip Fake.sent_tokenize
                Fake.word_tokenize) as (_ & Hp & _ & H0 & H1).
  split; [ | split; [ | split; [ | split; [ | split; [ | split ] ] ] ] ].
  - apply (proj1 (Hp "Did it work?")). reflexivity.
  - apply (proj1 (proj2 (Hp "It works!"))); reflexivity.
  - apply (proj1 (proj2 (proj2 (Hp "Because it rained.")))); reflexivity.
  - apply (proj1 (proj2 (proj2 (proj2
             (Hp "We came, we saw a b c d e f g h and we left.")))));
      reflexivity.
  - apply (proj2 (proj2 (proj2 (proj2 (Hp "It works."))))); reflexivity.
  - apply H0. reflexivity.
  - apply (H1 "Did it work?" "Did it work?"); reflexivity.
Defined.



(** The two calls of C8 on a fresh store: the first one loads the
    parser, the stopwords and the grammar checker, the second one finds
    them and returns the same record. *)
Example extract_twice :
  let run := extract unit Fake.str_lower Fake.str_strip Fake.str_isalpha
                     Fake.sent_tokenize Fake.word_tokenize Fake.wordnet_synsets
                     Fake.stopwords_words Fake.nlp Fake.quiet_tool
                     (mkExtractor "OST_")
                     (PyStr "I ran and she walked.") in
  fst (run (snd (run Fake.fresh))) = fst (run Fake.fresh) /\
  service_calls (snd (run (snd (run Fake.fresh))))
  = ["I ran and she walked."; "I ran and she walked."].
Proof. split; vm_compute; reflexivity. Qed.

(* ----------------------------------------------------------------- *)
(** *** Ranges and counts on the test doubles *)

Lemma flesch_kincaid_bounds_witness :
  let text := "I ran and she sat." in
  flesch_kincaid_grade_level Fake.str_lower Fake.str_strip Fake.str_isalpha
                             Fake.sent_tokenize Fake.word_tokenize ""
  = 0%Q /\
  flesch_kincaid_grade_level Fake.str_lower Fake.str_strip Fake.str_isalpha
                             Fake.sent_tokenize Fake.word_tokenize text
  = 0%Q.
Proof.
  intros text. split.
  - apply (proj1 (proj2 (flesch_kincaid_bounds
                           Fake.str_lower Fake.str_strip Fake.str_isalpha
                           Fake.sent_tokenize Fake.word_tokenize ""))).
    left. reflexivity.
  - apply (proj2 (proj2 (flesch_kincaid_bounds
                           Fake.str_lower Fake.str_strip Fake.str_isalpha
                           Fake.sent_tokenize Fake.word_tokenize text))).
    + change (filter Fake.str_isalpha (Fake.word_tokenize text))
        with ["I"; "ran"; "and"; "she"; "sat"].
      repeat (apply Forall_cons; [ reflexivity | ]). apply Forall_nil.
    + vm_compute. discriminate.
Defined.

Lemma lexical_diversity_range_witness :
  (lexical_diversity Fake.str_lower Fake.str_isalpha Fake.word_tokenize
                     "Cat dog bird fish" == 1)%Q /\
  lexical_diversity Fake.str_lower Fake.str_isalpha Fake.word_tokenize "12 34"
  = 0%Q.
Proof.
  split.
  - destruct (lexical_diversity_range Fake.str_lower Fake.str_isalpha
                                      Fake.word_tokenize "Cat dog bird fish")
      as (_ & _ & H).
    destruct H as [_ H]; [ vm_compute; discriminate | ].
    apply H. vm_compute.
    repeat (constructor; [ cbn; intuition discriminate | ]). constructor.
  - apply (proj1 (proj2 (lexical_diversity_range
                           Fake.str_lower Fake.str_isalpha
                           Fake.word_tokenize "12 34"))).
    reflexivity.
Defined.

Lemma information_density_range_witness :
  exists density w',
    information_density unit Fake.str_lower Fake.str_isalpha
                        Fake.word_tokenize Fake.stopwords_words
                        "12 34" Fake.fresh
    = (Ok density, w') /\
    density = 0%Q.
Proof.
  destruct (information_density_range
              unit Fake.str_lower Fake.str_isalpha Fake.word_tokenize
              Fake.stopwords_words "12 34" Fake.fresh)
    as (density & w' & E & _ & H).
  exists density, w'. split; [ exact E | apply H; reflexivity ].
Defined.

Lemma num_complex_sentences_monotone_witness :
  let text := "I ran and she walked. It works." in
  num_complex_sentences Fake.str_isalpha Fake.sent_tokenize Fake.word_tokenize
                        text 15
  <= num_complex_sentences Fake.str_isalpha Fake.sent_tokenize
                           Fake.word_tokenize text 3.
Proof.
  intros text.
  apply (proj2 (num_complex_sentences_monotone
                  Fake.str_isalpha Fake.sent_tokenize Fake.word_tokenize
                  text 3) 15).
  lia.
Defined.

Lemma sentence_type_diversity_fifths_witness :
  exists k,
    1 <= k <= 5 /\
    (sentence_type_diversity Fake.str_lower Fake.str_strip Fake.sent_tokenize
                             Fake.word_tokenize "Did it work? It works."
     == inject_Z k / 5)%Q /\
    (0.2 <= sentence_type_diversity Fake.str_lower Fake.str_strip
                                    Fake.sent_tokenize Fake.word_tokenize
                                    "Did it work? It works.")%Q.
Proof.
  apply (sentence_type_diversity_fifths
           Fake.str_lower Fake.str_strip Fake.sent_tokenize Fake.word_tokenize
           "Did it work? It works.").
  vm_compute. discriminate.
Defined.

Lemma syntactic_simplicity_range_witness :
  syntactic_simplicity Fake.sent_tokenize Fake.word_tokenize "" = 0%Q /\
  (0 < syntactic_simplicity Fake.sent_tokenize Fake.word_tokenize "It works.")%Q.
Proof.
  split.
  - apply (proj1 (proj2 (syntactic_simplicity_range
                           Fake.sent_tokenize Fake.word_tokenize ""))).
    reflexivity.
  - apply (proj2 (proj2 (syntactic_simplicity_range
                           Fake.sent_tokenize Fake.word_tokenize "It works."))).
    exists "It works.". split; [ vm_compute; now left | vm_compute; discriminate ].
Defined.

Lemma referential_cohesion_range_witness :
  referential_cohesion unit Fake.str_lower Fake.str_isalpha Fake.sent_tokenize
                       Fake.word_tokenize Fake.stopwords_words
                       "The cat sat." Fake.fresh
  = (Ok 0%Q, Fake.fresh).
Proof.
  destruct (referential_cohesion_range
              unit Fake.str_lower Fake.str_isalpha Fake.sent_tokenize
              Fake.word_tokenize Fake.stopwords_words
              "The cat sat." Fake.fresh)
    as (cohesion & w' & E & _ & H).
  destruct H as [H1 H2]; [ vm_compute; discriminate | ].
  rewrite E, H1, H2. reflexivity.
Defined.

Lemma variances_nonnegative_witness :
  (word_length_variance Fake.str_isalpha Fake.word_tokenize "Hello" == 0)%Q /\
  (syllable_variance Fake.str_lower Fake.str_strip Fake.str_isalpha
                     Fake.word_tokenize "Hello below" == 0)%Q.
Proof.
  split.
  - apply (proj1 (proj2 (proj2 (variances_nonnegative
                                  Fake.str_lower Fake.str_strip
                                  Fake.str_isalpha Fake.word_tokenize
                                  "Hello"))) 5).
    change (filter Fake.str_isalpha (Fake.word_tokenize "Hello"))
      with ["Hello"].
    constructor; [ reflexivity | constructor ].
  - apply (proj2 (proj2 (proj2 (variances_nonnegative
                                  Fake.str_lower Fake.str_strip
                                  Fake.str_isalpha Fake.word_tokenize
                                  "Hello below"))) 2).
    change (filter Fake.str_isalpha (Fake.word_tokenize "Hello below"))
      with ["Hello"; "below"].
    constructor; [ reflexivity | ].
    constructor; [ reflexivity | constructor ].
Defined.

Lemma mean_length_t_unit_value_witness :
  exists mean w',
    mean_length_t_unit unit Fake.nlp "I ran and she walked." Fake.fresh
    = (Ok mean, w') /\
    (mean == 3)%Q /\ (1 <= mean)%Q.
Proof.
  destruct (mean_length_t_unit_value unit Fake.nlp "I ran and she walked."
                                     Fake.fresh)
    as (mean & w' & E & _ & H & _).
  destruct H as [Hm H1]; [ vm_compute; discriminate | ].
  exists mean, w'. split; [ exact E | split; [ | exact H1 ] ].
  eapply Qeq_trans; [ exact Hm | vm_compute; reflexivity ].
Defined.


Lemma context_sensitive_count_bounds_witness :
  exists count w',
    context_sensitive_count unit Fake.str_lower Fake.wordnet_synsets Fake.nlp
                            "I ran and she walked." Fake.fresh
    = (Ok count, w') /\
    count = 0.
Proof.
  destruct (context_sensitive_count_bounds
              unit Fake.str_lower Fake.wordnet_synsets Fake.nlp
              "I ran and she walked." Fake.fresh)
    as (count & w' & E & _ & H).
  exists count, w'. split; [ exact E | apply H ].
  intros token Hin. vm_compute in Hin.
  repeat (destruct Hin as [<- | Hin]; [ reflexivity | ]). destruct Hin.
Defined.

Lemma vocabulary_sophistication_range_witness :
  exists score w',
    vocabulary_sophistication unit Fake.str_lower Fake.str_isalpha
                              Fake.word_tokenize Fake.wordnet_synsets
                              Fake.stopwords_words "I failed the test"
                              Fake.fresh
    = (Ok score, w') /\
    (0 <= score <= 1)%Q.
Proof.
  destruct (vocabulary_sophistication_range
              unit Fake.str_lower Fake.str_isalpha Fake.word_tokenize
              Fake.wordnet_synsets Fake.stopwords_words "I failed the test"
              Fake.fresh)
    as (score & w' & E & H1 & H0 & _).
  exists score, w'. split; [ exact E | split; [ apply H0 | exact H1 ] ].
  intros word s H. unfold Fake.wordnet_synsets in H.
  destruct (String.eqb word "test");
    [ destruct H as [<- | [<- | []]]; cbn; lia | ].
  destruct (String.eqb word "lesson");
    [ destruct H as [<- | []]; cbn; lia | destruct H ].
Defined.

Lemma extract_record_values_witness :
  let text := "Did it work?" in
  exists record,
    fst (extract unit Fake.str_lower Fake.str_strip Fake.str_isalpha
                 Fake.sent_tokenize Fake.word_tokenize Fake.wordnet_synsets
                 Fake.stopwords_words Fake.nlp Fake.quiet_tool
                 (mkExtractor "OST_") (PyStr text) Fake.fresh)
    = Ok record /\
    dict_get record "OST_word_count"
    = Some (Int (word_count Fake.str_isalpha Fake.word_tokenize text)) /\
    dict_get record "OST_avg_sentence_length"
    = Some (Float (avg_sentence_length Fake.str_isalpha Fake.sent_tokenize
                                       Fake.word_tokenize text)).
Proof.
  intros text. eexists. split; [ vm_compute; reflexivity | ].
  match goal with
  | |- context [dict_get ?r _] =>
      pose proof (extract_record_values
                    unit Fake.str_lower Fake.str_strip Fake.str_isalpha
                    Fake.sent_tokenize Fake.word_tokenize Fake.wordnet_synsets
                    Fake.stopwords_words Fake.nlp Fake.quiet_tool
                    (mkExtractor "OST_") text Fake.fresh r
                    ltac:(discriminate) ltac:(vm_compute; reflexivity))
        as (_ & H1 & H2 & _)
  end.
  split; [ exact H1 | exact H2 ].
Defined.

Lemma extract_batch_one_to_one_witness :
  let self := mkExtractor "OST_" in
  let batch := extract_batch unit Fake.str_lower Fake.str_strip
                             Fake.str_isalpha Fake.sent_tokenize
                             Fake.word_tokenize Fake.wordnet_synsets
                             Fake.stopwords_words Fake.nlp Fake.quiet_tool
                             self in
  (exists df,
      fst (batch [PyStr "Did it work?"; PyNone] Fake.fresh) = Ok df /\
      index df = 2%nat /\
      columns df = map (append "OST_") FEATURE_NAMES) /\
  fst (batch [PyNone; PyStr ""; PyInt 3] Fake.fresh)
  = Ok (mkFrame 3 (map (fun name => (append "OST_" name, IntSeries [0; 0; 0]))
                       FEATURE_NAMES)).
Proof.
  intros self batch. split.
  - destruct (fst (batch [PyStr "Did it work?"; PyNone] Fake.fresh))
      as [df|e] eqn:E; [ | vm_compute in E; discriminate E ].
    exists df. split; [ reflexivity | ].
    destruct (proj1 (extract_batch_one_to_one
                    unit Fake.str_lower Fake.str_strip Fake.str_isalpha
                    Fake.sent_tokenize Fake.word_tokenize Fake.wordnet_synsets
                    Fake.stopwords_words Fake.nlp Fake.quiet_tool
                    self [PyStr "Did it work?"; PyNone] Fake.fresh) df E)
      as (results & _ & _ & Hi & Hc & _).
    split; [ exact Hi | apply Hc; discriminate ].
  - apply (proj2 (proj2 (extract_batch_one_to_one
                    unit Fake.str_lower Fake.str_strip Fake.str_isalpha
                    Fake.sent_tokenize Fake.word_tokenize Fake.wordnet_synsets
                    Fake.stopwords_words Fake.nlp Fake.quiet_tool
                    self [PyNone; PyStr ""; PyInt 3] Fake.fresh)));
      [ discriminate | ].
    repeat (apply Forall_cons;
            [ (left; reflexivity) || (right; split; reflexivity) | ]).
    apply Forall_nil.
Defined.

(** In a batch with a proper text the zeros of the null text are
    floats in the float columns and ints in the int columns. *)
Example batch_zero_becomes_float :
  match fst (extract_batch unit Fake.str_lower Fake.str_strip
                           Fake.str_isalpha Fake.sent_tokenize
                           Fake.word_tokenize Fake.wordnet_synsets
                           Fake.stopwords_words Fake.nlp Fake.quiet_tool
                           (mkExtractor "OST_")
                           [PyStr "Did it work?"; PyNone] Fake.fresh) with
  | Ok df =>
      map (fun col => (fst col, iloc (snd col) 1)) (firstn 4 (series df))
      = [ ("OST_word_count", Some (Int 0));
          ("OST_avg_sentence_length", Some (Float 0));
          ("OST_num_complex_sentences", Some (Int 0));
          ("OST_lexical_diversity", Some (Float 0)) ]
  | Raise _ => False
  end.
Proof. vm_compute. reflexivity. Qed.

Example vif_removal_run :
  iterative_vif_removal FakeAnalysis.standardize
                        FakeAnalysis.variance_inflation_factor
                        FakeAnalysis.sort_values 5 FakeAnalysis.scores
                        ["a"; "b"; "c"; "e"] 10
  = Returned (["a"; "c"; "e"], [("b", Inf)]).
Proof. vm_compute. reflexivity. Qed.

Lemma scores_columns names :
  forallb (fun name => str_in name (columns FakeAnalysis.scores)) names = true ->
  forall name, In name names -> In name (columns FakeAnalysis.scores).
Proof.
  intros H name Hin. rewrite forallb_forall in H.
  apply str_in_iff, H, Hin.
Qed.

Lemma calculate_vif_rows_witness :
  (exists vif_df,
      calculate_vif FakeAnalysis.standardize
                    FakeAnalysis.variance_inflation_factor
                    FakeAnalysis.sort_values
                    (dropna (select FakeAnalysis.scores ["a"; "b"; "c"; "e"]))
      = Ok vif_df /\
      Permutation (map fst vif_df) ["a"; "b"; "c"; "e"] /\
      List.length vif_df = 4%nat) /\
  exists msg,
    calculate_vif FakeAnalysis.standardize
                  FakeAnalysis.variance_inflation_factor
                  FakeAnalysis.sort_values
                  (dropna (select FakeAnalysis.scores ["a"; "d"]))
    = Raise (ValueError msg).
Proof.
  split.
  - destruct (proj1 (calculate_vif_rows
                       DataFrame FakeAnalysis.standardize
                       FakeAnalysis.variance_inflation_factor
                       FakeAnalysis.sort_values
                       fake_sort_values_perm fake_sort_values_desc
                       (dropna (select FakeAnalysis.scores
                                       ["a"; "b"; "c"; "e"]))))
      as (vif_df & E & P & L & _).
    + vm_compute. discriminate.
    + vm_compute. discriminate.
    + exists vif_df. split; [ exact E | split; [ exact P | exact L ] ].
  - apply (proj2 (calculate_vif_rows
                    DataFrame FakeAnalysis.standardize
                    FakeAnalysis.variance_inflation_factor
                    FakeAnalysis.sort_values
                    fake_sort_values_perm fake_sort_values_desc
                    (dropna (select FakeAnalysis.scores ["a"; "d"])))).
    left. reflexivity.
Defined.

Lemma iterative_vif_removal_spec_witness :
  let run := iterative_vif_removal FakeAnalysis.standardize
                                   FakeAnalysis.variance_inflation_factor
                                   FakeAnalysis.sort_values 5
                                   FakeAnalysis.scores in
  (exists current removed,
      run ["a"; "b"; "c"; "e"] 10%Q = Returned (current, removed) /\
      Permutation (map fst removed ++ current) ["a"; "b"; "c"; "e"] /\
      Forall (fun r => vif_leb (snd r) 10%Q = false) removed /\
      current <> []) /\
  run ["a"] 10%Q = Returned (["a"], []) /\
  (exists msg, run ["a"; "d"] 10%Q = Failed (ValueError msg)) /\
  (exists name,
      In name ["a"; "z"] /\ ~ In name (columns FakeAnalysis.scores) /\
      run ["a"; "z"] 10%Q = Failed (KeyError name)).
Proof.
  intros run.
  pose proof (fun features H =>
                iterative_vif_removal_spec
                  DataFrame FakeAnalysis.standardize
                  FakeAnalysis.variance_inflation_factor
                  FakeAnalysis.sort_values
                  fake_sort_values_perm fake_sort_values_desc
                  FakeAnalysis.scores features 10 5 H) as T.
  split; [ | split; [ | split ] ].
  - destruct (proj1 (T ["a"; "b"; "c"; "e"] ltac:(cbn; lia)))
      as (current & removed & E & P & F & _ & N).
    + apply scores_columns. reflexivity.
    + vm_compute. discriminate.
    + exists current, removed.
      split; [ exact E | split; [ exact P | split; [ exact F | ] ] ].
      apply N; [ | discriminate ].
      replace (columns FakeAnalysis.scores)
        with (nodup string_dec (columns FakeAnalysis.scores)) by reflexivity.
      apply NoDup_nodup.
  - apply (proj1 (proj2 (T ["a"] ltac:(cbn; lia)))).
    + apply scores_columns. reflexivity.
    + cbn. lia.
  - apply (proj1 (proj2 (proj2 (T ["a"; "d"] ltac:(cbn; lia))))).
    + apply scores_columns. reflexivity.
    + cbn. lia.
    + reflexivity.
  - apply (proj2 (proj2 (proj2 (T ["a"; "z"] ltac:(cbn; lia))))).
    exists "z". split; [ right; left; reflexivity | ].
    intros H. apply str_in_iff in H. discriminate H.
Defined.
